(** * Monochrome dithering editor (src/src/App.tsx): model and properties

    The engine of the editor is [processImage] together with its helpers
    [applyTonalAdjustments] and [toLuma].  This development embeds them
    shallowly:

    - a JavaScript [number] is an IEEE 754 binary64 value; module [Num]
      models it with round-to-nearest-even written out over [Z];
    - the typed arrays ([Uint8ClampedArray], [Float32Array]) are lists that
      are read and written by index;
    - the two canvases and the React state read by [processImage] form an
      explicit [State] that [processImage] transforms;
    - of the other handlers, the working size computed by [handleLoad], the
      reset done by [clearImage] and the file name built by [downloadPNG]
      are modelled beside it. *)

From Stdlib Require Import ZArith Lia String Ascii Floats.SpecFloat.
From stdpp Require Import base list strings gmap.

#[global] Unset Lia Cache.
#[global] Unset Nia Cache.

(** ** JavaScript numbers *)

Module Num.
Local Open Scope Z_scope.

(** Every finite binary64 value is an integer multiple of [2^-1074]; a finite
    number is stored as that integer, so [Fin n] stands for [n * 2^-1074].
    The sign of zero is not kept: this program never divides by a value
    that can be zero and compares with [<], [>=], [===] only, which do
    not distinguish the two zeros. *)
Inductive number : Type :=
  | NaN
  | Inf (negative : bool)
  | Fin (n : Z).

#[global] Instance number_eq_dec : EqDecision number.
Proof. solve_decision. Defined.

(** The integer that stands for 1.0. *)
Definition one : Z := 2 ^ 1074.

(** Nearest integer to [a / c] for [c > 0], ties to the even one. *)
Definition rne (a c : Z) : Z :=
  let '(q, r) := Z.div_eucl a c in
  if 2 * r <? c then q
  else if c <? 2 * r then q + 1
  else if Z.even q then q else q + 1.

(** Number of binary digits of a natural number. *)
Definition digits (n : Z) : Z := if n =? 0 then 0 else Z.log2 n + 1.

(** Number of trailing zero bits. *)
Fixpoint ctz_pos (p : positive) : Z :=
  match p with
  | xO q => Z.succ (ctz_pos q)
  | _ => 0
  end.

Definition ctz (n : Z) : Z :=
  match n with
  | Z0 => 0
  | Zpos p | Zneg p => ctz_pos p
  end.

(** The fraction [a / b] with the common factors of two removed; the value
    is the same and the divisions below run on short operands. *)
Definition reduce (a b : Z) : Z * Z :=
  let g := Z.min (ctz a) (ctz b) in
  (Z.shiftr a g, Z.shiftr b g).

(** Exponent of the grid on which the rational [a / b] is rounded, in a format
    with [prec] digits whose subnormal numbers are the multiples of
    [2 ^ sub]. *)
Definition grid (prec sub a b : Z) : Z := Z.max sub (digits (a / b) - prec).

(** Rounding of the non-negative rational [a / b] to the format. *)
Definition round_mag (prec sub a b : Z) : Z :=
  let '(a1, b1) := reduce a b in
  let k := grid prec sub a1 b1 in
  let '(a2, c2) := reduce a1 (b1 * 2 ^ k) in
  rne a2 c2 * 2 ^ k.

Definition round_to (prec sub a b : Z) : Z :=
  Z.sgn a * round_mag prec sub (Z.abs a) b.

(** The rounding of a magnitude without the reduction of the fraction, and the
    numbers of a format: those that rounding leaves alone. *)
Definition nearest (prec sub a b : Z) : Z :=
  rne a (b * 2 ^ grid prec sub a b) * 2 ^ grid prec sub a b.

Definition representable (prec sub n : Z) : Prop := round_to prec sub n 1 = n.

(** Overflow to infinity at [2 ^ top]. *)
Definition finish (top n : Z) : number :=
  if 2 ^ top <=? Z.abs n then Inf (n <? 0) else Fin n.

(** binary64: 53 digits, subnormal grid [2^-1074], overflow at [2^1024]. *)
Definition round64 (a b : Z) : number := finish 2098 (round_to 53 0 a b).

(** binary32: 24 digits, subnormal grid [2^-149], overflow at [2^128]. *)
Definition round32 (n : Z) : number := finish 1202 (round_to 24 925 n 1).

(** Integer literals and integer-valued array elements. *)
Definition of_Z (z : Z) : number := round64 (z * one) 1.

(** A decimal literal [a / b], correctly rounded. *)
Definition dec (a b : Z) : number := round64 (a * one) b.

(** What a [Float32Array] element keeps of a number. *)
Definition fround (x : number) : number :=
  match x with
  | Fin n => round32 n
  | _ => x
  end.

Definition neg (x : number) : number :=
  match x with
  | NaN => NaN
  | Inf s => Inf (negb s)
  | Fin n => Fin (- n)
  end.

Definition add (x y : number) : number :=
  match x, y with
  | NaN, _ | _, NaN => NaN
  | Inf s, Inf t => if Bool.eqb s t then Inf s else NaN
  | Inf s, Fin _ => Inf s
  | Fin _, Inf t => Inf t
  | Fin a, Fin b => round64 (a + b) 1
  end.

Definition sub (x y : number) : number := add x (neg y).

Definition mul (x y : number) : number :=
  match x, y with
  | NaN, _ | _, NaN => NaN
  | Inf s, Inf t => Inf (xorb s t)
  | Inf s, Fin b => if b =? 0 then NaN else Inf (xorb s (b <? 0))
  | Fin a, Inf t => if a =? 0 then NaN else Inf (xorb (a <? 0) t)
  | Fin a, Fin b => round64 (a * b) one
  end.

(** A zero divisor is taken as [+0]. *)
Definition div (x y : number) : number :=
  match x, y with
  | NaN, _ | _, NaN => NaN
  | Inf _, Inf _ => NaN
  | Inf s, Fin b => Inf (xorb s (b <? 0))
  | Fin _, Inf _ => Fin 0
  | Fin a, Fin b =>
      if b =? 0 then (if a =? 0 then NaN else Inf (a <? 0))
      else round64 (Z.sgn b * a * one) (Z.abs b)
  end.

(** [x < y], [x <= y] and [x === y]; false as soon as one side is [NaN]. *)
Definition ltb (x y : number) : bool :=
  match x, y with
  | NaN, _ | _, NaN => false
  | Inf s, Inf t => s && negb t
  | Inf s, Fin _ => s
  | Fin _, Inf t => negb t
  | Fin a, Fin b => a <? b
  end.

Definition eqb (x y : number) : bool :=
  match x, y with
  | NaN, _ | _, NaN => false
  | Inf s, Inf t => Bool.eqb s t
  | Fin a, Fin b => a =? b
  | _, _ => false
  end.

Definition leb (x y : number) : bool := ltb x y || eqb x y.
Definition gtb (x y : number) : bool := ltb y x.
Definition geb (x y : number) : bool := leb y x.

(** [Math.min], [Math.max]: [NaN] if an argument is [NaN]. *)
Definition Math_min (x y : number) : number :=
  match x, y with
  | NaN, _ | _, NaN => NaN
  | _, _ => if ltb y x then y else x
  end.

Definition Math_max (x y : number) : number :=
  match x, y with
  | NaN, _ | _, NaN => NaN
  | _, _ => if ltb x y then y else x
  end.

(** [Math.round]: the integer nearest to [x], ties towards [+Infinity]. *)
Definition Math_round (x : number) : number :=
  match x with
  | Fin n => Fin (Z.shiftr (2 * n + one) 1075 * one)
  | _ => x
  end.

(** Conversion of a number stored into a [Uint8ClampedArray]: [NaN] gives 0,
    the value is clamped to [0, 255] and rounded, ties to even. *)
Definition to_uint8_clamp (x : number) : Z :=
  match x with
  | NaN => 0
  | Inf s => if s then 0 else 255
  | Fin n => Z.max 0 (Z.min 255 (let '(a, c) := reduce n one in rne a c))
  end.

(** The largest finite binary64 number, and the finite numbers. *)
Definition max_double : Z := (2 ^ 53 - 1) * 2 ^ 2045.

Definition finite (x : number) : Prop :=
  match x with
  | Fin n => Z.abs n <= max_double
  | _ => False
  end.

(** A finite number between two integers (bounds included). *)
Definition between (lo hi : Z) (x : number) : Prop :=
  match x with
  | Fin n => lo * one <= n <= hi * one
  | _ => False
  end.

(** The same value in the representation of the standard library's
    specification of IEEE 754 arithmetic, used to cross-check the operations. *)
Definition to_spec (x : number) : spec_float :=
  match x with
  | NaN => S754_nan
  | Inf s => S754_infinity s
  | Fin n => binary_normalize 53 1024 n (-1074) false
  end.

End Num.

Import Num.


(** ** Typed arrays and loops *)

(** [for (let i = 0; i < n; i++) body] as a state transformer. *)
Definition for_ {St : Type} (n : nat) (body : nat → St → St) (s : St) : St :=
  foldl (λ s i, body i s) s (seq 0 n).

(** Reading an element of a [Uint8ClampedArray] in a numeric context; an index
    out of range reads [undefined], which converts to [NaN]. *)
Definition get_byte (a : list Z) (i : nat) : number :=
  match a !! i with
  | Some v => of_Z v
  | None => NaN
  end.

(** Storing a number in a [Uint8ClampedArray]; nothing happens out of range. *)
Definition set_byte (a : list Z) (i : nat) (x : number) : list Z :=
  <[i := to_uint8_clamp x]> a.

(** Elements of a [Float32Array]. *)
Definition get_f32 (a : list number) (i : nat) : number :=
  default NaN (a !! i).

Definition set_f32 (a : list number) (i : nat) (x : number) : list number :=
  <[i := fround x]> a.

(** [a[i] += d] on a [Float32Array]. *)
Definition add_f32 (a : list number) (i : nat) (d : number) : list number :=
  set_f32 a i (add (get_f32 a i) d).

(** ** Palettes and Bayer matrices *)

Record Palette : Type := { fg : string; bg : string }.

Definition PALETTES : gmap string Palette :=
  list_to_map
    [ ("Black & White", {| fg := "#000000"; bg := "#ffffff" |});
      ("Sepia", {| fg := "#3e2f1c"; bg := "#f3e8d0" |});
      ("Indigo & Ivory", {| fg := "#1e1b4b"; bg := "#fffff0" |});
      ("Teal & Sand", {| fg := "#0f766e"; bg := "#fbf1c7" |});
      ("Crimson & Cream", {| fg := "#8b0000"; bg := "#fff4f4" |});
      ("Forest & Sky", {| fg := "#064e3b"; bg := "#f0f9ff" |}) ]%string.

Definition BAYER_2 : list (list Z) :=
  [ [0; 2];
    [3; 1] ]%Z.

Definition BAYER_4 : list (list Z) :=
  [ [0; 8; 2; 10];
    [12; 4; 14; 6];
    [3; 11; 1; 9];
    [15; 7; 13; 5] ]%Z.

Definition BAYER_8 : list (list Z) :=
  [ [0; 48; 12; 60; 3; 51; 15; 63];
    [32; 16; 44; 28; 35; 19; 47; 31];
    [8; 56; 4; 52; 11; 59; 7; 55];
    [40; 24; 36; 20; 43; 27; 39; 23];
    [2; 50; 14; 62; 1; 49; 13; 61];
    [34; 18; 46; 30; 33; 17; 45; 29];
    [10; 58; 6; 54; 9; 57; 5; 53];
    [42; 26; 38; 22; 41; 25; 37; 21] ]%Z.

(** The algorithm names are the string literals of the source, byte for
    byte. *)
Definition ALGORITHMS : list string :=
  [ "Threshold";
    "Floydâ€“Steinberg";
    "Atkinson";
    "Ordered Bayer 2x2";
    "Ordered Bayer 4x4";
    "Ordered Bayer 8x8";
    "Random" ]%string.

Definition DITHER_SIZES : list nat := [1; 2; 4; 8; 16; 32].

(** [s.includes(t)] *)
Fixpoint includes (t s : string) : bool :=
  String.prefix t s ||
  match s with
  | EmptyString => false
  | String _ s' => includes t s'
  end.

(** ** Canvases *)

(** One pixel of a canvas bitmap: red, green, blue and alpha bytes. *)
Record Pixel : Type := { red : Z; green : Z; blue : Z; alpha : Z }.

#[global] Instance Pixel_eq_dec : EqDecision Pixel.
Proof. solve_decision. Defined.

Definition transparent : Pixel := {| red := 0; green := 0; blue := 0; alpha := 0 |}.
Definition opaque_black : Pixel := {| red := 0; green := 0; blue := 0; alpha := 255 |}.

Definition hex_digit (c : ascii) : option Z :=
  let n := Z.of_nat (nat_of_ascii c) in
  if ((48 <=? n) && (n <=? 57))%Z then Some (n - 48)%Z
  else if ((97 <=? n) && (n <=? 102))%Z then Some (n - 87)%Z
  else if ((65 <=? n) && (n <=? 70))%Z then Some (n - 55)%Z
  else None.

Definition hex_byte (a b : ascii) : option Z :=
  h ← hex_digit a; l ← hex_digit b; Some (16 * h + l)%Z.

(** The colours of the palette table are all of the form [#rrggbb]; a value
    that is not a colour leaves [fillStyle] as it was. *)
Definition parse_colour (s : string) : option Pixel :=
  match s with
  | String "#" (String r1 (String r0 (String g1 (String g0
      (String b1 (String b0 EmptyString)))))) =>
      r ← hex_byte r1 r0; g ← hex_byte g1 g0; b ← hex_byte b1 b0;
      Some {| red := r; green := g; blue := b; alpha := 255 |}
  | _ => None
  end.

(** The drawing state of a 2D context that [processImage] touches. *)
Record DrawState : Type := {
  fillStyle : Pixel;
  imageSmoothingEnabled : bool
}.

Definition initial_draw_state : DrawState :=
  {| fillStyle := opaque_black; imageSmoothingEnabled := true |}.

Record Canvas : Type := {
  width : nat;
  height : nat;
  bitmap : list Pixel;            (* row-major, [width * height] pixels *)
  draw : DrawState;               (* current drawing state *)
  saved : list DrawState          (* stack of [save()] *)
}.

(** Assigning [width] or [height] clears the bitmap and resets the context. *)
Definition blank (w h : nat) : Canvas :=
  {| width := w; height := h; bitmap := replicate (w * h) transparent;
     draw := initial_draw_state; saved := [] |}.

Definition set_width (c : Canvas) (w : nat) : Canvas := blank w (height c).
Definition set_height (c : Canvas) (h : nat) : Canvas := blank (width c) h.

Definition set_imageSmoothingEnabled (c : Canvas) (b : bool) : Canvas :=
  {| width := width c; height := height c; bitmap := bitmap c;
     draw := {| fillStyle := fillStyle (draw c); imageSmoothingEnabled := b |};
     saved := saved c |}.

Definition set_fillStyle (c : Canvas) (s : string) : Canvas :=
  match parse_colour s with
  | Some col =>
      {| width := width c; height := height c; bitmap := bitmap c;
         draw := {| fillStyle := col;
                    imageSmoothingEnabled := imageSmoothingEnabled (draw c) |};
         saved := saved c |}
  | None => c
  end.

Definition save (c : Canvas) : Canvas :=
  {| width := width c; height := height c; bitmap := bitmap c;
     draw := draw c; saved := draw c :: saved c |}.

Definition restore (c : Canvas) : Canvas :=
  match saved c with
  | d :: rest =>
      {| width := width c; height := height c; bitmap := bitmap c;
         draw := d; saved := rest |}
  | [] => c
  end.

(** [fillRect(x, y, rw, rh)] with an opaque fill colour and integer
    coordinates: every pixel of the bitmap inside the rectangle takes the
    colour. *)
Definition in_rect (x y rw rh px py : nat) : bool :=
  (x <=? px) && (px <? x + rw) && (y <=? py) && (py <? y + rh).

Definition fillRect (c : Canvas) (x y rw rh : nat) : Canvas :=
  {| width := width c; height := height c;
     bitmap := imap (λ k p, if in_rect x y rw rh (k `mod` width c) (k `div` width c)
                            then fillStyle (draw c) else p) (bitmap c);
     draw := draw c; saved := saved c |}.

(** [getImageData(0, 0, w, h).data]: the bytes of the bitmap, four per pixel. *)
Definition getImageData (c : Canvas) : list Z :=
  p ← bitmap c; [red p; green p; blue p; alpha p].

(** ** The component state read and written by [processImage] *)

Record State : Type := {
  originalCanvas : option Canvas;   (* originalCanvasRef.current *)
  ditherCanvas : option Canvas;     (* ditherCanvasRef.current *)
  algorithm : string;
  paletteKey : string;
  ditherSize : nat;
  brightness : number;
  contrast : number;
  gamma : number;
  invert : bool;
  threshold : number;
  randomCalls : nat                 (* calls of [Math.random] made so far *)
}.

(** [processImage] either returns or is left by the [TypeError] of
    destructuring [PALETTES[paletteKey]] when the key is not in the table. *)
Inductive Outcome : Type :=
  | Returned (st : State)
  | Threw (st : State).

Definition final_state (o : Outcome) : State :=
  match o with
  | Returned st | Threw st => st
  end.

Section Engine.

(** [Math.pow] is implementation-approximated and [Math.random] is
    implementation-defined: both are parameters of the model.
    [Math_random k] is the value returned by the call number [k]. *)
Variable Math_pow : number → number → number.
Variable Math_random : nat → number.

(** *** Core processing *)

Definition clamp01 (x : number) : number :=
  Math_max (of_Z 0) (Math_min (of_Z 1) x).

Definition applyTonalAdjustments
    (brightness contrast gamma : number) (invert : bool) (v : number) : number :=
  let x := div v (of_Z 255) in
  let x := add x (div brightness (of_Z 100)) in
  let x :=
    if negb (eqb contrast (of_Z 0)) then
      let c := div (add (of_Z 100) contrast) (of_Z 100) in
      add (mul (sub x (dec 5 10)) c) (dec 5 10)
    else x in
  let x :=
    if gtb gamma (of_Z 0) && negb (eqb gamma (of_Z 1)) then
      Math_pow (clamp01 x) (div (of_Z 1) gamma)
    else clamp01 x in
  let x := if invert then sub (of_Z 1) x else x in
  Math_round (mul x (of_Z 255)).

Definition toLuma (r g b : number) : number :=
  Math_round
    (add (add (mul (dec 2126 10000) r) (mul (dec 7152 10000) g))
         (mul (dec 722 10000) b)).

(** Step 1: grayscale and adjustments. *)
Definition compute_gray (st : State) (w h : nat) (data : list Z) : list Z :=
  for_ ((length data + 3) `div` 4)
    (λ p gray,
       let i := 4 * p in
       let l := toLuma (get_byte data i) (get_byte data (i + 1))
                       (get_byte data (i + 2)) in
       set_byte gray p
         (applyTonalAdjustments (brightness st) (contrast st) (gamma st)
            (invert st) l))
    (replicate (w * h) 0%Z).

(** Step 2: the dithering variants.  Each takes the mask allocated by
    [processImage] and fills it. *)

Definition bit (b : bool) : Z := if b then 1%Z else 0%Z.

Definition threshold_dither (threshold : number) (gray mask : list Z) : list Z :=
  let T := Math_max (of_Z 0) (Math_min (of_Z 255) threshold) in
  for_ (length gray) (λ p mask, <[p := bit (geb (get_byte gray p) T)]> mask) mask.

Definition random_dither (gray : list Z) (st : list Z * nat) : list Z * nat :=
  for_ (length gray)
    (λ p '(mask, calls),
       let rnd := mul (Math_random calls) (of_Z 255) in
       (<[p := bit (geb (get_byte gray p) rnd)]> mask, S calls))
    st.

Definition ordered_threshold (m : list (list Z)) (x y : nat) : number :=
  let n := length m in
  let scale := n * n in
  div (mul (add (of_Z ((m !!! (y `mod` n)) !!! (x `mod` n))) (dec 5 10)) (of_Z 255))
      (of_Z (Z.of_nat scale)).

Definition ordered_dither (m : list (list Z)) (w h : nat) (gray mask : list Z)
    : list Z :=
  for_ h (λ y, for_ w (λ x mask,
    let idx := y * w + x in
    let t := ordered_threshold m x y in
    <[idx := bit (gtb (get_byte gray idx) t)]> mask)) mask.

Definition quantize (old : number) : Z :=
  if ltb old (of_Z 128) then 0%Z else 255%Z.

Definition fs_pixel (w h x y : nat) (st : list number * list Z)
    : list number * list Z :=
  let '(buf, mask) := st in
  let i := y * w + x in
  let old := get_f32 buf i in
  let newVal := quantize old in
  let mask := <[i := bit (newVal =? 255)%Z]> mask in
  let err := sub old (of_Z newVal) in
  let buf := if x + 1 <? w
             then add_f32 buf (i + 1) (div (mul err (of_Z 7)) (of_Z 16))
             else buf in
  let buf :=
    if y + 1 <? h then
      let buf := if 0 <? x
                 then add_f32 buf (i + w - 1) (div (mul err (of_Z 3)) (of_Z 16))
                 else buf in
      let buf := add_f32 buf (i + w) (div (mul err (of_Z 5)) (of_Z 16)) in
      if x + 1 <? w
      then add_f32 buf (i + w + 1) (div (mul err (of_Z 1)) (of_Z 16))
      else buf
    else buf in
  (buf, mask).

(** The working buffer: a [Float32Array] filled from [gray]. *)
Definition init_buf (gray : list Z) : list number :=
  for_ (length gray) (λ i buf, set_f32 buf i (get_byte gray i))
    (replicate (length gray) (Fin 0)).

Definition floyd_steinberg (w h : nat) (gray mask : list Z) : list Z :=
  (for_ h (λ y, for_ w (λ x, fs_pixel w h x y)) (init_buf gray, mask)).2.

Definition atkinson_pixel (w h x y : nat) (st : list number * list Z)
    : list number * list Z :=
  let '(buf, mask) := st in
  let i := y * w + x in
  let old := get_f32 buf i in
  let newVal := quantize old in
  let mask := <[i := bit (newVal =? 255)%Z]> mask in
  let err := div (sub old (of_Z newVal)) (of_Z 8) in
  let buf := if x + 1 <? w then add_f32 buf (i + 1) err else buf in
  let buf := if x + 2 <? w then add_f32 buf (i + 2) err else buf in
  let buf :=
    if y + 1 <? h then
      let buf := if 0 <? x then add_f32 buf (i + w - 1) err else buf in
      let buf := add_f32 buf (i + w) err in
      if x + 1 <? w then add_f32 buf (i + w + 1) err else buf
    else buf in
  let buf := if y + 2 <? h then add_f32 buf (i + 2 * w) err else buf in
  (buf, mask).

Definition atkinson (w h : nat) (gray mask : list Z) : list Z :=
  (for_ h (λ y, for_ w (λ x, atkinson_pixel w h x y)) (init_buf gray, mask)).2.

(** The [switch (algorithm)]: it has no [default] branch, so a name that
    matches no [case] leaves the mask as allocated. *)
Definition dither (st : State) (w h : nat) (gray : list Z) : list Z * nat :=
  let mask := replicate (w * h) 0%Z in
  let a := algorithm st in
  if String.eqb a "Threshold" then
    (threshold_dither (threshold st) gray mask, randomCalls st)
  else if String.eqb a "Random" then
    random_dither gray (mask, randomCalls st)
  else if String.eqb a "Ordered Bayer 2x2" || String.eqb a "Ordered Bayer 4x4"
          || String.eqb a "Ordered Bayer 8x8" then
    let m := if includes "2x2" a then BAYER_2
             else if includes "4x4" a then BAYER_4 else BAYER_8 in
    (ordered_dither m w h gray mask, randomCalls st)
  else if String.eqb a "Floydâ€“Steinberg" then
    (floyd_steinberg w h gray mask, randomCalls st)
  else if String.eqb a "Atkinson" then
    (atkinson w h gray mask, randomCalls st)
  else (mask, randomCalls st).

(** Step 3: paint to the dither canvas with palette and pixel size. *)

(** [if (mask[i])]: a missing element is [undefined], which is falsy. *)
Definition truthy (mask : list Z) (i : nat) : bool :=
  match mask !! i with
  | Some v => negb (v =? 0)%Z
  | None => false
  end.

Definition paint_blocks (w h s : nat) (mask : list Z) (dc : Canvas) : Canvas :=
  for_ h (λ y, for_ w (λ x dc,
    if truthy mask (y * w + x) then fillRect dc (x * s) (y * s) s s else dc)) dc.

Definition composite (dc : Canvas) (pal : Palette) (w h s : nat) (mask : list Z)
    : Canvas :=
  let outW := w * s in
  let outH := h * s in
  let dc := set_width dc outW in
  let dc := set_height dc outH in
  let dc := set_imageSmoothingEnabled dc false in
  let dc := save dc in
  let dc := set_fillStyle dc (bg pal) in
  let dc := fillRect dc 0 0 outW outH in
  let dc := set_fillStyle dc (fg pal) in
  let dc := paint_blocks w h s mask dc in
  restore dc.

Definition with_output (st : State) (dc : option Canvas) (calls : nat) : State :=
  {| originalCanvas := originalCanvas st; ditherCanvas := dc;
     algorithm := algorithm st; paletteKey := paletteKey st;
     ditherSize := ditherSize st; brightness := brightness st;
     contrast := contrast st; gamma := gamma st; invert := invert st;
     threshold := threshold st; randomCalls := calls |}.

Definition processImage (st : State) : Outcome :=
  match originalCanvas st, ditherCanvas st with
  | Some oc, Some dc =>
      let w := width oc in
      let h := height oc in
      if (w =? 0) || (h =? 0) then Returned st
      else
        let src := getImageData oc in
        let gray := compute_gray st w h src in
        let '(mask, calls) := dither st w h gray in
        match PALETTES !! paletteKey st with
        | Some pal =>
            Returned
              (with_output st (Some (composite dc pal w h (ditherSize st) mask)) calls)
        | None => Threw (with_output st (Some dc) calls)
        end
  | _, _ => Returned st
  end.

End Engine.

(** ** The tonal transform as the specification words it

    The stages of section 4.1 of the specification, one definition each, to
    be compared with [applyTonalAdjustments]. *)

Section TonalSpec.

Variable Math_pow : number → number → number.

Definition spec_normalize (v : number) : number := div v (of_Z 255).

Definition spec_brightness (brightness x : number) : number :=
  add x (div brightness (of_Z 100)).

Definition spec_contrast (contrast x : number) : number :=
  if eqb contrast (of_Z 0) then x
  else
    let c := div (add (of_Z 100) contrast) (of_Z 100) in
    add (mul (sub x (dec 5 10)) c) (dec 5 10).

Definition spec_clamp (x : number) : number :=
  if ltb x (of_Z 0) then of_Z 0
  else if ltb (of_Z 1) x then of_Z 1
  else x.

Definition spec_gamma (gamma x : number) : number :=
  let x := spec_clamp x in
  if ltb (of_Z 0) gamma && negb (eqb gamma (of_Z 1))
  then Math_pow x (div (of_Z 1) gamma)
  else x.

Definition spec_invert (invert : bool) (x : number) : number :=
  if invert then sub (of_Z 1) x else x.

Definition spec_tonal
    (brightness contrast gamma : number) (invert : bool) (v : number) : number :=
  let x := spec_normalize v in
  let x := spec_brightness brightness x in
  let x := spec_contrast contrast x in
  let x := spec_gamma gamma x in
  let x := spec_invert invert x in
  Math_round (mul x (of_Z 255)).

(** The value that reaches the gamma stage. *)
Definition before_gamma (brightness contrast v : number) : number :=
  spec_contrast contrast (spec_brightness brightness (spec_normalize v)).

(** Whether the gamma stage calls [Math.pow]. *)
Definition gamma_applies (gamma : number) : bool :=
  gtb gamma (of_Z 0) && negb (eqb gamma (of_Z 1)).

End TonalSpec.

(** A number that is an integer intensity: one of 0, 1, ..., 255. *)
Definition is_intensity (x : number) : Prop :=
  ∃ r : Z, (0 ≤ r ≤ 255)%Z ∧ x = of_Z r.

(** ** Definitions used in the statements below *)

Definition is_mask (n : nat) (mask : list Z) : Prop :=
  length mask = n ∧ Forall (λ b, b = 0 ∨ b = 1)%Z mask.

(** The cell of the matrix used at pixel [(x, y)]. *)
Definition bayer_cell (m : list (list Z)) (x y : nat) : Z :=
  (m !!! (y `mod` length m)) !!! (x `mod` length m).

(** The ordered threshold [(M + 0.5) * 255 / N²] as an exact multiple of
    [2^-1074]: [N²] is a power of two that divides [one]. *)
Definition exact_threshold (m : list (list Z)) (x y : nat) : Z :=
  let N := Z.of_nat (length m) in
  ((2 * bayer_cell m x y + 1) * 255 * (one / (2 * N * N)))%Z.

Definition thresholds_exact (m : list (list Z)) : bool :=
  forallb (λ j, forallb (λ i,
    bool_decide (ordered_threshold m i j = Fin (exact_threshold m i j)))
    (seq 0 (length m))) (seq 0 (length m)).

(** Index in the output bitmap of the pixel at offset [(dx, dy)] of the block
    of mask pixel [(x, y)]. *)
Definition block_index (w s x y dx dy : nat) : nat :=
  (y * s + dy) * (w * s) + (x * s + dx).

(** A state whose algorithm name is none of the seven. *)
Definition unknown_algorithm_state : State :=
  {| originalCanvas :=
       Some {| width := 2; height := 1;
               bitmap := [ {| red := 10; green := 10; blue := 10; alpha := 255 |};
                           {| red := 200; green := 200; blue := 200; alpha := 255 |} ];
               draw := initial_draw_state; saved := [] |};
     ditherCanvas := Some (blank 0 0);
     algorithm := "Sierra";
     paletteKey := "Black & White";
     ditherSize := 1;
     brightness := of_Z 0; contrast := of_Z 0; gamma := of_Z 1; invert := false;
     threshold := of_Z 128;
     randomCalls := 0 |}.

Definition white : Pixel := {| red := 255; green := 255; blue := 255; alpha := 255 |}.

(** A state that runs an error diffusion on a 3 by 2 image, with the tonal
    controls, the palette and the pixel size away from their initial values. *)
Definition atkinson_state : State :=
  {| originalCanvas :=
       Some {| width := 3; height := 2;
               bitmap := [ {| red := 10; green := 20; blue := 30; alpha := 255 |};
                           {| red := 200; green := 180; blue := 90; alpha := 255 |};
                           {| red := 128; green := 128; blue := 128; alpha := 255 |};
                           {| red := 255; green := 255; blue := 255; alpha := 255 |};
                           {| red := 60; green := 140; blue := 220; alpha := 128 |};
                           {| red := 0; green := 0; blue := 0; alpha := 255 |} ];
               draw := initial_draw_state; saved := [] |};
     ditherCanvas := Some (blank 0 0);
     algorithm := "Atkinson";
     paletteKey := "Sepia";
     ditherSize := 2;
     brightness := of_Z 10; contrast := of_Z (-20); gamma := of_Z 1; invert := true;
     threshold := of_Z 128;
     randomCalls := 0 |}.

(** The ["Random"] variant draws fresh numbers at every run, and two runs can
    paint different rasters. *)
Definition random_state : State :=
  {| originalCanvas :=
       Some {| width := 1; height := 1;
               bitmap := [ {| red := 128; green := 128; blue := 128; alpha := 255 |} ];
               draw := initial_draw_state; saved := [] |};
     ditherCanvas := Some (blank 0 0);
     algorithm := "Random";
     paletteKey := "Black & White";
     ditherSize := 1;
     brightness := of_Z 0; contrast := of_Z 0; gamma := of_Z 1; invert := false;
     threshold := of_Z 128;
     randomCalls := 0 |}.

Definition alternating (k : nat) : number :=
  if Nat.even k then Fin 0 else dec 99 100.

(** A finite binary32 value between two integers. *)
Definition f32_between (lo hi : Z) (x : number) : Prop :=
  match x with
  | Fin n => representable 24 925 n ∧ (lo * one ≤ n ≤ hi * one)%Z
  | _ => False
  end.

(** Sixteenths of its error that pixel [(x, y)] adds to the element [j] of the
    buffer. *)
Definition fs_weight (w h x y j : nat) : Z :=
  let i := y * w + x in
  if bool_decide (j = i + 1 ∧ x + 1 < w) then 7
  else if bool_decide (j = i + w - 1 ∧ y + 1 < h ∧ 0 < x) then 3
  else if bool_decide (j = i + w ∧ y + 1 < h) then 5
  else if bool_decide (j = i + w + 1 ∧ y + 1 < h ∧ x + 1 < w) then 1
  else 0.

(** Sixteenths of error that element [j] has received from the pixels visited
    before step [k]: 7 from its left neighbour, 3 from the upper right one, 5
    from the upper one and 1 from the upper left one. *)
Definition fs_received (w k j : nat) : Z :=
  ((if bool_decide (1 ≤ j `mod` w ∧ j ≤ k)%nat then 7 else 0)
   + (if bool_decide (w ≤ j ∧ j `mod` w + 1 < w ∧ j + 1 < k + w)%nat then 3 else 0)
   + (if bool_decide (w ≤ j ∧ j < k + w)%nat then 5 else 0)
   + (if bool_decide (w ≤ j ∧ 1 ≤ j `mod` w ∧ j ≤ k + w)%nat then 1 else 0))%Z.

(** State of the Floyd–Steinberg loops when the first [k] pixels of the scan
    have been visited. *)
Definition fs_after (w h : nat) (gray mask : list Z) (k : nat)
    : list number * list Z :=
  for_ k (λ i, fs_pixel w h (i `mod` w) (i `div` w)) (init_buf gray, mask).

(** Every element not yet visited is a finite binary32 value within the bounds
    given by the error it has received so far. *)
Definition fs_inv (w h k : nat) (buf : list number) : Prop :=
  length buf = w * h
  ∧ ∀ j, k ≤ j → j < w * h →
      f32_between (- 8 * fs_received w k j) (255 + 8 * fs_received w k j)
        (get_f32 buf j).

(** Number of eighths of its error that pixel [(x, y)] adds to the element [j]
    of the buffer: 1 for each of its six neighbours in bounds. *)
Definition atkinson_weight (w h x y j : nat) : Z :=
  let i := y * w + x in
  if bool_decide (j = i + 1 ∧ x + 1 < w) then 1
  else if bool_decide (j = i + 2 ∧ x + 2 < w) then 1
  else if bool_decide (j = i + w - 1 ∧ y + 1 < h ∧ 0 < x) then 1
  else if bool_decide (j = i + w ∧ y + 1 < h) then 1
  else if bool_decide (j = i + w + 1 ∧ y + 1 < h ∧ x + 1 < w) then 1
  else if bool_decide (j = i + 2 * w ∧ y + 2 < h) then 1
  else 0.

(** Eighths of error that element [j] has received from the pixels visited
    before step [k]. *)
Definition atkinson_received (w k j : nat) : Z :=
  ((if bool_decide (2 ≤ j `mod` w ∧ j ≤ k + 1)%nat then 1 else 0)
   + (if bool_decide (1 ≤ j `mod` w ∧ j ≤ k)%nat then 1 else 0)
   + (if bool_decide (w ≤ j ∧ j `mod` w + 1 < w ∧ j + 1 < k + w)%nat then 1 else 0)
   + (if bool_decide (w ≤ j ∧ j < k + w)%nat then 1 else 0)
   + (if bool_decide (w ≤ j ∧ 1 ≤ j `mod` w ∧ j ≤ k + w)%nat then 1 else 0)
   + (if bool_decide (2 * w ≤ j ∧ j < k + 2 * w)%nat then 1 else 0))%Z.

Definition atkinson_after (w h : nat) (gray mask : list Z) (k : nat)
    : list number * list Z :=
  for_ k (λ i, atkinson_pixel w h (i `mod` w) (i `div` w)) (init_buf gray, mask).

Definition atkinson_inv (w h k : nat) (buf : list number) : Prop :=
  length buf = w * h
  ∧ ∀ j, k ≤ j → j < w * h →
      f32_between (- 16 * atkinson_received w k j) (255 + 16 * atkinson_received w k j)
        (get_f32 buf j).

(** The property names that every object literal inherits: with one of them as
    key, [PALETTES[key]] is an inherited value and not [undefined]. *)
Definition Object_prototype_names : list string :=
  [ "constructor"; "hasOwnProperty"; "isPrototypeOf"; "propertyIsEnumerable";
    "toLocaleString"; "toString"; "valueOf"; "__proto__"; "__defineGetter__";
    "__defineSetter__"; "__lookupGetter__"; "__lookupSetter__" ]%string.

(** ** Resetting the editor *)

(** The component state that [clearImage] writes besides the canvases. *)
Record Editor : Type := {
  imageURL : option string;
  fileName : string;
  processing : State
}.

Definition with_canvases (st : State) (oc dc : option Canvas) : State :=
  {| originalCanvas := oc; ditherCanvas := dc;
     algorithm := algorithm st; paletteKey := paletteKey st;
     ditherSize := ditherSize st; brightness := brightness st;
     contrast := contrast st; gamma := gamma st; invert := invert st;
     threshold := threshold st; randomCalls := randomCalls st |}.

Definition clearImage (e : Editor) : Editor :=
  let st := processing e in
  let oc := (λ c, set_height (set_width c 0) 0) <$> originalCanvas st in
  let dc := (λ c, set_height (set_width c 0) 0) <$> ditherCanvas st in
  {| imageURL := None; fileName := EmptyString;
     processing := with_canvases st oc dc |}.

(** ** The working size chosen when an image has loaded *)

Definition handleLoad_size (naturalWidth naturalHeight : Z) : number * number :=
  let maxW := of_Z 900 in
  let scale :=
    if gtb (of_Z naturalWidth) maxW then div maxW (of_Z naturalWidth) else of_Z 1 in
  let w := Math_max (of_Z 1) (Math_round (mul (of_Z naturalWidth) scale)) in
  let h := Math_max (of_Z 1) (Math_round (mul (of_Z naturalHeight) scale)) in
  (w, h).

(** ** The name of the exported file *)

Fixpoint has_dot (s : string) : bool :=
  match s with
  | EmptyString => false
  | String c rest => Ascii.eqb c "."%char || has_dot rest
  end.

(** [s.replace(/\.[^.]+$/, e)] with [e] the empty string: the match starts at
    a dot that is followed, up to the end, by one or more characters none of
    which is a dot. *)
Fixpoint remove_extension (s : string) : string :=
  match s with
  | EmptyString => EmptyString
  | String c rest =>
      if Ascii.eqb c "."%char && negb (has_dot rest) && negb (String.eqb rest EmptyString)
      then EmptyString
      else String c (remove_extension rest)
  end.

(** Number of bytes of the white space character of [\s] that starts the
    string, 0 if there is none.  Strings hold the UTF-8 encoding of the text:
    the characters of [\s] are U+0009 to U+000D, U+0020, U+00A0, U+1680,
    U+2000 to U+200A, U+2028, U+2029, U+202F, U+205F, U+3000 and U+FEFF. *)
Definition space_width (s : string) : nat :=
  match s with
  | EmptyString => 0
  | String c rest =>
      let n := nat_of_ascii c in
      if ((9 <=? n) && (n <=? 13)) || (n =? 32) then 1
      else
        match rest with
        | String c1 rest1 =>
            let n1 := nat_of_ascii c1 in
            if (n =? 194) && (n1 =? 160) then 2
            else
              match rest1 with
              | String c2 _ =>
                  let n2 := nat_of_ascii c2 in
                  if (n =? 225) && (n1 =? 154) && (n2 =? 128) then 3
                  else if (n =? 226) && (n1 =? 128)
                          && (((128 <=? n2) && (n2 <=? 138)) || (n2 =? 168)
                              || (n2 =? 169) || (n2 =? 175)) then 3
                  else if (n =? 226) && (n1 =? 129) && (n2 =? 159) then 3
                  else if (n =? 227) && (n1 =? 128) && (n2 =? 128) then 3
                  else if (n =? 239) && (n1 =? 187) && (n2 =? 191) then 3
                  else 0
              | EmptyString => 0
              end
        | EmptyString => 0
        end
  end.

(** [s.replace(/\s+/g, "-")]: [skip] counts the bytes still to pass of the
    white space character being read, [in_run] tells whether the run of
    white space already has its dash. *)
Fixpoint replace_spaces (s : string) (skip : nat) (in_run : bool) : string :=
  match s with
  | EmptyString => EmptyString
  | String c rest =>
      match skip with
      | S k => replace_spaces rest k in_run
      | 0 =>
          match space_width s with
          | 0 => String c (replace_spaces rest 0 false)
          | S k =>
              if in_run then replace_spaces rest k true
              else String "-"%char (replace_spaces rest k true)
          end
      end
  end.

(** The [download] attribute that [downloadPNG] sets. *)
Definition downloadPNG_name (fileName algorithm : string) : string :=
  ((if negb (String.eqb fileName EmptyString)
    then remove_extension fileName else "dithered")
   +:+ "_" +:+ replace_spaces algorithm 0 false +:+ ".png")%string.

(** Whether no white space character of [\s] starts anywhere in the string. *)
Fixpoint no_space (s : string) : bool :=
  match s with
  | EmptyString => true
  | String c rest => (space_width s =? 0) && no_space rest
  end.

(** A finite number between two multiples of 2^-40 (bounds included). *)
Definition within (lo hi : Z) (x : number) : Prop :=
  match x with
  | Fin n => (lo * 2 ^ 1034 ≤ n ≤ hi * 2 ^ 1034)%Z
  | _ => False
  end.

(** Two finite numbers in increasing order, both between two integers. *)
Definition ascending (lo hi : Z) (x y : number) : Prop :=
  match x, y with
  | Fin n, Fin m => (lo * one ≤ n ∧ n ≤ m ∧ m ≤ hi * one)%Z
  | _, _ => False
  end.

(** Whether the three colour channels of a pixel are bytes, as in the bitmap
    of a canvas. *)
Definition byte_channels (px : Pixel) : Prop :=
  (0 ≤ red px ≤ 255 ∧ 0 ≤ green px ≤ 255 ∧ 0 ≤ blue px ≤ 255)%Z.

(** Number of foreground elements of a mask. *)
Definition foreground_count (mask : list Z) : nat :=
  length (filter (λ b, b = 1%Z) mask).

(** Number of the levels 0 .. n² - 1 of a matrix of size [n] whose threshold
    [(k + 0.5) * 255 / n²] is below the gray value [g]. *)
Definition levels_below (n : nat) (g : Z) : nat :=
  length (filter (λ k, (2 * k + 1) * 255 < g * (2 * Z.of_nat n * Z.of_nat n))%Z
                 (seqZ 0 (Z.of_nat (n * n)))).

(** * Properties

    ** Rounding *)

Module NumFacts.
Local Open Scope Z_scope.

Lemma one_pos : 0 < one.
Proof. unfold one. apply Z.pow_pos_nonneg; lia. Qed.

Lemma rne_unfold a c :
  rne a c = if 2 * (a mod c) <? c then a / c
            else if c <? 2 * (a mod c) then a / c + 1
            else if Z.even (a / c) then a / c else a / c + 1.
Proof. unfold rne, Z.div, Z.modulo. destruct (Z.div_eucl a c). reflexivity. Qed.

Lemma rne_cases a c :
  0 < c →
  (rne a c = a / c ∧ 2 * (a mod c) <= c ∧ (2 * (a mod c) = c → Z.even (a / c) = true)) ∨
  (rne a c = a / c + 1 ∧ c <= 2 * (a mod c) ∧ (2 * (a mod c) = c → Z.even (a / c) = false)).
Proof.
  intros Hc. rewrite rne_unfold.
  destruct (Z.ltb_spec (2 * (a mod c)) c); [left; lia|].
  destruct (Z.ltb_spec c (2 * (a mod c))); [right; lia|].
  destruct (Z.even (a / c)) eqn:E; [left | right]; repeat split; auto; lia.
Qed.

Lemma div_le_cross a b c d : 0 < b → 0 < d → a * d <= c * b → a / b <= c / d.
Proof.
  intros Hb Hd H.
  apply Z.div_le_lower_bound; [lia|].
  pose proof (Z.mul_div_le a b Hb).
  assert (b * (a / b) * d <= c * b) by nia.
  assert ((a / b) * d <= c) by nia. lia.
Qed.

Lemma rne_mono a b c d : 0 < b → 0 < d → a * d <= c * b → rne a b <= rne c d.
Proof.
  intros Hb Hd H.
  pose proof (div_le_cross a b c d Hb Hd H) as Hq.
  pose proof (Z.div_mod a b ltac:(lia)) as Ea.
  pose proof (Z.div_mod c d ltac:(lia)) as Ec.
  pose proof (Z.mod_pos_bound a b Hb) as Ba.
  pose proof (Z.mod_pos_bound c d Hd) as Bc.
  destruct (rne_cases a b Hb) as [(-> & A1 & A2)|(-> & A1 & A2)];
  destruct (rne_cases c d Hd) as [(-> & C1 & C2)|(-> & C1 & C2)]; try lia.
  destruct (Z.eq_dec (a / b) (c / d)) as [E|]; [|lia].
  exfalso.
  set (q := c / d) in *. set (r1 := a mod b) in *. set (r2 := c mod d) in *.
  rewrite E in *.
  assert (r1 * d <= r2 * b) by nia.
  assert (2 * r1 * d <= b * d) by nia.
  assert (2 * r1 <= b) by nia.
  assert (E1 : 2 * r1 = b) by lia.
  specialize (A2 E1).
  assert (b * d <= 2 * r2 * b) by nia.
  assert (d <= 2 * r2) by nia.
  assert (E2 : 2 * r2 = d) by lia.
  specialize (C2 E2). congruence.
Qed.

Lemma rne_exact q c : 0 < c → rne (q * c) c = q.
Proof.
  intros Hc. rewrite rne_unfold, Z.mod_mul, Z.div_mul by lia.
  destruct (Z.ltb_spec (2 * 0) c); [reflexivity | lia].
Qed.

Lemma rne_scale a c k : 0 < c → 0 < k → rne (a * k) (c * k) = rne a c.
Proof.
  intros Hc Hk. rewrite !rne_unfold.
  rewrite Z.div_mul_cancel_r by lia.
  rewrite Z.mul_mod_distr_r by lia.
  replace (2 * (a mod c * k)) with ((2 * (a mod c)) * k) by ring.
  destruct (Z.ltb_spec (2 * (a mod c)) c), (Z.ltb_spec (2 * (a mod c) * k) (c * k)); try nia; try reflexivity.
  destruct (Z.ltb_spec c (2 * (a mod c))), (Z.ltb_spec (c * k) (2 * (a mod c) * k)); try nia; reflexivity.
Qed.

Lemma rne_le_int a c m : 0 < c → a <= m * c → rne a c <= m.
Proof.
  intros Hc H. rewrite <- (rne_exact m c Hc). apply rne_mono; nia.
Qed.

Lemma rne_ge_int a c m : 0 < c → m * c <= a → m <= rne a c.
Proof.
  intros Hc H. rewrite <- (rne_exact m c Hc). apply rne_mono; nia.
Qed.

(** digits *)
Lemma digits_0 : digits 0 = 0.
Proof. reflexivity. Qed.

Lemma digits_pos n : 0 < n → 2 ^ (digits n - 1) <= n < 2 ^ digits n ∧ 0 < digits n.
Proof.
  intros Hn. unfold digits. destruct (Z.eqb_spec n 0); [lia|].
  pose proof (Z.log2_spec n Hn). pose proof (Z.log2_nonneg n).
  replace (Z.log2 n + 1 - 1) with (Z.log2 n) by lia.
  replace (Z.log2 n + 1) with (Z.succ (Z.log2 n)) by lia. lia.
Qed.

Lemma digits_nonneg n : 0 <= digits n.
Proof.
  unfold digits. destruct (Z.eqb_spec n 0); [lia|]. pose proof (Z.log2_nonneg n). lia.
Qed.

Lemma digits_mono m n : 0 <= m <= n → digits m <= digits n.
Proof.
  intros H. unfold digits.
  destruct (Z.eqb_spec m 0), (Z.eqb_spec n 0); try lia.
  - pose proof (Z.log2_nonneg n). lia.
  - pose proof (Z.log2_le_mono m n). lia.
Qed.

Lemma digits_lt_pow n e : 0 <= n < 2 ^ e → 0 <= e → digits n <= e.
Proof.
  intros [H0 H] He. destruct (Z.eq_dec n 0) as [->|]; [rewrite digits_0; lia|].
  unfold digits. destruct (Z.eqb_spec n 0); [lia|].
  assert (Z.log2 n < e) by (apply Z.log2_lt_pow2; lia). lia.
Qed.

Lemma digits_ge_pow n e : 0 <= e → 2 ^ e <= n → e + 1 <= digits n.
Proof.
  intros He H. assert (0 < n) by (pose proof (Z.pow_pos_nonneg 2 e); lia).
  unfold digits. destruct (Z.eqb_spec n 0); [lia|].
  assert (e <= Z.log2 n) by (apply Z.log2_le_pow2; lia). lia.
Qed.

(** trailing zeros and [reduce] *)
Lemma ctz_pos_nonneg p : 0 <= ctz_pos p.
Proof. induction p; simpl; lia. Qed.

Lemma ctz_pos_divide p : (2 ^ ctz_pos p | Z.pos p).
Proof.
  induction p as [p IH|p IH|]; simpl ctz_pos.
  - apply Z.divide_1_l.
  - pose proof (ctz_pos_nonneg p). rewrite Z.pow_succ_r by lia.
    destruct IH as [q Hq]. exists q. rewrite Pos2Z.inj_xO, Hq. ring.
  - apply Z.divide_1_l.
Qed.

Lemma ctz_nonneg n : 0 <= ctz n.
Proof. destruct n; simpl; try lia; apply ctz_pos_nonneg. Qed.

Lemma ctz_divide n : (2 ^ ctz n | n).
Proof.
  destruct n as [|p|p]; simpl.
  - apply Z.divide_0_r.
  - apply ctz_pos_divide.
  - rewrite <- Pos2Z.opp_pos. apply Z.divide_opp_r, ctz_pos_divide.
Qed.

Lemma pow2_divide_le g e n : 0 <= g <= e → (2 ^ e | n) → (2 ^ g | n).
Proof.
  intros Hg [q Hq]. exists (q * 2 ^ (e - g)).
  rewrite Hq, <- Z.mul_assoc, <- Z.pow_add_r by lia. f_equal. f_equal. lia.
Qed.

Lemma divide_div_mul a d : 0 < d → (d | a) → a = a / d * d.
Proof. intros Hd [q ->]. rewrite Z.div_mul; lia. Qed.

Lemma reduce_spec a b a' b' :
  reduce a b = (a', b') →
  ∃ g, 0 <= g ∧ a = a' * 2 ^ g ∧ b = b' * 2 ^ g.
Proof.
  unfold reduce. intros [= <- <-].
  pose proof (ctz_nonneg a). pose proof (ctz_nonneg b).
  set (g := Z.min (ctz a) (ctz b)). exists g.
  assert (Hg : 0 <= g) by lia. split; [exact Hg|].
  rewrite !Z.shiftr_div_pow2 by lia.
  assert (0 < 2 ^ g) by (apply Z.pow_pos_nonneg; lia).
  split; apply divide_div_mul; try lia.
  - apply (pow2_divide_le g (ctz a)); [lia | apply ctz_divide].
  - apply (pow2_divide_le g (ctz b)); [lia | apply ctz_divide].
Qed.


Lemma grid_ge_sub prec sub a b : sub <= grid prec sub a b.
Proof. unfold grid. lia. Qed.

Lemma round_mag_nearest prec sub a b :
  0 <= sub → 0 < b → round_mag prec sub a b = nearest prec sub a b.
Proof.
  intros Hs Hb. unfold round_mag, nearest.
  destruct (reduce a b) as [a1 b1] eqn:E1.
  destruct (reduce_spec _ _ _ _ E1) as (g & Hg & -> & ->).
  assert (0 < 2 ^ g) by (apply Z.pow_pos_nonneg; lia).
  assert (Hb1 : 0 < b1) by nia.
  assert (Ek : grid prec sub (a1 * 2 ^ g) (b1 * 2 ^ g) = grid prec sub a1 b1).
  { unfold grid. rewrite Z.div_mul_cancel_r by lia. reflexivity. }
  rewrite Ek. set (k := grid prec sub a1 b1).
  assert (Hk : 0 <= k) by (pose proof (grid_ge_sub prec sub a1 b1); lia).
  assert (0 < 2 ^ k) by (apply Z.pow_pos_nonneg; lia).
  destruct (reduce a1 (b1 * 2 ^ k)) as [a2 c2] eqn:E2.
  destruct (reduce_spec _ _ _ _ E2) as (g2 & Hg2 & Ea & Ec).
  assert (0 < 2 ^ g2) by (apply Z.pow_pos_nonneg; lia).
  assert (0 < c2) by nia.
  f_equal.
  replace (b1 * 2 ^ g * 2 ^ k) with ((b1 * 2 ^ k) * 2 ^ g) by ring.
  rewrite rne_scale by nia.
  rewrite Ea, Ec. rewrite rne_scale by lia. reflexivity.
Qed.

Lemma pow2_pos e : 0 <= e → 0 < 2 ^ e.
Proof. intros. apply Z.pow_pos_nonneg; lia. Qed.

Lemma pow2_le e f : 0 <= e <= f → 2 ^ e <= 2 ^ f.
Proof. intros. apply Z.pow_le_mono_r; lia. Qed.

Lemma pow2_split e f : 0 <= e → 0 <= f → 2 ^ (e + f) = 2 ^ e * 2 ^ f.
Proof. intros. apply Z.pow_add_r; lia. Qed.

Lemma digits_upper n : 0 <= n → n < 2 ^ digits n.
Proof.
  intros Hn. destruct (Z.eq_dec n 0) as [->|]; [reflexivity|].
  apply digits_pos. lia.
Qed.

Lemma nearest_nonneg prec sub a b :
  0 <= sub → 0 <= a → 0 < b → 0 <= nearest prec sub a b.
Proof.
  intros Hs Ha Hb. unfold nearest.
  pose proof (grid_ge_sub prec sub a b).
  pose proof (pow2_pos (grid prec sub a b) ltac:(lia)).
  apply Z.mul_nonneg_nonneg; [|lia].
  apply rne_ge_int; nia.
Qed.

Lemma nearest_mono prec sub a b c d :
  0 < prec → 0 <= sub → 0 <= a → 0 < b → 0 < d → a * d <= c * b →
  nearest prec sub a b <= nearest prec sub c d.
Proof.
  intros Hp Hs Ha Hb Hd H.
  pose proof (div_le_cross a b c d Hb Hd H) as Hq.
  assert (Hqx : 0 <= a / b) by (apply Z.div_pos; lia).
  pose proof (digits_mono (a / b) (c / d) ltac:(lia)) as Hdig.
  unfold nearest, grid.
  remember (digits (a / b)) as dx eqn:Edx.
  remember (digits (c / d)) as dy eqn:Edy.
  set (kx := Z.max sub (dx - prec)). set (ky := Z.max sub (dy - prec)).
  assert (Hkx : sub <= kx) by lia.
  assert (Hk : kx <= ky) by lia.
  pose proof (pow2_pos kx ltac:(lia)) as Px.
  pose proof (pow2_pos ky ltac:(lia)) as Py.
  destruct (Z.eq_dec kx ky) as [E|NE].
  - rewrite <- E. apply Z.mul_le_mono_nonneg_r; [lia|].
    apply rne_mono; nia.
  - assert (Eky : ky = dy - prec) by lia.
    assert (Hdx : dx - prec <= kx) by lia.
    assert (Hdxy : dx <= dy - 1) by lia.
    pose proof (digits_nonneg (a / b)) as Hdx0. rewrite <- Edx in Hdx0.
    assert (Hqy : 0 < c / d).
    { destruct (Z.eq_dec (c / d) 0) as [E0|]; [|lia].
      rewrite E0, digits_0 in Edy. lia. }
    destruct (digits_pos (c / d) Hqy) as [[Hlo _] _]. rewrite <- Edy in Hlo.
    pose proof (Z.mul_div_le c d Hd) as Hcd.
    (* lower bound of the larger one *)
    assert (L : 2 ^ (dy - 1) <= rne c (d * 2 ^ ky) * 2 ^ ky).
    { replace (dy - 1) with ((prec - 1) + ky) by lia.
      rewrite pow2_split by lia.
      apply Z.mul_le_mono_nonneg_r; [lia|].
      apply rne_ge_int; [nia|].
      assert (2 ^ (prec - 1) * 2 ^ ky = 2 ^ (dy - 1)).
      { rewrite <- pow2_split by lia. f_equal. lia. }
      nia. }
    (* upper bound of the smaller one *)
    pose proof (digits_upper (a / b) Hqx) as Hup. rewrite <- Edx in Hup.
    pose proof (Z.mod_pos_bound a b Hb) as Hm.
    pose proof (Z.div_mod a b ltac:(lia)) as Ea.
    assert (Hab : a <= 2 ^ dx * b) by nia.
    assert (U : rne a (b * 2 ^ kx) * 2 ^ kx <= 2 ^ (dy - 1)).
    { destruct (Z_le_gt_dec kx dx) as [Hc|Hc].
      - transitivity (2 ^ dx); [|apply pow2_le; lia].
        replace (2 ^ dx) with (2 ^ (dx - kx) * 2 ^ kx)
          by (rewrite <- pow2_split by lia; f_equal; lia).
        apply Z.mul_le_mono_nonneg_r; [lia|].
        apply rne_le_int; [nia|].
        assert (2 ^ (dx - kx) * 2 ^ kx = 2 ^ dx).
        { rewrite <- pow2_split by lia. f_equal. lia. }
        nia.
      - transitivity (2 ^ kx); [|apply pow2_le; lia].
        transitivity (1 * 2 ^ kx); [|lia].
        apply Z.mul_le_mono_nonneg_r; [lia|].
        apply rne_le_int; [nia|].
        pose proof (pow2_le dx kx ltac:(lia)). nia. }
    lia.
Qed.

Lemma round_to_mono prec sub a b c d :
  0 < prec → 0 <= sub → 0 < b → 0 < d → a * d <= c * b →
  round_to prec sub a b <= round_to prec sub c d.
Proof.
  intros Hp Hs Hb Hd H. unfold round_to.
  rewrite !round_mag_nearest by lia.
  pose proof (nearest_nonneg prec sub (Z.abs a) b Hs ltac:(lia) Hb).
  pose proof (nearest_nonneg prec sub (Z.abs c) d Hs ltac:(lia) Hd).
  destruct (Z.sgn_spec a) as [[Ha ->]|[[Ha ->]|[Ha ->]]];
  destruct (Z.sgn_spec c) as [[Hc ->]|[[Hc ->]|[Hc ->]]]; try nia.
  - rewrite !Z.mul_1_l. apply nearest_mono; lia.
  - assert (nearest prec sub (Z.abs c) d <= nearest prec sub (Z.abs a) b); [|lia].
    apply nearest_mono; lia.
Qed.


Lemma round_to_le prec sub a b hi :
  0 < prec → 0 <= sub → 0 < b → representable prec sub hi → a <= hi * b →
  round_to prec sub a b <= hi.
Proof.
  intros Hp Hs Hb Hr H. unfold representable in Hr.
  transitivity (round_to prec sub hi 1); [apply round_to_mono; lia | lia].
Qed.

Lemma round_to_ge prec sub a b lo :
  0 < prec → 0 <= sub → 0 < b → representable prec sub lo → lo * b <= a →
  lo <= round_to prec sub a b.
Proof.
  intros Hp Hs Hb Hr H. unfold representable in Hr.
  transitivity (round_to prec sub lo 1); [lia | apply round_to_mono; lia].
Qed.

Lemma round_to_exact prec sub n b :
  0 < prec → 0 <= sub → 0 < b → representable prec sub n →
  round_to prec sub (n * b) b = n.
Proof.
  intros Hp Hs Hb Hr. apply Z.le_antisymm.
  - apply round_to_le; auto; lia.
  - apply round_to_ge; auto; lia.
Qed.

Lemma representable_intro prec sub m j :
  0 < prec → 0 <= sub → sub <= j → Z.abs m < 2 ^ prec →
  representable prec sub (m * 2 ^ j).
Proof.
  intros Hp Hs Hj Hm. unfold representable, round_to.
  rewrite round_mag_nearest by lia. unfold nearest.
  pose proof (pow2_pos j ltac:(lia)) as Pj.
  rewrite Z.abs_mul, (Z.abs_eq (2 ^ j)) by lia.
  set (k := grid prec sub (Z.abs m * 2 ^ j) 1).
  assert (Hk : sub <= k <= j).
  { split; [apply grid_ge_sub|]. unfold k, grid. rewrite Z.div_1_r.
    assert (digits (Z.abs m * 2 ^ j) <= prec + j); [|lia].
    apply digits_lt_pow; [|lia]. rewrite pow2_split by lia. nia. }
  pose proof (pow2_pos k ltac:(lia)) as Pk.
  replace (Z.abs m * 2 ^ j) with ((Z.abs m * 2 ^ (j - k)) * (1 * 2 ^ k)).
  2:{ rewrite Z.mul_1_l, <- Z.mul_assoc, <- pow2_split by lia. do 2 f_equal. lia. }
  rewrite rne_exact by lia.
  rewrite <- Z.mul_assoc, <- pow2_split by lia.
  replace (j - k + k) with j by lia.
  rewrite Z.sgn_mul, (Z.sgn_pos (2 ^ j)) by lia.
  rewrite Z.mul_1_r, Z.mul_assoc, (Z.mul_comm (Z.sgn m)), Z.abs_sgn. reflexivity.
Qed.

Lemma representable_divide prec sub n e :
  0 <= sub → 0 <= e → representable prec sub n → 2 ^ e <= Z.abs n →
  (2 ^ Z.max sub (e + 1 - prec) | n).
Proof.
  intros Hs He Hr Hn. unfold representable, round_to in Hr.
  rewrite round_mag_nearest in Hr by lia. unfold nearest in Hr.
  set (k := grid prec sub (Z.abs n) 1) in *.
  assert (Hk : Z.max sub (e + 1 - prec) <= k).
  { unfold k, grid. rewrite Z.div_1_r.
    pose proof (digits_ge_pow (Z.abs n) e He Hn). lia. }
  apply (pow2_divide_le _ k); [lia|].
  rewrite <- Hr. rewrite Z.mul_assoc. apply Z.divide_factor_r.
Qed.

(** ** The operations on finite numbers *)

Lemma finish_fin top n : Z.abs n < 2 ^ top → finish top n = Fin n.
Proof.
  intros H. unfold finish. destruct (Z.leb_spec (2 ^ top) (Z.abs n)); [lia | reflexivity].
Qed.

Lemma one_eq : one = 2 ^ 1074.
Proof. reflexivity. Qed.

Lemma int_representable prec sub z :
  0 < prec → 0 <= sub <= 1074 → Z.abs z < 2 ^ prec → representable prec sub (z * one).
Proof. intros. rewrite one_eq. apply representable_intro; lia. Qed.

Lemma representable_0 prec sub : representable prec sub 0.
Proof. reflexivity. Qed.

Lemma representable_opp prec sub n :
  representable prec sub n → representable prec sub (- n).
Proof.
  unfold representable, round_to. intros H.
  rewrite Z.sgn_opp, Z.abs_opp. lia.
Qed.

Lemma nearest_mantissa prec sub a b :
  0 < prec → 0 <= sub → 0 <= a → 0 < b →
  0 <= rne a (b * 2 ^ grid prec sub a b) <= 2 ^ prec.
Proof.
  intros Hp Hs Ha Hb.
  pose proof (grid_ge_sub prec sub a b) as Hk.
  assert (Hk' : digits (a / b) - prec <= grid prec sub a b) by (unfold grid; lia).
  set (k := grid prec sub a b) in *.
  pose proof (pow2_pos k ltac:(lia)) as Pk.
  split; [apply rne_ge_int; nia|].
  assert (Hq : 0 <= a / b) by (apply Z.div_pos; lia).
  pose proof (digits_upper (a / b) Hq) as Hup.
  pose proof (digits_nonneg (a / b)) as Hd0.
  set (dx := digits (a / b)) in *.
  pose proof (Z.mod_pos_bound a b Hb) as Hm.
  pose proof (Z.div_mod a b ltac:(lia)) as Ea.
  assert (Hab : a <= 2 ^ dx * b) by nia.
  destruct (Z_le_gt_dec k dx) as [Hc|Hc].
  - transitivity (2 ^ (dx - k)); [|apply pow2_le; lia].
    apply rne_le_int; [nia|].
    assert (2 ^ (dx - k) * 2 ^ k = 2 ^ dx)
      by (rewrite <- pow2_split by lia; f_equal; lia).
    nia.
  - transitivity 1; [|pose proof (pow2_pos prec ltac:(lia)); lia].
    apply rne_le_int; [nia|].
    pose proof (pow2_le dx k ltac:(lia)). nia.
Qed.

Lemma round_to_idempotent prec sub a b :
  0 < prec → 0 <= sub → 0 < b → representable prec sub (round_to prec sub a b).
Proof.
  intros Hp Hs Hb. unfold round_to at 1.
  rewrite round_mag_nearest by lia. unfold nearest.
  destruct (nearest_mantissa prec sub (Z.abs a) b Hp Hs ltac:(lia) Hb) as [H0 H1].
  pose proof (grid_ge_sub prec sub (Z.abs a) b) as Hk.
  set (k := grid prec sub (Z.abs a) b) in *.
  set (q := rne (Z.abs a) (b * 2 ^ k)) in *.
  rewrite Z.mul_assoc.
  destruct (Z.eq_dec q (2 ^ prec)) as [E|NE].
  - rewrite E.
    replace (Z.sgn a * 2 ^ prec * 2 ^ k) with ((Z.sgn a * 2 ^ (prec - 1)) * 2 ^ (k + 1)).
    + apply representable_intro; try lia.
      rewrite Z.abs_mul.
      pose proof (pow2_pos (prec - 1) ltac:(lia)).
      assert (2 ^ (prec - 1) < 2 ^ prec) by (apply Z.pow_lt_mono_r; lia).
      rewrite (Z.abs_eq (2 ^ (prec - 1))) by lia.
      destruct (Z.sgn_spec a) as [[_ ->]|[[_ ->]|[_ ->]]]; simpl Z.abs; lia.
    + rewrite (pow2_split k 1) by lia.
      replace (2 ^ prec) with (2 ^ (prec - 1) * 2 ^ 1)
        by (rewrite <- pow2_split by lia; f_equal; lia).
      ring.
  - apply representable_intro; lia.
Qed.

Lemma round64_between a b lo hi :
  0 < b → representable 53 0 lo → representable 53 0 hi →
  Z.abs lo < 2 ^ 2098 → Z.abs hi < 2 ^ 2098 →
  lo * b <= a <= hi * b →
  ∃ n, round64 a b = Fin n ∧ lo <= n <= hi.
Proof.
  intros Hb Rl Rh Bl Bh [H1 H2].
  pose proof (round_to_ge 53 0 a b lo ltac:(lia) ltac:(lia) Hb Rl H1).
  pose proof (round_to_le 53 0 a b hi ltac:(lia) ltac:(lia) Hb Rh H2).
  exists (round_to 53 0 a b). split; [|lia].
  apply finish_fin. lia.
Qed.

Lemma round64_exact n b :
  0 < b → representable 53 0 n → Z.abs n < 2 ^ 2098 → round64 (n * b) b = Fin n.
Proof.
  intros Hb Hr Hn. unfold round64.
  rewrite round_to_exact by (auto; lia). apply finish_fin, Hn.
Qed.

Lemma round32_between a lo hi :
  representable 24 925 lo → representable 24 925 hi →
  Z.abs lo < 2 ^ 1202 → Z.abs hi < 2 ^ 1202 →
  lo <= a <= hi →
  ∃ n, round32 a = Fin n ∧ lo <= n <= hi ∧ representable 24 925 n.
Proof.
  intros Rl Rh Bl Bh [H1 H2].
  pose proof (round_to_ge 24 925 a 1 lo ltac:(lia) ltac:(lia) ltac:(lia) Rl ltac:(lia)).
  pose proof (round_to_le 24 925 a 1 hi ltac:(lia) ltac:(lia) ltac:(lia) Rh ltac:(lia)).
  exists (round_to 24 925 a 1). split; [apply finish_fin; lia|]. split; [lia|].
  apply round_to_idempotent; lia.
Qed.

Lemma round32_exact n :
  representable 24 925 n → Z.abs n < 2 ^ 1202 → round32 n = Fin n.
Proof.
  intros Hr Hn. unfold round32. rewrite Hr. apply finish_fin, Hn.
Qed.

Lemma of_Z_exact z : Z.abs z < 2 ^ 53 → of_Z z = Fin (z * one).
Proof.
  intros Hz. unfold of_Z.
  rewrite <- (Z.mul_1_r (z * one)) at 1.
  apply round64_exact; [lia | apply int_representable; lia |].
  rewrite one_eq. lia.
Qed.

Lemma of_Z_0 : of_Z 0 = Fin 0.
Proof. apply of_Z_exact. simpl. lia. Qed.

Lemma of_Z_1 : of_Z 1 = Fin one.
Proof. rewrite of_Z_exact by (simpl; lia). rewrite Z.mul_1_l. reflexivity. Qed.

Lemma of_Z_byte g : 0 <= g <= 255 → of_Z g = Fin (g * one).
Proof. intros. apply of_Z_exact. lia. Qed.

Lemma half_exact : dec 5 10 = Fin (2 ^ 1073).
Proof. vm_compute. reflexivity. Qed.

Lemma leb_fin a b : leb (Fin a) (Fin b) = (a <=? b).
Proof.
  unfold leb, ltb, eqb.
  destruct (Z.ltb_spec a b), (Z.eqb_spec a b), (Z.leb_spec a b); simpl; lia || reflexivity.
Qed.

Lemma between_fin lo hi x : between lo hi x → ∃ n, x = Fin n ∧ lo * one <= n <= hi * one.
Proof. destruct x; simpl; try tauto. eauto. Qed.

End NumFacts.

Import NumFacts.

(** ** Loops and typed arrays *)

Lemma for_0 {St : Type} (body : nat → St → St) (s : St) : for_ 0 body s = s.
Proof. reflexivity. Qed.

Lemma for_S {St : Type} (n : nat) (body : nat → St → St) (s : St) :
  for_ (S n) body s = body n (for_ n body s).
Proof. unfold for_. rewrite seq_S, foldl_snoc. reflexivity. Qed.

Lemma for_ind {St : Type} (P : nat → St → Prop) (n : nat) (body : nat → St → St) (s : St) :
  P 0 s →
  (∀ i s, i < n → P i s → P (S i) (body i s)) →
  P n (for_ n body s).
Proof.
  intros H0 Hstep. induction n as [|n IH]; [exact H0|].
  rewrite for_S. apply Hstep; [lia|]. apply IH. intros; apply Hstep; auto; lia.
Qed.

(** A loop that stores [f p] at every index [p] below [n]. *)
Lemma fill_length {A : Type} (f : nat → A) (n : nat) (m : list A) :
  length (for_ n (λ p m, <[p := f p]> m) m) = length m.
Proof.
  apply (for_ind (λ _ r, length r = length m)); [reflexivity|].
  intros i r _ Hr. rewrite length_insert. exact Hr.
Qed.

Lemma fill_lookup {A : Type} (f : nat → A) (n : nat) (m : list A) (p : nat) :
  p < length m →
  for_ n (λ p m, <[p := f p]> m) m !! p = if decide (p < n) then Some (f p) else m !! p.
Proof.
  intros Hp. induction n as [|n IH].
  - rewrite for_0. destruct (decide (p < 0)); [lia | reflexivity].
  - rewrite for_S.
    destruct (decide (p = n)) as [->|Hne].
    + rewrite list_lookup_insert_eq by (rewrite fill_length; lia).
      destruct (decide (n < S n)); [reflexivity | lia].
    + rewrite list_lookup_insert_ne by auto. rewrite IH.
      destruct (decide (p < n)), (decide (p < S n)); try lia; reflexivity.
Qed.

Lemma fill_Forall {A : Type} (P : A → Prop) (f : nat → A) (n : nat) (m : list A) :
  Forall P m → (∀ p, P (f p)) → Forall P (for_ n (λ p m, <[p := f p]> m) m).
Proof.
  intros Hm Hf. apply (for_ind (λ _ r, Forall P r)); [exact Hm|].
  intros i r _ Hr. apply Forall_insert; auto.
Qed.

(** ** Tonal transform: the pipeline *)

Ltac zcases :=
  repeat match goal with
         | |- context [(?a <? ?b)%Z] => destruct (Z.ltb_spec a b)
         end;
  try reflexivity; try lia; try (f_equal; lia).

Lemma clamp01_spec_clamp (x : number) : clamp01 x = spec_clamp x.
Proof.
  unfold clamp01, spec_clamp. rewrite of_Z_0, of_Z_1.
  pose proof one_pos.
  destruct x as [| [|] | n]; unfold Math_min, Math_max, ltb; simpl; zcases.
Qed.

Lemma tonal_stages (Math_pow : number → number → number)
    (brightness contrast gamma : number) (invert : bool) (v : number) :
  applyTonalAdjustments Math_pow brightness contrast gamma invert v =
  spec_tonal Math_pow brightness contrast gamma invert v.
Proof.
  unfold applyTonalAdjustments, spec_tonal, spec_invert, spec_gamma, spec_contrast,
    spec_brightness, spec_normalize, gtb.
  destruct (eqb contrast (of_Z 0)); cbv zeta; simpl negb; cbv iota;
    rewrite clamp01_spec_clamp; reflexivity.
Qed.

(** C4. [applyTonalAdjustments] is the pipeline of the specification, stage by
    stage and in its order: normalise, add brightness (unclamped), contrast
    about the midpoint only when contrast is not 0, clamp to [0,1] and raise
    to the power 1/gamma only when gamma is positive and not 1, invert, and
    round the value times 255. *)
Theorem applyTonalAdjustments_pipeline
    (Math_pow : number → number → number)
    (brightness contrast gamma : number) (invert : bool) (v : number) :
  applyTonalAdjustments Math_pow brightness contrast gamma invert v =
  spec_tonal Math_pow brightness contrast gamma invert v.
Proof.
  apply tonal_stages.
Qed.

(** ** Threshold variant *)

Lemma threshold_clamp_fin (t : Z) :
  Math_max (of_Z 0) (Math_min (of_Z 255) (Fin t)) = Fin (Z.max 0 (Z.min (255 * one) t)).
Proof.
  rewrite of_Z_0, (of_Z_byte 255) by lia.
  pose proof one_pos. unfold Math_min, Math_max, ltb.
  zcases.
Qed.

(** C5. Threshold variant: the mask has a 1 at [p] exactly when
    [gray[p] >= T], with [T] the threshold clamped to [0, 255]; a threshold of 0
    gives a mask of ones, and the 2x2 image [10, 200, 10, 200] with threshold 128
    gives [0, 1, 0, 1]. *)
Theorem threshold_variant (threshold : number) (gray : list Z) :
  Forall (λ g, 0 ≤ g ≤ 255)%Z gray →
  let T := Math_max (of_Z 0) (Math_min (of_Z 255) threshold) in
  let mask := threshold_dither threshold gray (replicate (length gray) 0%Z) in
  length mask = length gray
  ∧ (∀ p g, gray !! p = Some g → mask !! p = Some (bit (geb (of_Z g) T)))
  ∧ (∀ t, threshold = Fin t →
       T = Fin (Z.max 0 (Z.min (255 * one) t))
       ∧ ∀ p g, gray !! p = Some g →
           (mask !! p = Some 1%Z ↔ (Z.max 0 (Z.min (255 * one) t) ≤ g * one)%Z)
           ∧ (mask !! p = Some 0%Z ↔ (g * one < Z.max 0 (Z.min (255 * one) t))%Z))
  ∧ (threshold = of_Z 0 → mask = replicate (length gray) 1%Z)
  ∧ threshold_dither (of_Z 128) [10; 200; 10; 200]%Z (replicate 4 0%Z) = [0; 1; 0; 1]%Z.
Proof.
  intros Hbytes T mask.
  assert (Hlen : length mask = length gray).
  { unfold mask, threshold_dither. rewrite fill_length, length_replicate. reflexivity. }
  assert (Hlook : ∀ p g, gray !! p = Some g → mask !! p = Some (bit (geb (of_Z g) T))).
  { intros p g Hg. unfold mask, threshold_dither.
    pose proof (lookup_lt_Some _ _ _ Hg) as Hp.
    rewrite fill_lookup by (rewrite length_replicate; exact Hp).
    destruct (decide (p < length gray)); [|lia].
    unfold get_byte. rewrite Hg. reflexivity. }
  split; [exact Hlen|]. split; [exact Hlook|]. split; [|split].
  - intros t ->. split; [apply threshold_clamp_fin|].
    intros p g Hg. rewrite (Hlook p g Hg). unfold T.
    rewrite threshold_clamp_fin.
    rewrite Forall_lookup in Hbytes. specialize (Hbytes p g Hg).
    rewrite of_Z_byte by exact Hbytes.
    unfold geb. rewrite leb_fin.
    destruct (Z.leb_spec (Z.max 0 (Z.min (255 * one) t)) (g * one)); simpl;
      split; split; intros; try lia; try congruence; reflexivity.
  - intros ->. apply list_eq. intros p.
    destruct (gray !! p) as [g|] eqn:Hg.
    + rewrite (Hlook p g Hg). unfold T.
      rewrite of_Z_0, threshold_clamp_fin.
      rewrite Forall_lookup in Hbytes. specialize (Hbytes p g Hg).
      rewrite of_Z_byte by exact Hbytes.
      unfold geb. rewrite leb_fin.
      pose proof one_pos.
      destruct (Z.leb_spec (Z.max 0 (Z.min (255 * one) 0)) (g * one)); [|nia].
      simpl. symmetry. apply lookup_replicate_2.
      apply lookup_lt_Some in Hg. exact Hg.
    + apply lookup_ge_None in Hg.
      rewrite !(proj2 (lookup_ge_None _ _)); [reflexivity | rewrite length_replicate; lia | lia].
  - vm_compute. reflexivity.
Qed.

Lemma threshold_variant_witness :
  length (threshold_dither (of_Z 128) [10; 200]%Z (replicate 2 0%Z)) = 2.
Proof.
  apply (threshold_variant (of_Z 128) [10; 200]%Z).
  repeat constructor; lia.
Defined.

(** ** Nested loops in row-major order *)

Lemma for_add {St : Type} (n m : nat) (body : nat → St → St) (s : St) :
  for_ (n + m) body s = for_ m (λ i, body (n + i)) (for_ n body s).
Proof.
  induction m as [|m IH].
  - rewrite Nat.add_0_r. reflexivity.
  - rewrite Nat.add_succ_r, !for_S, IH. reflexivity.
Qed.

Lemma for_ext {St : Type} (n : nat) (body body' : nat → St → St) (s : St) :
  (∀ i s, i < n → body i s = body' i s) → for_ n body s = for_ n body' s.
Proof.
  intros H. induction n as [|n IH]; [reflexivity|].
  rewrite !for_S, IH by (intros; apply H; lia). apply H. lia.
Qed.

(** The two nested loops over [y] and [x] visit the pixels in the order of
    their index [y * w + x]. *)
Lemma for_nested_flat {St : Type} (w h : nat) (f : nat → nat → St → St) (s : St) :
  for_ h (λ y, for_ w (λ x, f x y)) s =
  for_ (h * w) (λ k, f (k `mod` w) (k `div` w)) s.
Proof.
  induction h as [|h IH]; [reflexivity|].
  rewrite for_S, IH. simpl Nat.mul. rewrite (Nat.add_comm w), for_add.
  apply for_ext. intros x s' Hx. f_equal.
  - rewrite Nat.add_comm, Nat.Div0.mod_add. symmetry. apply Nat.mod_small, Hx.
  - rewrite Nat.add_comm, Nat.div_add by lia. rewrite Nat.div_small by exact Hx. reflexivity.
Qed.

Lemma index_decompose (w k : nat) : (k `div` w) * w + k `mod` w = k.
Proof. pose proof (Nat.div_mod_eq k w). lia. Qed.

Lemma index_mod (w x y : nat) : x < w → (y * w + x) `mod` w = x.
Proof.
  intros. rewrite Nat.add_comm, Nat.Div0.mod_add. apply Nat.mod_small. lia.
Qed.

Lemma index_div (w x y : nat) : x < w → (y * w + x) `div` w = y.
Proof.
  intros. rewrite Nat.add_comm, Nat.div_add by lia. rewrite Nat.div_small by lia. reflexivity.
Qed.

Lemma index_lt (w h x y : nat) : x < w → y < h → y * w + x < h * w.
Proof. intros. nia. Qed.

(** ** Mask invariant *)

Lemma bit_01 (b : bool) : (bit b = 0 ∨ bit b = 1)%Z.
Proof. destruct b; simpl; auto. Qed.

Lemma is_mask_zeros (n : nat) : is_mask n (replicate n 0%Z).
Proof.
  split; [apply length_replicate|]. apply Forall_replicate. auto.
Qed.

Lemma is_mask_insert (n i : nat) (b : bool) (mask : list Z) :
  is_mask n mask → is_mask n (<[i := bit b]> mask).
Proof.
  intros [Hl Hf]. split; [rewrite length_insert; exact Hl|].
  apply Forall_insert; [exact Hf | apply bit_01].
Qed.

Lemma threshold_dither_is_mask (n : nat) (threshold : number) (gray mask : list Z) :
  is_mask n mask → is_mask n (threshold_dither threshold gray mask).
Proof.
  intros H. unfold threshold_dither.
  apply (for_ind (λ _ m, is_mask n m)); [exact H|].
  intros. apply is_mask_insert. auto.
Qed.

Lemma random_dither_is_mask (Math_random : nat → number) (n : nat)
    (gray mask : list Z) (calls : nat) :
  is_mask n mask → is_mask n (random_dither Math_random gray (mask, calls)).1.
Proof.
  intros H. unfold random_dither.
  apply (for_ind (λ _ (st : list Z * nat), is_mask n st.1)); [exact H|].
  intros i [m c] _ Hm. simpl. apply is_mask_insert. exact Hm.
Qed.

Lemma ordered_dither_is_mask (n : nat) (m : list (list Z)) (w h : nat)
    (gray mask : list Z) :
  is_mask n mask → is_mask n (ordered_dither m w h gray mask).
Proof.
  intros H. unfold ordered_dither.
  apply (for_ind (λ _ r, is_mask n r)); [exact H|].
  intros y r _ Hr.
  apply (for_ind (λ _ r, is_mask n r)); [exact Hr|].
  intros. apply is_mask_insert. auto.
Qed.

Lemma fs_pixel_mask (w h x y : nat) (st : list number * list Z) :
  (fs_pixel w h x y st).2 =
  <[y * w + x := bit (quantize (get_f32 st.1 (y * w + x)) =? 255)%Z]> st.2.
Proof.
  destruct st as [buf mask]. unfold fs_pixel. simpl.
  destruct (y + 1 <? h); reflexivity.
Qed.

Lemma atkinson_pixel_mask (w h x y : nat) (st : list number * list Z) :
  (atkinson_pixel w h x y st).2 =
  <[y * w + x := bit (quantize (get_f32 st.1 (y * w + x)) =? 255)%Z]> st.2.
Proof.
  destruct st as [buf mask]. unfold atkinson_pixel. simpl. reflexivity.
Qed.

Lemma floyd_steinberg_is_mask (n w h : nat) (gray mask : list Z) :
  is_mask n mask → is_mask n (floyd_steinberg w h gray mask).
Proof.
  intros H. unfold floyd_steinberg.
  apply (for_ind (λ _ (st : list number * list Z), is_mask n st.2)); [exact H|].
  intros y st _ Hst.
  apply (for_ind (λ _ (st : list number * list Z), is_mask n st.2)); [exact Hst|].
  intros x st' _ Hst'. rewrite fs_pixel_mask. apply is_mask_insert. exact Hst'.
Qed.

Lemma atkinson_is_mask (n w h : nat) (gray mask : list Z) :
  is_mask n mask → is_mask n (atkinson w h gray mask).
Proof.
  intros H. unfold atkinson.
  apply (for_ind (λ _ (st : list number * list Z), is_mask n st.2)); [exact H|].
  intros y st _ Hst.
  apply (for_ind (λ _ (st : list number * list Z), is_mask n st.2)); [exact Hst|].
  intros x st' _ Hst'. rewrite atkinson_pixel_mask. apply is_mask_insert. exact Hst'.
Qed.

Lemma compute_gray_length (Math_pow : number → number → number)
    (st : State) (w h : nat) (data : list Z) :
  length (compute_gray Math_pow st w h data) = w * h.
Proof.
  unfold compute_gray.
  apply (for_ind (λ _ g, length g = w * h)); [apply length_replicate|].
  intros i g _ Hg. unfold set_byte. rewrite length_insert. exact Hg.
Qed.

Lemma to_uint8_clamp_byte (x : number) : (0 ≤ to_uint8_clamp x ≤ 255)%Z.
Proof.
  destruct x as [| [|] | n]; simpl; lia.
Qed.

Lemma compute_gray_bytes (Math_pow : number → number → number)
    (st : State) (w h : nat) (data : list Z) :
  Forall (λ g, 0 ≤ g ≤ 255)%Z (compute_gray Math_pow st w h data).
Proof.
  unfold compute_gray.
  apply (for_ind (λ _ g, Forall (λ g, 0 ≤ g ≤ 255)%Z g)).
  - apply Forall_replicate. lia.
  - intros i g _ Hg. unfold set_byte. apply Forall_insert; [exact Hg|].
    apply to_uint8_clamp_byte.
Qed.

Lemma dither_is_mask (Math_random : nat → number) (st : State) (w h : nat)
    (gray : list Z) :
  is_mask (w * h) (dither Math_random st w h gray).1.
Proof.
  unfold dither. pose proof (is_mask_zeros (w * h)) as H0.
  repeat match goal with
         | |- context [if ?c then _ else _] => destruct c
         end; simpl;
    auto using threshold_dither_is_mask, random_dither_is_mask,
      ordered_dither_is_mask, floyd_steinberg_is_mask, atkinson_is_mask.
Qed.

(** C9. Whatever the algorithm name, the mask that the dithering step hands to
    the painting step has exactly [w * h] entries, as many as the grayscale
    buffer, and every entry is 0 or 1. *)
Theorem mask_invariant (Math_pow : number → number → number)
    (Math_random : nat → number) (st : State) (w h : nat) (data : list Z) :
  let gray := compute_gray Math_pow st w h data in
  let mask := (dither Math_random st w h gray).1 in
  length gray = w * h
  ∧ length mask = w * h
  ∧ length mask = length gray
  ∧ Forall (λ b, b = 0 ∨ b = 1)%Z mask.
Proof.
  intros gray mask.
  pose proof (compute_gray_length Math_pow st w h data) as Hg.
  destruct (dither_is_mask Math_random st w h gray) as [Hl Hf].
  fold mask in Hl, Hf. fold gray in Hg. repeat split; auto. lia.
Qed.

(** ** Ordered (Bayer) variants *)

Lemma ordered_dither_flat (m : list (list Z)) (w h : nat) (gray mask : list Z) :
  ordered_dither m w h gray mask =
  for_ (h * w)
    (λ k mask, <[k := bit (gtb (get_byte gray k)
                           (ordered_threshold m (k `mod` w) (k `div` w)))]> mask)
    mask.
Proof.
  unfold ordered_dither.
  rewrite (for_nested_flat w h
             (λ x y mask, <[y * w + x := bit (gtb (get_byte gray (y * w + x))
                                                (ordered_threshold m x y))]> mask)).
  apply for_ext. intros k s _. simpl. rewrite index_decompose. reflexivity.
Qed.

Lemma ordered_dither_lookup (m : list (list Z)) (w h : nat) (gray mask : list Z)
    (x y : nat) :
  x < w → y < h → length mask = w * h →
  ordered_dither m w h gray mask !! (y * w + x) =
  Some (bit (gtb (get_byte gray (y * w + x)) (ordered_threshold m x y))).
Proof.
  intros Hx Hy Hl. rewrite ordered_dither_flat.
  pose proof (index_lt w h x y Hx Hy) as Hk.
  rewrite fill_lookup by lia.
  destruct (decide (y * w + x < h * w)); [|lia].
  rewrite index_mod, index_div by exact Hx. reflexivity.
Qed.

Lemma ordered_threshold_mod (m : list (list Z)) (x y : nat) :
  ordered_threshold m x y =
  ordered_threshold m (x `mod` length m) (y `mod` length m).
Proof. unfold ordered_threshold. rewrite !Nat.Div0.mod_mod. reflexivity. Qed.

Lemma exact_threshold_mod (m : list (list Z)) (x y : nat) :
  exact_threshold m x y = exact_threshold m (x `mod` length m) (y `mod` length m).
Proof. unfold exact_threshold, bayer_cell. rewrite !Nat.Div0.mod_mod. reflexivity. Qed.

Lemma thresholds_exact_sound (m : list (list Z)) (x y : nat) :
  m ≠ [] → thresholds_exact m = true →
  ordered_threshold m x y = Fin (exact_threshold m x y).
Proof.
  intros Hm H. rewrite ordered_threshold_mod, exact_threshold_mod.
  assert (Hn : length m ≠ 0) by (destruct m; simpl; [congruence | lia]).
  unfold thresholds_exact in H. rewrite forallb_forall in H.
  specialize (H (y `mod` length m)). rewrite forallb_forall in H.
  specialize (H ltac:(apply in_seq; pose proof (Nat.mod_upper_bound y (length m) Hn); lia)
                (x `mod` length m)
                ltac:(apply in_seq; pose proof (Nat.mod_upper_bound x (length m) Hn); lia)).
  apply bool_decide_eq_true in H. exact H.
Qed.

Lemma bayer_thresholds_exact (m : list (list Z)) (x y : nat) :
  m = BAYER_2 ∨ m = BAYER_4 ∨ m = BAYER_8 →
  ordered_threshold m x y = Fin (exact_threshold m x y).
Proof.
  intros [-> | [-> | ->]]; apply thresholds_exact_sound; try discriminate;
    vm_compute; reflexivity.
Qed.

Lemma bayer_scale (m : list (list Z)) :
  m = BAYER_2 ∨ m = BAYER_4 ∨ m = BAYER_8 →
  let N := Z.of_nat (length m) in
  (0 < one / (2 * N * N) ∧ one = 2 * N * N * (one / (2 * N * N)))%Z.
Proof.
  intros [-> | [-> | ->]]; vm_compute; split; reflexivity.
Qed.

(** C3. Ordered variants: with the matrix [M] of size [N] (2, 4 or 8), the mask
    has a 1 at pixel [(x, y)] exactly when [gray[p]] is strictly greater than
    [(M[y mod N][x mod N] + 0.5) * 255 / N²], a value the code computes without
    rounding; the 1x1 image of value 128 under the 2x2 matrix gives 1, the
    threshold at (0, 0) being 31.875. *)
Theorem ordered_variant (m : list (list Z)) (w h : nat) (gray : list Z) :
  m = BAYER_2 ∨ m = BAYER_4 ∨ m = BAYER_8 →
  Forall (λ g, 0 ≤ g ≤ 255)%Z gray →
  let N := Z.of_nat (length m) in
  let mask := ordered_dither m w h gray (replicate (w * h) 0%Z) in
  (∀ x y g, x < w → y < h → gray !! (y * w + x) = Some g →
     let M := (m !!! (y `mod` length m)) !!! (x `mod` length m) in
     mask !! (y * w + x) = Some (bit (gtb (of_Z g) (ordered_threshold m x y)))
     ∧ (ordered_threshold m x y = Fin ((2 * M + 1) * 255 * (one / (2 * N * N))))%Z
     ∧ (mask !! (y * w + x) = Some 1%Z ↔ ((2 * M + 1) * 255 < g * (2 * N * N))%Z)
     ∧ (mask !! (y * w + x) = Some 0%Z ↔ (g * (2 * N * N) ≤ (2 * M + 1) * 255)%Z))
  ∧ ordered_threshold BAYER_2 0 0 = dec 31875 1000
  ∧ ordered_dither BAYER_2 1 1 [128%Z] (replicate (1 * 1) 0%Z) = [1%Z].
Proof.
  intros Hm Hbytes N mask. split; [|split; vm_compute; reflexivity].
  intros x y g Hx Hy Hg M.
  assert (Hlook : mask !! (y * w + x) =
                  Some (bit (gtb (of_Z g) (ordered_threshold m x y)))).
  { unfold mask. rewrite ordered_dither_lookup by (auto; apply length_replicate).
    unfold get_byte. rewrite Hg. reflexivity. }
  pose proof (bayer_thresholds_exact m x y Hm) as Ht.
  unfold exact_threshold, bayer_cell in Ht. fold N M in Ht.
  split; [exact Hlook|]. split; [exact Ht|].
  rewrite Hlook, Ht.
  rewrite Forall_lookup in Hbytes. specialize (Hbytes _ _ Hg).
  rewrite of_Z_byte by exact Hbytes.
  destruct (bayer_scale m Hm) as [Hu Ho]. fold N in Hu, Ho.
  set (u := (one / (2 * N * N))%Z) in *. clearbody u.
  assert (E : ((2 * M + 1) * 255 * u < g * one ↔ (2 * M + 1) * 255 < g * (2 * N * N))%Z).
  { replace (g * one)%Z with (g * (2 * N * N) * u)%Z by (rewrite Ho; ring).
    symmetry. apply Z.mul_lt_mono_pos_r. exact Hu. }
  unfold gtb, ltb.
  destruct (Z.ltb_spec ((2 * M + 1) * 255 * u) (g * one)) as [Hlt|Hge]; simpl;
    (split; split; intros; try congruence; try reflexivity; try tauto; try lia).
Qed.

Lemma ordered_variant_witness :
  ordered_threshold BAYER_2 0 0 = dec 31875 1000.
Proof.
  apply (ordered_variant BAYER_2 1 1 [128%Z]); [left; reflexivity|].
  repeat constructor; lia.
Defined.

(** The three names select the three matrices. *)
Lemma dither_ordered (Math_random : nat → number) (st : State) (w h : nat)
    (gray : list Z) :
  (algorithm st = "Ordered Bayer 2x2"%string →
   (dither Math_random st w h gray).1 =
   ordered_dither BAYER_2 w h gray (replicate (w * h) 0%Z))
  ∧ (algorithm st = "Ordered Bayer 4x4"%string →
     (dither Math_random st w h gray).1 =
     ordered_dither BAYER_4 w h gray (replicate (w * h) 0%Z))
  ∧ (algorithm st = "Ordered Bayer 8x8"%string →
     (dither Math_random st w h gray).1 =
     ordered_dither BAYER_8 w h gray (replicate (w * h) 0%Z)).
Proof.
  unfold dither. repeat split; intros ->; reflexivity.
Qed.

(** ** Compositor *)

Ltac nat_bools :=
  repeat match goal with
         | H : (_ <? _) = true |- _ => apply Nat.ltb_lt in H
         | H : (_ <? _) = false |- _ => apply Nat.ltb_ge in H
         | H : (_ <=? _) = true |- _ => apply Nat.leb_le in H
         | H : (_ <=? _) = false |- _ => apply Nat.leb_gt in H
         end.

Lemma fillRect_fields (c : Canvas) (x y rw rh : nat) :
  width (fillRect c x y rw rh) = width c
  ∧ height (fillRect c x y rw rh) = height c
  ∧ draw (fillRect c x y rw rh) = draw c
  ∧ saved (fillRect c x y rw rh) = saved c
  ∧ length (bitmap (fillRect c x y rw rh)) = length (bitmap c).
Proof. unfold fillRect; simpl. rewrite length_imap. auto. Qed.

Lemma fillRect_lookup (c : Canvas) (x y rw rh k : nat) :
  bitmap (fillRect c x y rw rh) !! k =
  (λ p, if in_rect x y rw rh (k `mod` width c) (k `div` width c)
        then fillStyle (draw c) else p) <$> bitmap c !! k.
Proof. unfold fillRect; simpl. apply list_lookup_imap. Qed.

Lemma block_coord (s x x0 dx : nat) :
  dx < s → x * s ≤ x0 * s + dx → x0 * s + dx < x * s + s → x0 = x.
Proof.
  intros Hd H1 H2.
  destruct (lt_eq_lt_dec x0 x) as [[Hlt|Heq]|Hgt]; [|exact Heq|].
  - assert ((x0 + 1) * s ≤ x * s) by (apply Nat.mul_le_mono_r; lia). lia.
  - assert ((x + 1) * s ≤ x0 * s) by (apply Nat.mul_le_mono_r; lia). lia.
Qed.

Lemma in_rect_block (s x y x0 y0 dx dy : nat) :
  dx < s → dy < s →
  in_rect (x * s) (y * s) s s (x0 * s + dx) (y0 * s + dy) =
  bool_decide (x0 = x ∧ y0 = y).
Proof.
  intros Hdx Hdy. unfold in_rect.
  destruct (decide (x0 = x ∧ y0 = y)) as [[-> ->]|Hne].
  - rewrite bool_decide_eq_true_2 by auto.
    repeat (apply andb_true_intro; split);
      try (apply Nat.leb_le; lia); apply Nat.ltb_lt; lia.
  - rewrite bool_decide_eq_false_2 by auto.
    apply not_true_is_false. intros H.
    repeat (apply andb_prop in H as [H ?]).
    nat_bools.
    apply Hne. split.
    + apply (block_coord s x x0 dx); assumption.
    + apply (block_coord s y y0 dy); assumption.
Qed.

Lemma index_inj (w x y x' y' : nat) :
  x < w → x' < w → y * w + x = y' * w + x' → x = x' ∧ y = y'.
Proof.
  intros Hx Hx' E. split.
  - rewrite <- (index_mod w x y Hx), <- (index_mod w x' y' Hx'), E. reflexivity.
  - rewrite <- (index_div w x y Hx), <- (index_div w x' y' Hx'), E. reflexivity.
Qed.

Lemma paint_blocks_flat (w h s : nat) (mask : list Z) (dc : Canvas) :
  paint_blocks w h s mask dc =
  for_ (h * w)
    (λ k dc, if truthy mask k
             then fillRect dc ((k `mod` w) * s) ((k `div` w) * s) s s else dc) dc.
Proof.
  unfold paint_blocks.
  rewrite (for_nested_flat w h
             (λ x y dc, if truthy mask (y * w + x)
                        then fillRect dc (x * s) (y * s) s s else dc)).
  apply for_ext. intros k c _. simpl. rewrite index_decompose. reflexivity.
Qed.

Lemma paint_blocks_spec (w h s : nat) (mask : list Z) (dc : Canvas) (c0 : Pixel) :
  width dc = w * s →
  (∀ k, k < length (bitmap dc) → bitmap dc !! k = Some c0) →
  let out := paint_blocks w h s mask dc in
  width out = width dc ∧ height out = height dc ∧ draw out = draw dc
  ∧ saved out = saved dc ∧ length (bitmap out) = length (bitmap dc)
  ∧ ∀ x y dx dy, x < w → y < h → dx < s → dy < s →
      block_index w s x y dx dy < length (bitmap dc) →
      bitmap out !! block_index w s x y dx dy =
      Some (if truthy mask (y * w + x) then fillStyle (draw dc) else c0).
Proof.
  intros HW Hbg out. unfold out. rewrite paint_blocks_flat.
  set (P := λ (n : nat) (c : Canvas),
         width c = width dc ∧ height c = height dc ∧ draw c = draw dc
         ∧ saved c = saved dc ∧ length (bitmap c) = length (bitmap dc)
         ∧ ∀ x y dx dy, x < w → y < h → dx < s → dy < s →
             block_index w s x y dx dy < length (bitmap dc) →
             bitmap c !! block_index w s x y dx dy =
             Some (if (y * w + x <? n) && truthy mask (y * w + x)
                   then fillStyle (draw dc) else c0)).
  assert (HP : P (h * w) (for_ (h * w)
             (λ k dc, if truthy mask k
                then fillRect dc ((k `mod` w) * s) ((k `div` w) * s) s s else dc) dc)).
  { apply (for_ind P).
    - unfold P. repeat split; auto.
    - intros n c Hn (Hw & Hh & Hd & Hs & Hl & Hpix). unfold P.
      destruct (truthy mask n) eqn:Ht.
      + destruct (fillRect_fields c ((n `mod` w) * s) ((n `div` w) * s) s s)
          as (F1 & F2 & F3 & F4 & F5).
        rewrite F1, F2, F3, F4, F5. repeat split; auto.
        intros x y dx dy Hx Hy Hdx Hdy Hk.
        rewrite fillRect_lookup, (Hpix x y dx dy) by auto. simpl.
        rewrite Hw, HW. unfold block_index.
        assert (Hxs : x * s + dx < w * s) by nia.
        rewrite index_mod, index_div by exact Hxs.
        rewrite in_rect_block by auto. rewrite Hd.
        destruct (decide (x = n `mod` w ∧ y = n `div` w)) as [[Ex Ey]|Hne].
        * rewrite bool_decide_eq_true_2 by auto.
          assert (En : y * w + x = n) by (subst x y; apply index_decompose).
          rewrite En, Ht.
          destruct (n <? S n) eqn:E; [reflexivity | apply Nat.ltb_ge in E; lia].
        * rewrite bool_decide_eq_false_2 by auto.
          assert (Hne' : y * w + x ≠ n).
          { intros En. apply Hne. subst n.
            rewrite index_mod, index_div by exact Hx. auto. }
          destruct (y * w + x <? n) eqn:E1, (y * w + x <? S n) eqn:E2;
            try reflexivity;
            nat_bools; lia.
      + repeat split; auto.
        intros x y dx dy Hx Hy Hdx Hdy Hk.
        rewrite (Hpix x y dx dy) by auto.
        destruct (decide (y * w + x = n)) as [En|Hne].
        * rewrite En, Ht, !andb_false_r. reflexivity.
        * destruct (y * w + x <? n) eqn:E1, (y * w + x <? S n) eqn:E2;
            try reflexivity;
            nat_bools; lia. }
  destruct HP as (Hw & Hh & Hd & Hs & Hl & Hpix).
  repeat split; auto.
  intros x y dx dy Hx Hy Hdx Hdy Hk.
  rewrite (Hpix x y dx dy) by auto.
  pose proof (index_lt w h x y Hx Hy) as Hlt.
  destruct (y * w + x <? h * w) eqn:E; [reflexivity | apply Nat.ltb_ge in E; lia].
Qed.

Lemma palettes_parse (key : string) (pal : Palette) :
  PALETTES !! key = Some pal →
  ∃ cf cb, parse_colour (fg pal) = Some cf ∧ parse_colour (bg pal) = Some cb.
Proof.
  intros H. unfold PALETTES in H. apply elem_of_list_to_map_2 in H.
  repeat (apply elem_of_cons in H as [H|H];
          [injection H as -> ->; eexists _, _; split; vm_compute; reflexivity|]).
  apply elem_of_nil in H. destruct H.
Qed.

Lemma composite_spec (dc : Canvas) (pal : Palette) (w h s : nat) (mask : list Z)
    (cf cb : Pixel) :
  parse_colour (fg pal) = Some cf → parse_colour (bg pal) = Some cb →
  let out := composite dc pal w h s mask in
  width out = w * s ∧ height out = h * s
  ∧ length (bitmap out) = (w * s) * (h * s)
  ∧ ∀ x y dx dy, x < w → y < h → dx < s → dy < s →
      bitmap out !! block_index w s x y dx dy =
      Some (if truthy mask (y * w + x) then cf else cb).
Proof.
  intros Hf Hb out. unfold out, composite.
  set (W := w * s). set (H := h * s).
  set (dc5 := set_fillStyle (save (set_imageSmoothingEnabled
                 (set_height (set_width dc W) H) false)) (bg pal)).
  set (dc6 := fillRect dc5 0 0 W H).
  set (dc7 := set_fillStyle dc6 (fg pal)).
  assert (H5 : width dc5 = W ∧ height dc5 = H ∧ fillStyle (draw dc5) = cb
               ∧ length (bitmap dc5) = W * H).
  { unfold dc5, set_fillStyle. rewrite Hb. simpl.
    rewrite length_replicate. auto. }
  destruct H5 as (W5 & H5 & F5 & L5).
  destruct (fillRect_fields dc5 0 0 W H) as (W6 & H6 & D6 & S6 & L6). fold dc6 in W6, H6, D6, S6, L6.
  assert (B6 : ∀ k, k < length (bitmap dc6) → bitmap dc6 !! k = Some cb).
  { intros k Hk. unfold dc6. rewrite fillRect_lookup.
    rewrite L6, L5 in Hk.
    destruct (lookup_lt_is_Some_2 (bitmap dc5) k ltac:(lia)) as [p Hp].
    rewrite Hp. simpl. rewrite W5, F5.
    assert (W ≠ 0) by (intros ->; lia).
    pose proof (Nat.mod_upper_bound k W ltac:(lia)).
    assert (k `div` W < H) by (apply Nat.Div0.div_lt_upper_bound; lia).
    unfold in_rect.
    replace (0 <=? k `mod` W) with true by (symmetry; apply Nat.leb_le; lia).
    replace (k `mod` W <? 0 + W) with true by (symmetry; apply Nat.ltb_lt; lia).
    replace (0 <=? k `div` W) with true by (symmetry; apply Nat.leb_le; lia).
    replace (k `div` W <? 0 + H) with true by (symmetry; apply Nat.ltb_lt; lia).
    reflexivity. }
  assert (H7 : width dc7 = W ∧ height dc7 = H ∧ fillStyle (draw dc7) = cf
               ∧ bitmap dc7 = bitmap dc6).
  { unfold dc7, set_fillStyle. rewrite Hf.
    cbn [width height draw fillStyle bitmap]. rewrite W6, H6. auto. }
  destruct H7 as (W7 & H7 & F7 & B7).
  destruct (paint_blocks_spec w h s mask dc7 cb W7
              ltac:(rewrite B7; exact B6))
    as (W8 & H8 & D8 & S8 & L8 & P8).
  set (dc8 := paint_blocks w h s mask dc7) in *.
  assert (R : width (restore dc8) = width dc8 ∧ height (restore dc8) = height dc8
              ∧ bitmap (restore dc8) = bitmap dc8).
  { unfold restore. destruct (saved dc8); simpl; auto. }
  destruct R as (-> & -> & ->).
  rewrite W8, H8, L8, W7, H7, B7, L6, L5. repeat split; try reflexivity.
  intros x y dx dy Hx Hy Hdx Hdy.
  rewrite P8 by (auto; rewrite B7, L6, L5; unfold block_index, W, H;
                 rewrite (Nat.mul_comm (w * s) (h * s)); apply index_lt; nia).
  rewrite F7. reflexivity.
Qed.

(** C6. Compositor: for a palette of the table and block size [s], the output
    is [w * s] by [h * s], and every pixel of the [s] by [s] block of mask
    pixel [(x, y)] has one colour: the foreground where the mask holds 1, the
    background where it holds 0. *)
Theorem compositor_blocks (dc : Canvas) (key : string) (pal : Palette)
    (w h s : nat) (mask : list Z) :
  PALETTES !! key = Some pal →
  ∃ cf cb,
    parse_colour (fg pal) = Some cf ∧ parse_colour (bg pal) = Some cb
    ∧ let out := composite dc pal w h s mask in
      width out = w * s ∧ height out = h * s
      ∧ length (bitmap out) = (w * s) * (h * s)
      ∧ ∀ x y dx dy, x < w → y < h → dx < s → dy < s →
          let k := (y * s + dy) * (w * s) + (x * s + dx) in
          (mask !! (y * w + x) = Some 1%Z → bitmap out !! k = Some cf)
          ∧ (mask !! (y * w + x) = Some 0%Z → bitmap out !! k = Some cb)
          ∧ bitmap out !! k = Some (if truthy mask (y * w + x) then cf else cb).
Proof.
  intros Hpal. destruct (palettes_parse key pal Hpal) as (cf & cb & Hf & Hb).
  exists cf, cb. split; [exact Hf|]. split; [exact Hb|].
  destruct (composite_spec dc pal w h s mask cf cb Hf Hb) as (Hw & Hh & Hl & Hp).
  intros out. split; [exact Hw|]. split; [exact Hh|]. split; [exact Hl|].
  intros x y dx dy Hx Hy Hdx Hdy k.
  specialize (Hp x y dx dy Hx Hy Hdx Hdy). unfold block_index in Hp.
  fold k in Hp. fold out in Hp. rewrite Hp. unfold truthy.
  repeat split; try (intros ->); reflexivity.
Qed.

Lemma compositor_blocks_witness :
  ∃ cf cb,
    parse_colour "#3e2f1c" = Some cf ∧ parse_colour "#f3e8d0" = Some cb
    ∧ width (composite (blank 0 0) {| fg := "#3e2f1c"; bg := "#f3e8d0" |} 2 1 4
               [1; 0]%Z) = 2 * 4.
Proof.
  destruct (compositor_blocks (blank 0 0) "Sepia"
              {| fg := "#3e2f1c"; bg := "#f3e8d0" |} 2 1 4 [1; 0]%Z)
    as (cf & cb & Hf & Hb & Hw & _).
  - vm_compute. reflexivity.
  - exists cf, cb. auto.
Defined.

(** ** Algorithm names outside the list *)

Lemma dither_unknown (Math_random : nat → number) (st : State) (w h : nat)
    (gray : list Z) :
  algorithm st ∉ ALGORITHMS →
  dither Math_random st w h gray = (replicate (w * h) 0%Z, randomCalls st).
Proof.
  intros H. unfold dither, ALGORITHMS in *.
  repeat (apply not_elem_of_cons in H as [? H]).
  repeat match goal with
         | |- context [String.eqb ?a ?b] =>
             destruct (String.eqb_spec a b); [congruence|]
         end.
  reflexivity.
Qed.

Lemma truthy_zeros (n i : nat) : truthy (replicate n 0%Z) i = false.
Proof.
  unfold truthy. destruct (replicate n 0%Z !! i) as [v|] eqn:E; [|reflexivity].
  apply lookup_replicate in E as [-> _]. reflexivity.
Qed.

Lemma paint_blocks_nothing (w h s : nat) (mask : list Z) (dc : Canvas) :
  (∀ i, truthy mask i = false) → paint_blocks w h s mask dc = dc.
Proof.
  intros H. unfold paint_blocks.
  apply (for_ind (λ _ c, c = dc)); [reflexivity|].
  intros y c _ ->.
  apply (for_ind (λ _ c, c = dc)); [reflexivity|].
  intros x c _ ->. rewrite H. reflexivity.
Qed.

Lemma fill_background (c : Canvas) (W H : nat) :
  width c = W → length (bitmap c) = W * H →
  bitmap (fillRect c 0 0 W H) = replicate (W * H) (fillStyle (draw c)).
Proof.
  intros HW HL. apply list_eq. intros k. rewrite fillRect_lookup.
  destruct (decide (k < W * H)) as [Hk|Hk].
  - destruct (lookup_lt_is_Some_2 (bitmap c) k ltac:(lia)) as [p Hp].
    rewrite Hp. simpl. rewrite HW.
    assert (W ≠ 0) by (intros ->; lia).
    pose proof (Nat.mod_upper_bound k W ltac:(lia)).
    assert (k `div` W < H) by (apply Nat.Div0.div_lt_upper_bound; lia).
    unfold in_rect.
    replace (0 <=? k `mod` W) with true by (symmetry; apply Nat.leb_le; lia).
    replace (k `mod` W <? 0 + W) with true by (symmetry; apply Nat.ltb_lt; lia).
    replace (0 <=? k `div` W) with true by (symmetry; apply Nat.leb_le; lia).
    replace (k `div` W <? 0 + H) with true by (symmetry; apply Nat.ltb_lt; lia).
    simpl. symmetry. apply lookup_replicate_2. exact Hk.
  - rewrite (proj2 (lookup_ge_None (bitmap c) k)) by lia.
    simpl. symmetry. apply lookup_ge_None. rewrite length_replicate. lia.
Qed.

Lemma composite_zeros (dc : Canvas) (pal : Palette) (w h s n : nat) (cb : Pixel) :
  parse_colour (bg pal) = Some cb →
  let out := composite dc pal w h s (replicate n 0%Z) in
  width out = w * s ∧ height out = h * s
  ∧ bitmap out = replicate ((w * s) * (h * s)) cb.
Proof.
  intros Hb out. unfold out, composite.
  rewrite paint_blocks_nothing by (intros; apply truthy_zeros).
  set (dc5 := set_fillStyle (save (set_imageSmoothingEnabled
                 (set_height (set_width dc (w * s)) (h * s)) false)) (bg pal)).
  assert (H5 : width dc5 = w * s ∧ height dc5 = h * s ∧ fillStyle (draw dc5) = cb
               ∧ length (bitmap dc5) = (w * s) * (h * s)
               ∧ saved dc5 ≠ []).
  { unfold dc5, set_fillStyle. rewrite Hb. simpl.
    rewrite length_replicate. auto. }
  destruct H5 as (W5 & H5 & F5 & L5 & S5).
  pose proof (fill_background dc5 (w * s) (h * s) W5 L5) as B6.
  destruct (fillRect_fields dc5 0 0 (w * s) (h * s)) as (W6 & H6 & D6 & S6 & L6).
  set (dc6 := fillRect dc5 0 0 (w * s) (h * s)) in *.
  assert (H7 : ∀ c str, width (restore (set_fillStyle c str)) = width c
                        ∧ height (restore (set_fillStyle c str)) = height c
                        ∧ bitmap (restore (set_fillStyle c str)) = bitmap c).
  { intros c str. unfold restore, set_fillStyle.
    destruct (parse_colour str); simpl; destruct (saved c); simpl; auto. }
  destruct (H7 dc6 (fg pal)) as (-> & -> & ->).
  rewrite W6, H6, B6, W5, H5, F5. auto.
Qed.

(** C8, as the specification states it, fails: with an algorithm name that is
    none of the seven, [processImage] returns normally and the dither canvas
    holds a raster of the background colour alone. *)
Lemma unknown_algorithm_returns :
  (algorithm unknown_algorithm_state ∉ ALGORITHMS)
  ∧ ∃ st', processImage (λ x _, x) (λ _, Fin 0) unknown_algorithm_state = Returned st'
           ∧ (bitmap <$> ditherCanvas st') = Some [white; white].
Proof.
  split.
  - unfold ALGORITHMS. simpl. intros H.
    repeat (apply elem_of_cons in H as [H|H]; [discriminate|]).
    apply elem_of_nil in H. exact H.
  - eexists. split; vm_compute; reflexivity.
Qed.

(** C8, amended. An algorithm name that is none of the seven is outside the
    type [Algorithm]; when one reaches [processImage] all the same, no error is
    signalled: no [case] matches, the mask stays all zeros, and with both
    canvases present, a non-empty source and a palette of the table the call
    returns with an output raster filled with the background colour. *)
Theorem unknown_algorithm_silent (Math_pow : number → number → number)
    (Math_random : nat → number) (st : State) (oc dc : Canvas) (pal : Palette) :
  algorithm st ∉ ALGORITHMS →
  originalCanvas st = Some oc → ditherCanvas st = Some dc →
  width oc ≠ 0 → height oc ≠ 0 →
  PALETTES !! paletteKey st = Some pal →
  let w := width oc in
  let h := height oc in
  let s := ditherSize st in
  (∀ gray, dither Math_random st w h gray = (replicate (w * h) 0%Z, randomCalls st))
  ∧ ∃ out cb,
      processImage Math_pow Math_random st =
        Returned (with_output st (Some out) (randomCalls st))
      ∧ parse_colour (bg pal) = Some cb
      ∧ width out = w * s ∧ height out = h * s
      ∧ bitmap out = replicate ((w * s) * (h * s)) cb.
Proof.
  intros Ha Hoc Hdc Hw Hh Hpal w h s.
  split; [intros; apply dither_unknown; exact Ha|].
  destruct (palettes_parse _ _ Hpal) as (cf & cb & Hf & Hb).
  exists (composite dc pal w h s (replicate (w * h) 0%Z)), cb.
  split; [|split; [exact Hb|apply composite_zeros; exact Hb]].
  unfold processImage. rewrite Hoc, Hdc.
  replace (width oc =? 0) with false by (symmetry; apply Nat.eqb_neq; exact Hw).
  replace (height oc =? 0) with false by (symmetry; apply Nat.eqb_neq; exact Hh).
  simpl orb. cbv iota.
  rewrite dither_unknown by exact Ha. rewrite Hpal. reflexivity.
Qed.

Lemma unknown_algorithm_silent_witness :
  dither (λ _, Fin 0) unknown_algorithm_state 2 1 [10; 200]%Z =
  (replicate (2 * 1) 0%Z, 0).
Proof.
  refine (proj1 (unknown_algorithm_silent (λ x _, x) (λ _, Fin 0)
           unknown_algorithm_state _ (blank 0 0)
           {| fg := "#000000"; bg := "#ffffff" |} _ eq_refl eq_refl _ _ _) _).
  - unfold ALGORITHMS. simpl. intros H.
    repeat (apply elem_of_cons in H as [H|H]; [discriminate|]).
    apply elem_of_nil in H. exact H.
  - simpl. lia.
  - simpl. lia.
  - vm_compute. reflexivity.
Defined.

(** ** Determinism *)

Lemma dither_calls (Math_random : nat → number) (st : State) (w h : nat)
    (gray : list Z) :
  algorithm st ≠ "Random"%string →
  (dither Math_random st w h gray).2 = randomCalls st.
Proof.
  intros H. unfold dither.
  destruct (String.eqb_spec (algorithm st) "Random"); [congruence|].
  repeat match goal with
         | |- context [if ?c then _ else _] => destruct c
         end; reflexivity.
Qed.

(** The painting step overwrites the dither canvas entirely. *)
Lemma composite_overwrites (dc dc' : Canvas) (pal : Palette) (w h s : nat)
    (mask : list Z) :
  composite dc pal w h s mask = composite dc' pal w h s mask.
Proof. reflexivity. Qed.

(** C10. For every algorithm name other than ["Random"], a second run of
    [processImage] with the same parameters on the same source canvas ends
    in the very state the first run ended in: the output raster is
    identical. *)
Theorem processImage_deterministic (Math_pow : number → number → number)
    (Math_random : nat → number) (st : State) :
  algorithm st ≠ "Random"%string →
  processImage Math_pow Math_random
    (final_state (processImage Math_pow Math_random st)) =
  processImage Math_pow Math_random st.
Proof.
  intros Ha. unfold processImage at 2 3.
  destruct (originalCanvas st) as [oc|] eqn:Hoc;
    [|unfold processImage; simpl; rewrite Hoc; reflexivity].
  destruct (ditherCanvas st) as [dc|] eqn:Hdc;
    [|unfold processImage; simpl; rewrite Hoc, Hdc; reflexivity].
  destruct ((width oc =? 0) || (height oc =? 0)) eqn:Hz;
    [unfold processImage; simpl; rewrite Hoc, Hdc, Hz; reflexivity|].
  pose proof (dither_calls Math_random st (width oc) (height oc)
                (compute_gray Math_pow st (width oc) (height oc) (getImageData oc)) Ha)
    as Hc.
  destruct (dither Math_random st (width oc) (height oc)
              (compute_gray Math_pow st (width oc) (height oc) (getImageData oc)))
    as [mask calls] eqn:Hd.
  simpl in Hc. subst calls.
  assert (Hrun : ∀ dc',
    processImage Math_pow Math_random (with_output st (Some dc') (randomCalls st)) =
    match PALETTES !! paletteKey st with
    | Some pal =>
        Returned (with_output st
          (Some (composite dc' pal (width oc) (height oc) (ditherSize st) mask))
          (randomCalls st))
    | None => Threw (with_output st (Some dc') (randomCalls st))
    end).
  { intros dc'. unfold processImage. simpl. rewrite Hoc, Hz.
    change (compute_gray Math_pow (with_output st (Some dc') (randomCalls st)))
      with (compute_gray Math_pow st).
    change (dither Math_random (with_output st (Some dc') (randomCalls st)))
      with (dither Math_random st).
    rewrite Hd. reflexivity. }
  destruct (PALETTES !! paletteKey st) as [pal|] eqn:Hpal; simpl final_state;
    rewrite Hrun; reflexivity.
Qed.

Lemma processImage_deterministic_witness :
  processImage (λ x _, x) (λ _, Fin 0)
    (final_state (processImage (λ x _, x) (λ _, Fin 0) atkinson_state)) =
  processImage (λ x _, x) (λ _, Fin 0) atkinson_state.
Proof.
  apply processImage_deterministic. discriminate.
Defined.

Lemma random_runs_differ :
  ditherCanvas (final_state (processImage (λ x _, x) alternating
    (final_state (processImage (λ x _, x) alternating random_state)))) ≠
  ditherCanvas (final_state (processImage (λ x _, x) alternating random_state)).
Proof. vm_compute. discriminate. Qed.

(** ** Tonal transform: range *)

Lemma round64_between_int (a b lo hi : Z) :
  (0 < b → Z.abs lo < 2 ^ 53 → Z.abs hi < 2 ^ 53 →
   lo * one * b ≤ a ≤ hi * one * b → between lo hi (round64 a b))%Z.
Proof.
  intros Hb Hlo Hhi H.
  destruct (round64_between a b (lo * one) (hi * one)) as (n & -> & Hn); auto.
  - apply int_representable; lia.
  - apply int_representable; lia.
  - rewrite one_eq. lia.
  - rewrite one_eq. lia.
Qed.

Lemma small_abs (z : Z) : (- 1000 ≤ z ≤ 1000 → Z.abs z < 2 ^ 53)%Z.
Proof. intros H. assert (1000 < 2 ^ 53)%Z by reflexivity. lia. Qed.

Lemma round64_not_nan (a b : Z) : round64 a b ≠ NaN.
Proof. unfold round64, finish. destruct (_ <=? _)%Z; discriminate. Qed.

Lemma clamp01_between (x : number) : x ≠ NaN → between 0 1 (clamp01 x).
Proof.
  intros Hx. unfold clamp01. rewrite of_Z_0, of_Z_1. pose proof one_pos.
  destruct x as [| [|] | n]; [congruence| | |];
    unfold Math_min, Math_max, ltb, between; cbn [negb]; zcases.
Qed.

Lemma normalize_between (v : Z) :
  (0 ≤ v ≤ 255)%Z → between 0 1 (spec_normalize (of_Z v)).
Proof.
  intros Hv. unfold spec_normalize. rewrite !of_Z_byte by lia.
  pose proof one_pos. unfold div.
  destruct (Z.eqb_spec (255 * one) 0); [lia|].
  rewrite Z.sgn_pos, Z.abs_eq by lia.
  apply round64_between_int; try lia; try (apply small_abs; lia).
  nia.
Qed.

(** Bounds that are powers of two. *)
Lemma pow2_representable (e : Z) : (0 ≤ e → representable 53 0 (2 ^ e))%Z.
Proof.
  intros He. rewrite <- (Z.mul_1_l (2 ^ e)). apply representable_intro; lia.
Qed.

Lemma round64_within (a b e : Z) :
  (0 < b → 0 ≤ e < 2098 → - 2 ^ e * b ≤ a ≤ 2 ^ e * b →
   ∃ n, round64 a b = Fin n ∧ - 2 ^ e ≤ n ≤ 2 ^ e)%Z.
Proof.
  intros Hb He H.
  assert (2 ^ e < 2 ^ 2098)%Z by (apply Z.pow_lt_mono_r; lia).
  pose proof (pow2_pos e ltac:(lia)).
  apply round64_between; auto.
  - apply representable_opp, pow2_representable. lia.
  - apply pow2_representable. lia.
  - lia.
  - lia.
Qed.

Lemma max_double_lt : (max_double < 2 ^ 2098)%Z.
Proof. vm_compute. reflexivity. Qed.

Lemma div_100_finite (x : number) :
  finite x → ∃ n, div x (of_Z 100) = Fin n ∧ (- 2 ^ 2092 ≤ n ≤ 2 ^ 2092)%Z.
Proof.
  intros Hb. rewrite (of_Z_byte 100) by lia. pose proof one_pos as Ho.
  destruct x as [| |nb]; [destruct Hb | destruct Hb |]. unfold finite in Hb. unfold div.
  destruct (Z.eqb_spec (100 * one) 0); [lia|].
  rewrite Z.sgn_pos, Z.abs_eq by lia.
  apply round64_within; [lia | lia |].
  assert (Hm : (max_double ≤ 2 ^ 2092 * 64)%Z) by (vm_compute; discriminate).
  pose proof (pow2_pos 2092 ltac:(lia)) as HP.
  set (P := (2 ^ 2092)%Z) in *. set (M := max_double) in *. set (o := one) in *.
  clearbody P M o.
  assert (Z.abs nb * o ≤ (P * 64) * o)%Z by (apply Z.mul_le_mono_nonneg_r; lia).
  assert (Z.abs (nb * o) = Z.abs nb * o)%Z by (rewrite Z.abs_mul, (Z.abs_eq o); lia).
  assert (0 ≤ P * o)%Z by (apply Z.mul_nonneg_nonneg; lia).
  lia.
Qed.

Lemma add_100_finite (x : number) :
  finite x → finite (add (of_Z 100) x).
Proof.
  intros Hc. rewrite (of_Z_byte 100) by lia.
  destruct x as [| |nc]; [destruct Hc | destruct Hc |]. unfold finite in Hc. unfold add.
  assert (Hlo : (- max_double ≤ round_to 53 0 (100 * one + nc) 1)%Z).
  { transitivity (round_to 53 0 (100 * one - max_double) 1);
      [vm_compute; discriminate | apply round_to_mono; lia]. }
  assert (Hhi : (round_to 53 0 (100 * one + nc) 1 ≤ max_double)%Z).
  { transitivity (round_to 53 0 (100 * one + max_double) 1);
      [apply round_to_mono; lia | vm_compute; discriminate]. }
  unfold round64. pose proof max_double_lt.
  rewrite finish_fin by lia. unfold finite. lia.
Qed.

Lemma contrast_not_nan (c : number) (n : Z) :
  finite c → (- 2 ^ 2093 ≤ n ≤ 2 ^ 2093)%Z → spec_contrast c (Fin n) ≠ NaN.
Proof.
  intros Hc Hn. unfold spec_contrast.
  destruct (eqb c (of_Z 0)); [discriminate|]. cbv zeta.
  destruct (div_100_finite _ (add_100_finite c Hc)) as (k & -> & _).
  rewrite half_exact.
  assert (Hs : ∃ m, sub (Fin n) (Fin (2 ^ 1073)) = Fin m).
  { unfold sub, neg, add.
    destruct (round64_within (n + - 2 ^ 1073) 1 2094) as (m & -> & _); try lia.
    eauto. }
  destruct Hs as (m & ->).
  unfold mul. pose proof (round64_not_nan (m * k) one) as Hm.
  destruct (round64 (m * k) one) as [| s | p]; [congruence | discriminate |].
  unfold add. apply round64_not_nan.
Qed.

Lemma brightness_finite (b : number) (v : Z) :
  (0 ≤ v ≤ 255)%Z → finite b →
  ∃ n, spec_brightness b (spec_normalize (of_Z v)) = Fin n
       ∧ (- 2 ^ 2093 ≤ n ≤ 2 ^ 2093)%Z.
Proof.
  intros Hv Hb. unfold spec_brightness.
  destruct (between_fin _ _ _ (normalize_between v Hv)) as (n0 & -> & H0).
  destruct (div_100_finite b Hb) as (nd & -> & Hd).
  unfold add. apply round64_within; try lia.
  assert (2 ^ 2093 = 2 ^ 2092 * 2)%Z by reflexivity.
  assert (one < 2 ^ 2092)%Z by reflexivity.
  pose proof one_pos. lia.
Qed.

Lemma invert_between (inv : bool) (x : number) :
  between 0 1 x → between 0 1 (spec_invert inv x).
Proof.
  intros Hx. unfold spec_invert. destruct inv; [|exact Hx].
  destruct (between_fin _ _ _ Hx) as (n & -> & Hn).
  rewrite of_Z_1. unfold sub, neg, add.
  apply round64_between_int; try (apply small_abs; lia); lia.
Qed.

Lemma round_scaled_intensity (x : number) :
  between 0 1 x → is_intensity (Math_round (mul x (of_Z 255))).
Proof.
  intros Hx. destruct (between_fin _ _ _ Hx) as (n & -> & Hn).
  rewrite (of_Z_byte 255) by lia. unfold mul. pose proof one_pos.
  assert (Hm : between 0 255 (round64 (n * (255 * one)) one)).
  { apply round64_between_int; try (apply small_abs; lia); nia. }
  destruct (between_fin _ _ _ Hm) as (m & -> & Hm').
  unfold Math_round. rewrite Z.shiftr_div_pow2 by lia.
  change (2 ^ 1075)%Z with (2 * one)%Z.
  set (r := ((2 * m + one) / (2 * one))%Z).
  assert (Hr : (0 ≤ r ≤ 255)%Z).
  { unfold r. split.
    - apply Z.div_pos; lia.
    - assert ((2 * m + one) / (2 * one) < 256)%Z; [|lia].
      apply Z.div_lt_upper_bound; lia. }
  exists r. split; [exact Hr|]. rewrite of_Z_byte by exact Hr. reflexivity.
Qed.

(** C7, as stated, fails: a brightness that is not a number makes the result
    not a number. *)
Lemma tonal_nan_brightness :
  ¬ is_intensity (applyTonalAdjustments (λ x _, x) NaN (of_Z 0) (of_Z 1) false (of_Z 128)).
Proof.
  intros (r & Hr & H). rewrite (of_Z_byte r) in H by exact Hr.
  assert (E : applyTonalAdjustments (λ x _, x) NaN (of_Z 0) (of_Z 1) false (of_Z 128)
              = NaN) by (vm_compute; reflexivity).
  rewrite E in H. generalize dependent (r * one)%Z. intros n H. discriminate H.
Qed.

(** C7, amended. For every intensity [v] of 0..255, every finite brightness
    and contrast, and either setting of invert, the tonal transform returns an
    integer of 0..255 whenever the gamma stage does not call [Math.pow] (gamma
    not positive, equal to 1, or not a number) or [Math.pow] returns a value
    in [0, 1]. *)
Theorem tonal_range (Math_pow : number → number → number)
    (brightness contrast gamma : number) (invert : bool) (v : Z) :
  (0 ≤ v ≤ 255)%Z →
  finite brightness → finite contrast →
  (gamma_applies gamma = false
   ∨ between 0 1 (Math_pow (clamp01 (before_gamma brightness contrast (of_Z v)))
                           (div (of_Z 1) gamma))) →
  is_intensity (applyTonalAdjustments Math_pow brightness contrast gamma invert (of_Z v)).
Proof.
  intros Hv Hb Hc Hg. rewrite tonal_stages. unfold spec_tonal. cbv zeta.
  apply round_scaled_intensity, invert_between.
  destruct (brightness_finite brightness v Hv Hb) as (n1 & E1 & Hn1).
  pose proof (contrast_not_nan contrast n1 Hc Hn1) as Hx2.
  unfold before_gamma in Hg. rewrite E1 in *.
  unfold spec_gamma. cbv zeta. rewrite <- clamp01_spec_clamp.
  fold (gtb gamma (of_Z 0)). fold (gamma_applies gamma).
  destruct (gamma_applies gamma).
  - destruct Hg as [Hg|Hg]; [discriminate | exact Hg].
  - apply clamp01_between, Hx2.
Qed.

Lemma tonal_range_witness :
  is_intensity (applyTonalAdjustments (λ x _, x) (of_Z 10) (of_Z (-20)) (of_Z 1) true
                  (of_Z 128)).
Proof.
  apply tonal_range.
  - lia.
  - vm_compute. discriminate.
  - vm_compute. discriminate.
  - left. vm_compute. reflexivity.
Defined.

(** ** Error diffusion: arithmetic of one pixel *)

Lemma representable_elim (prec sub n : Z) :
  (0 < prec → 0 ≤ sub → representable prec sub n →
   ∃ m j, n = m * 2 ^ j ∧ Z.abs m ≤ 2 ^ prec ∧ sub ≤ j)%Z.
Proof.
  intros Hp Hs Hr. unfold representable, round_to in Hr.
  rewrite round_mag_nearest in Hr by lia. unfold nearest in Hr.
  destruct (nearest_mantissa prec sub (Z.abs n) 1 Hp Hs ltac:(lia) ltac:(lia)) as [H0 H1].
  pose proof (grid_ge_sub prec sub (Z.abs n) 1) as Hk.
  set (k := grid prec sub (Z.abs n) 1) in *.
  set (q := rne (Z.abs n) (1 * 2 ^ k)) in *.
  exists (Z.sgn n * q)%Z, k. split; [lia|]. split; [|exact Hk].
  rewrite Z.abs_mul, (Z.abs_eq q) by lia.
  destruct (Z.sgn_spec n) as [[_ ->]|[[_ ->]|[_ ->]]]; simpl Z.abs; lia.
Qed.

Lemma representable_32_64 (n : Z) : representable 24 925 n → representable 53 0 n.
Proof.
  intros Hr.
  destruct (representable_elim 24 925 n ltac:(lia) ltac:(lia) Hr) as (m & j & -> & Hm & Hj).
  apply representable_intro; lia.
Qed.

Lemma f32_between_fin (lo hi : Z) (x : number) :
  f32_between lo hi x →
  ∃ n, x = Fin n ∧ representable 24 925 n ∧ (lo * one ≤ n ≤ hi * one)%Z.
Proof. destruct x; simpl; try tauto. eauto. Qed.

Lemma f32_between_weaken (lo hi lo' hi' : Z) (x : number) :
  (lo' ≤ lo)%Z → (hi ≤ hi')%Z → f32_between lo hi x → f32_between lo' hi' x.
Proof.
  intros Hl Hh. destruct x; simpl; try tauto. pose proof one_pos.
  intros [Hr Hn]. split; [exact Hr | nia].
Qed.

Lemma one_lt_top : (1000000 * one < 2 ^ 1202)%Z.
Proof. reflexivity. Qed.

(** [a[j] += d]: the new element when the old one and the increment are
    bounded by integers. *)
Lemma add_fround_between (lo hi d : Z) (x : number) (a : Z) :
  (- 1000 ≤ lo → hi ≤ 1000 → 0 ≤ d ≤ 1000 →
   f32_between lo hi x → - d * one ≤ a ≤ d * one →
   f32_between (lo - d) (hi + d) (fround (add x (Fin a))))%Z.
Proof.
  intros Hlo Hhi Hd Hx Ha. pose proof one_pos.
  destruct (f32_between_fin _ _ _ Hx) as (n & -> & Hr & Hn).
  destruct (Z_le_gt_dec lo hi) as [Hlh|Hlh]; [|nia].
  unfold add.
  assert (Hm : between (lo - d) (hi + d) (round64 (n + a) 1)).
  { apply round64_between_int; first [lia | apply small_abs; lia | nia]. }
  destruct (between_fin _ _ _ Hm) as (m & -> & Hm').
  unfold fround. pose proof one_lt_top.
  destruct (round32_between m ((lo - d) * one) ((hi + d) * one)) as (p & -> & Hp & Hrp).
  - apply int_representable; lia.
  - apply int_representable; lia.
  - nia.
  - nia.
  - exact Hm'.
  - simpl. auto.
Qed.

(** Storing a byte of [gray] in the working buffer. *)
Lemma fround_byte (g : Z) :
  (0 ≤ g ≤ 255)%Z → fround (of_Z g) = Fin (g * one) ∧ f32_between 0 255 (Fin (g * one)).
Proof.
  intros Hg. rewrite of_Z_byte by exact Hg. unfold fround.
  assert (Hr : representable 24 925 (g * one)).
  { apply int_representable; lia. }
  pose proof one_pos. pose proof one_lt_top.
  rewrite round32_exact by (auto; nia).
  split; [reflexivity|]. simpl. split; [exact Hr | nia].
Qed.

(** The quantization error of a pixel whose buffer value lies within the
    reachable range: it is computed without rounding, has magnitude at most
    128, and is a multiple of [2^-149] with a short significand. *)
Lemma quantize_error (old : number) :
  f32_between (-128) 383 old →
  ∃ n e q j,
    old = Fin n ∧ sub old (of_Z (quantize old)) = Fin e
    ∧ (e = n - quantize old * one)%Z
    ∧ (- 128 * one ≤ e ≤ 128 * one)%Z
    ∧ (e = q * 2 ^ j ∧ Z.abs q ≤ 2 ^ 24 ∧ 925 ≤ j)%Z.
Proof.
  intros Hold. destruct (f32_between_fin _ _ _ Hold) as (n & -> & Hr & Hn).
  pose proof one_pos. unfold quantize.
  rewrite (of_Z_byte 128) by lia. unfold ltb.
  destruct (Z.ltb_spec n (128 * one)) as [Hlt|Hge].
  - rewrite of_Z_0. unfold sub, neg, add.
    change (- 0)%Z with 0%Z. rewrite Z.add_0_r.
    destruct (representable_elim 24 925 n ltac:(lia) ltac:(lia) Hr) as (q & j & Hq & Hqa & Hj).
    exists n, n, q, j. repeat split; auto; try lia.
    rewrite <- (Z.mul_1_r n) at 1.
    apply round64_exact; [lia | apply representable_32_64, Hr |].
    assert (1000 * one < 2 ^ 2098)%Z by reflexivity. lia.
  - rewrite (of_Z_byte 255) by lia. unfold sub, neg, add.
    assert (Hdiv : (2 ^ 1058 | n)%Z).
    { apply (representable_divide 24 925 n 1081); try lia; [exact Hr|].
      change (2 ^ 1081)%Z with (128 * one)%Z. lia. }
    destruct Hdiv as [q0 Hq0].
    assert (Eone : (255 * one = 255 * 2 ^ 16 * 2 ^ 1058)%Z) by reflexivity.
    set (q := (q0 - 255 * 2 ^ 16)%Z).
    assert (Eq : (n + - (255 * one) = q * 2 ^ 1058)%Z) by (unfold q; lia).
    assert (P : (0 < 2 ^ 1058)%Z) by reflexivity.
    assert (E128 : (128 * one = 2 ^ 23 * 2 ^ 1058)%Z) by reflexivity.
    assert (Hqb : (Z.abs q ≤ 2 ^ 23)%Z) by nia.
    exists n, (n + - (255 * one))%Z, q, 1058%Z.
    repeat split; auto; try lia.
    + rewrite <- (Z.mul_1_r (n + - (255 * one))) at 1.
      apply round64_exact; [lia | |].
      * rewrite Eq. apply representable_intro; lia.
      * assert (1000 * one < 2 ^ 2098)%Z by reflexivity. lia.
Qed.

Lemma small_product (q k : Z) :
  (Z.abs q ≤ 2 ^ 24 → 1 ≤ k ≤ 7 → Z.abs (q * k) < 2 ^ 53)%Z.
Proof.
  intros Hq Hk. assert (B : (2 ^ 24 * 8 < 2 ^ 53)%Z) by reflexivity.
  set (A := (2 ^ 24)%Z) in *. set (C := (2 ^ 53)%Z) in *. clearbody A C.
  rewrite Z.abs_mul, (Z.abs_eq k) by lia.
  assert (Z.abs q * k ≤ A * 7)%Z by (apply Z.mul_le_mono_nonneg; lia). lia.
Qed.

Lemma scaled_bound (e k : Z) :
  (- 128 * one ≤ e ≤ 128 * one → 1 ≤ k ≤ 7 → Z.abs (e * k) < 2 ^ 2098)%Z.
Proof.
  intros He Hk. assert (B : (1024 * one < 2 ^ 2098)%Z) by reflexivity.
  pose proof one_pos as Ho.
  set (o := one) in *. set (T := (2 ^ 2098)%Z) in *. clearbody o T.
  rewrite Z.abs_mul, (Z.abs_eq k) by lia.
  assert (Z.abs e * k ≤ (128 * o) * 7)%Z by (apply Z.mul_le_mono_nonneg; lia). lia.
Qed.

Lemma share_bound (e k a : Z) :
  (- 128 * one ≤ e ≤ 128 * one → 1 ≤ k ≤ 7 → 16 * a = k * e →
   (- (8 * k) * one ≤ a ≤ (8 * k) * one) ∧ Z.abs a < 2 ^ 2098)%Z.
Proof.
  intros He Hk Ha. assert (B : (1024 * one < 2 ^ 2098)%Z) by reflexivity.
  pose proof one_pos as Ho.
  set (o := one) in *. set (T := (2 ^ 2098)%Z) in *. clearbody o T.
  assert (Hc : (k = 1 ∨ k = 2 ∨ k = 3 ∨ k = 4 ∨ k = 5 ∨ k = 6 ∨ k = 7)%Z) by lia.
  destruct Hc as [->|[->|[->|[->|[->|[->| ->]]]]]]; lia.
Qed.

(** A share [err * k / 16] of the error is computed without rounding. *)
Lemma share_exact (e q j k : Z) :
  (- 128 * one ≤ e ≤ 128 * one → e = q * 2 ^ j → Z.abs q ≤ 2 ^ 24 → 925 ≤ j →
   1 ≤ k ≤ 7 →
   ∃ a, div (mul (Fin e) (of_Z k)) (of_Z 16) = Fin a
        ∧ 16 * a = k * e ∧ - (8 * k) * one ≤ a ≤ (8 * k) * one)%Z.
Proof.
  intros He Eq Hq Hj Hk. pose proof one_pos as Ho.
  rewrite (of_Z_byte k), (of_Z_byte 16) by lia.
  assert (Pj : (0 < 2 ^ (j - 4))%Z) by (apply pow2_pos; lia).
  assert (Ej : (2 ^ j = 16 * 2 ^ (j - 4))%Z).
  { change 16%Z with (2 ^ 4)%Z. rewrite <- pow2_split by lia. f_equal. lia. }
  pose proof (small_product q k Hq Hk) as Hqk.
  pose proof (scaled_bound e k He Hk) as Hek.
  unfold mul.
  replace (e * (k * one))%Z with ((e * k) * one)%Z by ring.
  rewrite round64_exact; [| exact Ho | | exact Hek].
  2:{ rewrite Eq. replace (q * 2 ^ j * k)%Z with ((q * k) * 2 ^ j)%Z by ring.
      apply representable_intro; [lia | lia | lia | exact Hqk]. }
  unfold div. destruct (Z.eqb_spec (16 * one) 0); [lia|].
  rewrite Z.sgn_pos, Z.abs_eq, Z.mul_1_l by lia.
  set (a := (q * k * 2 ^ (j - 4))%Z).
  assert (Ha : (16 * a = k * e)%Z) by (unfold a; rewrite Eq, Ej; ring).
  destruct (share_bound e k a He Hk Ha) as [Hab Hat].
  exists a. split; [|split; [exact Ha | exact Hab]].
  replace (e * k * one)%Z with (a * (16 * one))%Z
    by (replace (a * (16 * one))%Z with ((16 * a) * one)%Z by ring; rewrite Ha; ring).
  apply round64_exact; [lia | | exact Hat].
  unfold a. apply representable_intro; [lia | lia | lia | exact Hqk].
Qed.

(** The eighth [err / 8] of the error is computed without rounding. *)
Lemma eighth_exact (e q j : Z) :
  (- 128 * one ≤ e ≤ 128 * one → e = q * 2 ^ j → Z.abs q ≤ 2 ^ 24 → 925 ≤ j →
   ∃ a, div (Fin e) (of_Z 8) = Fin a ∧ 8 * a = e ∧ - 16 * one ≤ a ≤ 16 * one)%Z.
Proof.
  intros He Eq Hq Hj. pose proof one_pos.
  rewrite (of_Z_byte 8) by lia.
  assert (Pj : (0 < 2 ^ (j - 3))%Z) by (apply pow2_pos; lia).
  assert (Ej : (2 ^ j = 8 * 2 ^ (j - 3))%Z).
  { change 8%Z with (2 ^ 3)%Z. rewrite <- pow2_split by lia. f_equal. lia. }
  assert (B : (1000 * one < 2 ^ 2098)%Z) by reflexivity.
  assert (B24 : (2 ^ 24 < 2 ^ 53)%Z) by reflexivity.
  unfold div. destruct (Z.eqb_spec (8 * one) 0); [lia|].
  rewrite Z.sgn_pos, Z.abs_eq, Z.mul_1_l by lia.
  set (a := (q * 2 ^ (j - 3))%Z).
  assert (Ha : (8 * a = e)%Z) by (unfold a; rewrite Eq, Ej; ring).
  exists a. split; [|split; [exact Ha | nia]].
  replace (e * one)%Z with (a * (8 * one))%Z
    by (replace (a * (8 * one))%Z with ((8 * a) * one)%Z by ring; rewrite Ha; ring).
  apply round64_exact; [lia | unfold a; apply representable_intro; lia | lia].
Qed.

(** ** Error diffusion: the working buffer *)

Lemma add_f32_length (a : list number) (i : nat) (d : number) :
  length (add_f32 a i d) = length a.
Proof. unfold add_f32, set_f32. apply length_insert. Qed.

Lemma add_f32_lookup (a : list number) (i : nat) (d : number) (j : nat) :
  i < length a →
  add_f32 a i d !! j =
  if decide (j = i) then Some (fround (add (get_f32 a i) d)) else a !! j.
Proof.
  intros Hi. unfold add_f32, set_f32. destruct (decide (j = i)) as [->|Hne].
  - apply list_lookup_insert_eq. exact Hi.
  - apply list_lookup_insert_ne. auto.
Qed.

Lemma get_f32_add_ne (a : list number) (i : nat) (d : number) (j : nat) :
  j ≠ i → get_f32 (add_f32 a i d) j = get_f32 a j.
Proof.
  intros Hne. unfold get_f32, add_f32, set_f32.
  rewrite list_lookup_insert_ne by auto. reflexivity.
Qed.

Lemma init_buf_length (gray : list Z) : length (init_buf gray) = length gray.
Proof.
  unfold init_buf.
  apply (for_ind (λ _ b, length b = length gray)); [apply length_replicate|].
  intros i b _ Hb. unfold set_f32. rewrite length_insert. exact Hb.
Qed.

Lemma init_buf_lookup (gray : list Z) (j : nat) (g : Z) :
  gray !! j = Some g → init_buf gray !! j = Some (fround (of_Z g)).
Proof.
  intros Hg. pose proof (lookup_lt_Some _ _ _ Hg) as Hj.
  unfold init_buf.
  change (λ i buf, set_f32 buf i (get_byte gray i))
    with (λ i (buf : list number), <[i := fround (get_byte gray i)]> buf).
  rewrite fill_lookup by (rewrite length_replicate; exact Hj).
  destruct (decide (j < length gray)); [|lia].
  unfold get_byte. rewrite Hg. reflexivity.
Qed.

Lemma fs_pixel_buf (w h x y : nat) (buf : list number) (mask : list Z) (j : nat) :
  x < w → y < h → length buf = w * h →
  let old := get_f32 buf (y * w + x) in
  let err := sub old (of_Z (quantize old)) in
  (fs_pixel w h x y (buf, mask)).1 !! j =
  if (fs_weight w h x y j =? 0)%Z then buf !! j
  else Some (fround (add (get_f32 buf j)
                         (div (mul err (of_Z (fs_weight w h x y j))) (of_Z 16)))).
Proof.
  intros Hx Hy Hl old err.
  assert (Hi : y * w + x < length buf) by (rewrite Hl; nia).
  assert (Hcol : x + 1 < w → y * w + x + 1 < length buf) by (rewrite Hl; nia).
  assert (Hrow : y + 1 < h → y * w + x + w < length buf) by (rewrite Hl; nia).
  assert (Hrow1 : y + 1 < h → x + 1 < w → y * w + x + w + 1 < length buf)
    by (rewrite Hl; nia).
  unfold fs_pixel, fs_weight. cbn [fst]. fold old. fold err.
  set (i := y * w + x) in *. clearbody i.
  destruct (Nat.ltb_spec (x + 1) w) as [Hx1|Hx1];
  destruct (Nat.ltb_spec (y + 1) h) as [Hy1|Hy1];
  destruct (Nat.ltb_spec 0 x) as [Hx0|Hx0];
  repeat first
    [ rewrite add_f32_lookup by (rewrite ?add_f32_length; lia)
    | rewrite get_f32_add_ne by lia ];
  repeat case_bool_decide; repeat case_decide;
  try lia; destruct_and?; subst; simpl (_ =? _)%Z; cbv iota;
  try reflexivity; try lia.
Qed.

Ltac no_mod :=
  repeat match goal with
         | H : context [_ `mod` _] |- _ => clear H
         end;
  repeat match goal with
         | |- context [?a `mod` ?b] => generalize (a `mod` b); intro
         end.

Lemma fs_received_bound (w k j : nat) : (0 ≤ fs_received w k j ≤ 16)%Z.
Proof. unfold fs_received. repeat case_bool_decide; lia. Qed.

Lemma fs_received_0 (w j : nat) : fs_received w 0 j = 0%Z.
Proof.
  unfold fs_received.
  destruct (decide (j = w)) as [->|Hne].
  - destruct (decide (w = 0)) as [->|Hw].
    + repeat case_bool_decide; simpl in *; lia.
    + rewrite Nat.Div0.mod_same. repeat case_bool_decide; lia.
  - repeat case_bool_decide; try lia.
    assert (j = 0) by lia. subst j. rewrite Nat.Div0.mod_0_l in *. lia.
Qed.

Lemma index_mod_succ (w x y : nat) :
  x < w → (y * w + x + 1) `mod` w = if x + 1 <? w then x + 1 else 0.
Proof.
  intros Hx. destruct (Nat.ltb_spec (x + 1) w) as [H|H].
  - rewrite <- Nat.add_assoc. apply index_mod. exact H.
  - replace (y * w + x + 1) with ((y + 1) * w + 0) by lia. apply index_mod. lia.
Qed.

Lemma index_mod_below (w x y : nat) :
  x < w → (y * w + x + w) `mod` w = x.
Proof.
  intros Hx. replace (y * w + x + w) with ((y + 1) * w + x) by lia.
  apply index_mod. exact Hx.
Qed.

Lemma index_mod_below_right (w x y : nat) :
  x < w → (y * w + x + w + 1) `mod` w = if x + 1 <? w then x + 1 else 0.
Proof.
  intros Hx. replace (y * w + x + w + 1) with ((y + 1) * w + x + 1) by lia.
  apply index_mod_succ. exact Hx.
Qed.

Lemma index_mod_below_left (w x y : nat) :
  x < w → (y * w + x + w - 1) `mod` w = if 0 <? x then x - 1 else w - 1.
Proof.
  intros Hx. destruct (Nat.ltb_spec 0 x) as [H|H].
  - replace (y * w + x + w - 1) with ((y + 1) * w + (x - 1)) by lia.
    apply index_mod. lia.
  - replace (y * w + x + w - 1) with (y * w + (w - 1)) by lia.
    apply index_mod. lia.
Qed.

Lemma last_row (w h x y : nat) :
  x < w → y < h → y + 1 < h ∨ w * h = y * w + x + w - x.
Proof. intros Hx Hy. destruct (decide (y + 1 < h)); [left; lia | right; nia]. Qed.

Lemma fs_weight_sum (w h x y j : nat) :
  x < w →
  fs_weight w h x y j =
  ((if bool_decide (j = y * w + x + 1 ∧ x + 1 < w)%nat then 7 else 0)
   + (if bool_decide (j = y * w + x + w - 1 ∧ y + 1 < h ∧ 0 < x)%nat then 3 else 0)
   + (if bool_decide (j = y * w + x + w ∧ y + 1 < h)%nat then 5 else 0)
   + (if bool_decide (j = y * w + x + w + 1 ∧ y + 1 < h ∧ x + 1 < w)%nat then 1 else 0))%Z.
Proof.
  intros Hx. unfold fs_weight. cbv zeta.
  set (k := y * w + x). clearbody k.
  repeat case_bool_decide; lia.
Qed.

Lemma fs_received_step (w h x y j : nat) :
  x < w → y < h → y * w + x < j → j < w * h →
  fs_received w (S (y * w + x)) j =
  (fs_received w (y * w + x) j + fs_weight w h x y j)%Z.
Proof.
  intros Hx Hy Hj Hjh. rewrite fs_weight_sum by exact Hx. unfold fs_received.
  pose proof (index_mod_succ w x y Hx) as M1.
  pose proof (index_mod_below w x y Hx) as M2.
  pose proof (index_mod_below_right w x y Hx) as M3.
  pose proof (index_mod_below_left w x y Hx) as M4.
  pose proof (last_row w h x y Hx Hy) as Hlast.
  assert (Hk : x ≤ y * w + x) by lia.
  set (k := y * w + x) in *. clearbody k.
  destruct (Nat.ltb_spec (x + 1) w) as [Hx1|Hx1];
  destruct (Nat.ltb_spec 0 x) as [Hx0|Hx0].
  all: assert (E7 : (if bool_decide (1 ≤ j `mod` w ∧ j ≤ S k)%nat then 7 else 0)%Z =
              ((if bool_decide (1 ≤ j `mod` w ∧ j ≤ k)%nat then 7 else 0)
               + (if bool_decide (j = k + 1 ∧ x + 1 < w)%nat then 7 else 0))%Z)
    by (destruct (decide (j = k + 1)) as [->|?];
        [rewrite ?M1|]; no_mod; repeat case_bool_decide; lia).
  all: assert (E3 : (if bool_decide (w ≤ j ∧ j `mod` w + 1 < w ∧ j + 1 < S k + w)%nat
                then 3 else 0)%Z =
              ((if bool_decide (w ≤ j ∧ j `mod` w + 1 < w ∧ j + 1 < k + w)%nat
                then 3 else 0)
               + (if bool_decide (j = k + w - 1 ∧ y + 1 < h ∧ 0 < x)%nat then 3 else 0))%Z)
    by (destruct (decide (j = k + w - 1)) as [->|?];
        [rewrite ?M4|]; no_mod; repeat case_bool_decide; lia).
  all: assert (E5 : (if bool_decide (w ≤ j ∧ j < S k + w)%nat then 5 else 0)%Z =
              ((if bool_decide (w ≤ j ∧ j < k + w)%nat then 5 else 0)
               + (if bool_decide (j = k + w ∧ y + 1 < h)%nat then 5 else 0))%Z)
    by (no_mod; repeat case_bool_decide; lia).
  all: assert (E1 : (if bool_decide (w ≤ j ∧ 1 ≤ j `mod` w ∧ j ≤ S k + w)%nat
                then 1 else 0)%Z =
              ((if bool_decide (w ≤ j ∧ 1 ≤ j `mod` w ∧ j ≤ k + w)%nat then 1 else 0)
               + (if bool_decide (j = k + w + 1 ∧ y + 1 < h ∧ x + 1 < w)%nat
                  then 1 else 0))%Z)
    by (destruct (decide (j = k + w + 1)) as [->|?];
        [rewrite ?M3|]; no_mod; repeat case_bool_decide; lia).
  all: rewrite E7, E3, E5, E1; ring.
Qed.

Lemma floyd_steinberg_after (w h : nat) (gray mask : list Z) :
  floyd_steinberg w h gray mask = (fs_after w h gray mask (h * w)).2.
Proof.
  unfold floyd_steinberg, fs_after.
  rewrite (for_nested_flat w h (λ x y, fs_pixel w h x y)). reflexivity.
Qed.

Lemma fs_after_S (w h : nat) (gray mask : list Z) (k : nat) :
  fs_after w h gray mask (S k) =
  fs_pixel w h (k `mod` w) (k `div` w) (fs_after w h gray mask k).
Proof. unfold fs_after. rewrite for_S. reflexivity. Qed.

Lemma fs_weight_range (w h x y j : nat) :
  (fs_weight w h x y j = 0 ∨ 1 ≤ fs_weight w h x y j ≤ 7)%Z.
Proof. unfold fs_weight. repeat case_bool_decide; lia. Qed.

Lemma fs_weight_target (w h x y j : nat) :
  x < w → y < h → fs_weight w h x y j ≠ 0%Z → y * w + x < j < w * h.
Proof.
  intros Hx Hy. unfold fs_weight. cbv zeta.
  assert (Hrow : y + 1 < h → y * w + x + w + (w - x) ≤ w * h) by nia.
  assert (Hw : y * w + x + (w - x) ≤ w * h) by nia.
  set (i := y * w + x) in *. clearbody i.
  repeat case_bool_decide; lia.
Qed.

Lemma fs_inv_init (w h : nat) (gray : list Z) :
  length gray = w * h → Forall (λ g, 0 ≤ g ≤ 255)%Z gray →
  fs_inv w h 0 (init_buf gray).
Proof.
  intros Hl Hb. split; [rewrite init_buf_length; exact Hl|].
  intros j _ Hj. rewrite fs_received_0.
  destruct (lookup_lt_is_Some_2 gray j ltac:(lia)) as [g Hg].
  rewrite Forall_lookup in Hb. specialize (Hb j g Hg).
  unfold get_f32. rewrite (init_buf_lookup gray j g Hg).
  destruct (fround_byte g Hb) as [-> Hf]. exact Hf.
Qed.

Lemma fs_inv_visit (w h k : nat) (buf : list number) :
  fs_inv w h k buf → k < w * h → f32_between (-128) 383 (get_f32 buf k).
Proof.
  intros [_ H] Hk. pose proof (fs_received_bound w k k).
  eapply f32_between_weaken; [| |apply (H k); lia]; lia.
Qed.

Lemma fs_inv_step (w h k : nat) (buf : list number) (mask : list Z) :
  fs_inv w h k buf → k < w * h →
  fs_inv w h (S k) (fs_pixel w h (k `mod` w) (k `div` w) (buf, mask)).1.
Proof.
  intros Hinv Hk. pose proof (fs_inv_visit w h k buf Hinv Hk) as Hold.
  destruct Hinv as [Hl Hb].
  assert (Hw : w ≠ 0) by (intros ->; lia).
  pose proof (Nat.mod_upper_bound k w Hw) as Hx.
  assert (Hy : k `div` w < h) by (apply Nat.Div0.div_lt_upper_bound; lia).
  pose proof (index_decompose w k) as Ek.
  set (x := k `mod` w) in *. set (y := k `div` w) in *.
  assert (Hlen : length (fs_pixel w h x y (buf, mask)).1 = w * h).
  { unfold fs_pixel. cbn [fst]. repeat case_match;
      rewrite ?add_f32_length; exact Hl. }
  split; [exact Hlen|].
  intros j Hj Hjh. unfold get_f32.
  rewrite (fs_pixel_buf w h x y buf mask j Hx Hy Hl). cbv zeta.
  rewrite Ek.
  destruct (quantize_error _ Hold) as (n & e & q & p & En & Ee & _ & He & Eq & Hq & Hp).
  rewrite Ee.
  assert (Hstep : fs_received w (S k) j = (fs_received w k j + fs_weight w h x y j)%Z)
    by (rewrite <- Ek; apply (fs_received_step w h x y j Hx Hy); lia).
  rewrite Hstep.
  pose proof (fs_received_bound w k j) as Hr.
  specialize (Hb j ltac:(lia) Hjh).
  destruct (fs_weight_range w h x y j) as [Hc|Hc].
  - rewrite Hc. simpl (_ =? _)%Z. cbv iota.
    rewrite Z.add_0_r. exact Hb.
  - destruct (Z.eqb_spec (fs_weight w h x y j) 0) as [E0|_]; [lia|].
    destruct (share_exact e q p (fs_weight w h x y j) He Eq Hq Hp Hc)
      as (a & -> & _ & Ha).
    cbn [default].
    eapply f32_between_weaken;
      [| |apply (add_fround_between (- 8 * fs_received w k j)
                   (255 + 8 * fs_received w k j) (8 * fs_weight w h x y j));
          [lia | lia | lia | exact Hb | lia]]; lia.
Qed.

Lemma fs_after_inv (w h : nat) (gray mask : list Z) (k : nat) :
  length gray = w * h → Forall (λ g, 0 ≤ g ≤ 255)%Z gray → k ≤ w * h →
  fs_inv w h k (fs_after w h gray mask k).1.
Proof.
  intros Hl Hb. induction k as [|k IH]; intros Hk.
  - apply fs_inv_init; assumption.
  - rewrite fs_after_S.
    destruct (fs_after w h gray mask k) as [buf m] eqn:E.
    apply fs_inv_step; [apply IH; lia | lia].
Qed.

Lemma fs_after_mask_length (w h : nat) (gray mask : list Z) (k : nat) :
  length (fs_after w h gray mask k).2 = length mask.
Proof.
  induction k as [|k IH]; [reflexivity|].
  rewrite fs_after_S, fs_pixel_mask, length_insert. exact IH.
Qed.

Lemma fs_after_mask (w h : nat) (gray mask : list Z) (k i : nat) :
  i < k → i < length mask →
  (fs_after w h gray mask k).2 !! i =
  Some (bit (quantize (get_f32 (fs_after w h gray mask i).1 i) =? 255)%Z).
Proof.
  intros Hik Hi. induction k as [|k IH]; [lia|].
  rewrite fs_after_S, fs_pixel_mask, index_decompose.
  destruct (decide (i = k)) as [->|Hne].
  - apply list_lookup_insert_eq. rewrite fs_after_mask_length. exact Hi.
  - rewrite list_lookup_insert_ne by auto. apply IH. lia.
Qed.

(** C1. Floyd–Steinberg.  The working buffer starts as a copy of the grayscale
    buffer, element by element, and each step of the scan goes on from the
    state the step before has left.  When the scan reaches pixel [(x, y)],
    with [old] the value of the working buffer there: the quantized value is 0
    if [old < 128] and 255 otherwise; the final mask holds 1 at the pixel exactly when the
    quantized value is 255; the step adds to the buffer, at the neighbours
    that are in bounds (all later in the scan), the shares 7/16 to the right,
    3/16 below left (only if [x > 0]), 5/16 below and 1/16 below right of
    [err = old - new] and changes nothing else; and each share is computed
    without rounding, so that the four shares add up to [err] exactly. *)
Theorem floyd_steinberg_diffusion (w h : nat) (gray : list Z) (x y : nat) :
  length gray = w * h → Forall (λ g, 0 ≤ g ≤ 255)%Z gray → x < w → y < h →
  let i := y * w + x in
  let st := fs_after w h gray (replicate (w * h) 0%Z) i in
  let old := get_f32 st.1 i in
  let newVal := quantize old in
  let err := sub old (of_Z newVal) in
  let share (k : Z) := div (mul err (of_Z k)) (of_Z 16) in
  (* the buffer is filled from [gray], and the scan chains the steps *)
  (let buf0 := (fs_after w h gray (replicate (w * h) 0%Z) 0).1 in
   length buf0 = length gray
   ∧ ∀ j g, gray !! j = Some g → buf0 !! j = Some (of_Z g))
  ∧ fs_after w h gray (replicate (w * h) 0%Z) (i + 1) = fs_pixel w h x y st
  (* quantization and mask *)
  ∧ (∃ n, old = Fin n ∧ newVal = (if (n <? 128 * one)%Z then 0 else 255)%Z)
  ∧ newVal = (if ltb old (of_Z 128) then 0 else 255)%Z
  ∧ floyd_steinberg w h gray (replicate (w * h) 0%Z) !! i
    = Some (if (newVal =? 255)%Z then 1 else 0)%Z
  (* distribution of the error *)
  ∧ (∀ j, (fs_pixel w h x y st).1 !! j =
          if (fs_weight w h x y j =? 0)%Z then st.1 !! j
          else Some (fround (add (get_f32 st.1 j) (share (fs_weight w h x y j)))))
  ∧ (∀ j, fs_weight w h x y j ≠ 0%Z → i < j < w * h)
  ∧ (x + 1 < w → fs_weight w h x y (i + 1) = 7%Z)
  ∧ (0 < x → y + 1 < h → fs_weight w h x y (i + w - 1) = 3%Z)
  ∧ (y + 1 < h → fs_weight w h x y (i + w) = 5%Z)
  ∧ (x + 1 < w → y + 1 < h → fs_weight w h x y (i + w + 1) = 1%Z)
  (* the shares are exact and add up to the error *)
  ∧ ∃ e a7 a3 a5 a1,
      err = Fin e ∧ share 7%Z = Fin a7 ∧ share 3%Z = Fin a3
      ∧ share 5%Z = Fin a5 ∧ share 1%Z = Fin a1
      ∧ (16 * a7 = 7 * e ∧ 16 * a3 = 3 * e ∧ 16 * a5 = 5 * e ∧ 16 * a1 = 1 * e)%Z
      ∧ (a7 + a3 + a5 + a1 = e)%Z.
Proof.
  intros Hl Hb Hx Hy i st old newVal err share.
  assert (Hi : i < w * h) by (unfold i; nia).
  pose proof (fs_after_inv w h gray (replicate (w * h) 0%Z) i Hl Hb ltac:(lia)) as Hinv.
  fold st in Hinv.
  pose proof (fs_inv_visit w h i st.1 Hinv Hi) as Hold. fold old in Hold.
  destruct (quantize_error old Hold) as (n & e & q & p & En & Ee & _ & He & Eq & Hq & Hp).
  fold newVal in Ee. fold err in Ee.
  split; [|split; [|split; [|split; [|split; [|split; [|split]]]]]].
  - cbv zeta. unfold fs_after. rewrite for_0. cbn [fst].
    split; [apply init_buf_length|].
    intros j g Hg. rewrite (init_buf_lookup gray j g Hg).
    rewrite Forall_lookup in Hb. specialize (Hb j g Hg).
    rewrite (proj1 (fround_byte g Hb)), (of_Z_byte g Hb). reflexivity.
  - rewrite Nat.add_1_r, fs_after_S. unfold i.
    rewrite index_mod, index_div by exact Hx. reflexivity.
  - exists n. split; [exact En|]. unfold newVal, quantize. rewrite En.
    rewrite (of_Z_byte 128) by lia. reflexivity.
  - reflexivity.
  - rewrite floyd_steinberg_after.
    rewrite fs_after_mask by (rewrite ?length_replicate; lia).
    fold st. fold old. fold newVal. destruct (newVal =? 255)%Z; reflexivity.
  - intros j. destruct st as [buf m] eqn:Est.
    apply (fs_pixel_buf w h x y buf m j Hx Hy). apply Hinv.
  - intros j Hj. apply (fs_weight_target w h x y j Hx Hy Hj).
  - unfold fs_weight. cbv zeta. fold i. clearbody i.
    repeat split; intros; repeat case_bool_decide; try lia.
    rewrite Ee.
    destruct (share_exact e q p 7 He Eq Hq Hp ltac:(lia)) as (a7 & E7 & H7 & _).
    destruct (share_exact e q p 3 He Eq Hq Hp ltac:(lia)) as (a3 & E3 & H3 & _).
    destruct (share_exact e q p 5 He Eq Hq Hp ltac:(lia)) as (a5 & E5 & H5 & _).
    destruct (share_exact e q p 1 He Eq Hq Hp ltac:(lia)) as (a1 & E1 & H1 & _).
    exists e, a7, a3, a5, a1. unfold share. rewrite Ee.
    repeat split; auto; lia.
Qed.

Lemma floyd_steinberg_diffusion_witness :
  (fs_after 3 2 [10; 200; 100; 50; 180; 90]%Z (replicate (3 * 2) 0%Z) 0).1 !! 4
  = Some (of_Z 180)
  ∧ fs_after 3 2 [10; 200; 100; 50; 180; 90]%Z (replicate (3 * 2) 0%Z) (1 * 3 + 1 + 1)
    = fs_pixel 3 2 1 1
        (fs_after 3 2 [10; 200; 100; 50; 180; 90]%Z (replicate (3 * 2) 0%Z) (1 * 3 + 1))
  ∧ floyd_steinberg 3 2 [10; 200; 100; 50; 180; 90]%Z (replicate (3 * 2) 0%Z)
      !! (1 * 3 + 1)
    = Some (if (quantize (get_f32
         (fs_after 3 2 [10; 200; 100; 50; 180; 90]%Z (replicate (3 * 2) 0%Z)
            (1 * 3 + 1)).1 (1 * 3 + 1)) =? 255)%Z then 1 else 0)%Z.
Proof.
  refine (match floyd_steinberg_diffusion 3 2 [10; 200; 100; 50; 180; 90]%Z 1 1 _ _ _ _
          with
          | conj (conj _ H0) (conj Hs (conj _ (conj _ (conj Hm _)))) =>
              conj (H0 4 180%Z eq_refl) (conj Hs Hm)
          end);
    [reflexivity | repeat constructor; lia | lia | lia].
Defined.

(** ** Atkinson *)

Lemma atkinson_pixel_buf (w h x y : nat) (buf : list number) (mask : list Z) (j : nat) :
  x < w → y < h → length buf = w * h →
  let old := get_f32 buf (y * w + x) in
  let err := div (sub old (of_Z (quantize old))) (of_Z 8) in
  (atkinson_pixel w h x y (buf, mask)).1 !! j =
  if (atkinson_weight w h x y j =? 0)%Z then buf !! j
  else Some (fround (add (get_f32 buf j) err)).
Proof.
  intros Hx Hy Hl old err.
  assert (Hi : y * w + x < length buf) by (rewrite Hl; nia).
  assert (Hcol : x + 1 < w → y * w + x + 1 < length buf) by (rewrite Hl; nia).
  assert (Hcol2 : x + 2 < w → y * w + x + 2 < length buf) by (rewrite Hl; nia).
  assert (Hrow : y + 1 < h → y * w + x + w < length buf) by (rewrite Hl; nia).
  assert (Hrow1 : y + 1 < h → x + 1 < w → y * w + x + w + 1 < length buf)
    by (rewrite Hl; nia).
  assert (Hrow2 : y + 2 < h → y * w + x + 2 * w < length buf) by (rewrite Hl; nia).
  unfold atkinson_pixel, atkinson_weight. cbn [fst]. fold old. fold err.
  set (i := y * w + x) in *. clearbody i.
  destruct (Nat.ltb_spec (x + 1) w) as [Hx1|Hx1];
  destruct (Nat.ltb_spec (x + 2) w) as [Hx2|Hx2];
  destruct (Nat.ltb_spec (y + 1) h) as [Hy1|Hy1];
  destruct (Nat.ltb_spec (y + 2) h) as [Hy2|Hy2];
  destruct (Nat.ltb_spec 0 x) as [Hx0|Hx0];
  try lia;
  repeat first
    [ rewrite add_f32_lookup by (rewrite ?add_f32_length; lia)
    | rewrite get_f32_add_ne by lia ];
  repeat case_bool_decide; repeat case_decide;
  try lia; destruct_and?; subst; simpl (_ =? _)%Z; cbv iota;
  try reflexivity; try lia.
Qed.

Lemma atkinson_received_bound (w k j : nat) : (0 ≤ atkinson_received w k j ≤ 6)%Z.
Proof. unfold atkinson_received. repeat case_bool_decide; lia. Qed.

Lemma atkinson_received_0 (w j : nat) : atkinson_received w 0 j = 0%Z.
Proof.
  unfold atkinson_received.
  assert (H0 : 0 `mod` w = 0) by apply Nat.Div0.mod_0_l.
  assert (H1 : 1 `mod` w < 2 ∧ (w = 1 → 1 `mod` w = 0)).
  { destruct w as [|[|w]]; [simpl; lia | simpl; lia |].
    rewrite Nat.mod_small by lia. lia. }
  assert (Hw : w `mod` w = 0) by apply Nat.Div0.mod_same.
  destruct (decide (j = 0)) as [->|?];
    [rewrite H0; clear H0 H1 Hw; repeat case_bool_decide; lia|].
  destruct (decide (j = 1)) as [->|?];
    [clear H0 Hw; revert H1; generalize (1 `mod` w); intros;
     repeat case_bool_decide; lia|].
  destruct (decide (j = w)) as [->|?];
    [rewrite Hw; clear H0 H1 Hw; repeat case_bool_decide; lia|].
  no_mod. repeat case_bool_decide; lia.
Qed.

Lemma index_mod_succ2 (w x y : nat) :
  x < w →
  (x + 2 < w → (y * w + x + 2) `mod` w = x + 2)
  ∧ (¬ x + 2 < w → (y * w + x + 2) `mod` w < 2).
Proof.
  intros Hx. split; intros H.
  - rewrite <- Nat.add_assoc. apply index_mod. exact H.
  - destruct (decide (w = 1)) as [->|Hw].
    + rewrite Nat.mod_1_r. lia.
    + replace (y * w + x + 2) with ((y + 1) * w + (x + 2 - w)) by lia.
      rewrite index_mod by lia. lia.
Qed.

Lemma last_rows (w h x y : nat) :
  x < w → y < h → y + 2 < h ∨ w * h ≤ y * w + x + 2 * w - x.
Proof. intros Hx Hy. destruct (decide (y + 2 < h)); [left; lia | right; nia]. Qed.

Lemma atkinson_weight_sum (w h x y j : nat) :
  x < w →
  atkinson_weight w h x y j =
  ((if bool_decide (j = y * w + x + 2 ∧ x + 2 < w)%nat then 1 else 0)
   + (if bool_decide (j = y * w + x + 1 ∧ x + 1 < w)%nat then 1 else 0)
   + (if bool_decide (j = y * w + x + w - 1 ∧ y + 1 < h ∧ 0 < x)%nat then 1 else 0)
   + (if bool_decide (j = y * w + x + w ∧ y + 1 < h)%nat then 1 else 0)
   + (if bool_decide (j = y * w + x + w + 1 ∧ y + 1 < h ∧ x + 1 < w)%nat then 1 else 0)
   + (if bool_decide (j = y * w + x + 2 * w ∧ y + 2 < h)%nat then 1 else 0))%Z.
Proof.
  intros Hx. unfold atkinson_weight. cbv zeta.
  set (k := y * w + x). clearbody k.
  repeat case_bool_decide; lia.
Qed.

Lemma atkinson_received_step (w h x y j : nat) :
  x < w → y < h → y * w + x < j → j < w * h →
  atkinson_received w (S (y * w + x)) j =
  (atkinson_received w (y * w + x) j + atkinson_weight w h x y j)%Z.
Proof.
  intros Hx Hy Hj Hjh. rewrite atkinson_weight_sum by exact Hx.
  unfold atkinson_received.
  pose proof (index_mod_succ w x y Hx) as M1.
  pose proof (index_mod_below w x y Hx) as M2.
  pose proof (index_mod_below_right w x y Hx) as M3.
  pose proof (index_mod_below_left w x y Hx) as M4.
  destruct (index_mod_succ2 w x y Hx) as [M5 M6].
  pose proof (last_row w h x y Hx Hy) as Hlast.
  pose proof (last_rows w h x y Hx Hy) as Hlast2.
  assert (Hk : x ≤ y * w + x) by lia.
  set (k := y * w + x) in *. clearbody k.
  destruct (Nat.ltb_spec (x + 1) w) as [Hx1|Hx1];
  destruct (Nat.ltb_spec 0 x) as [Hx0|Hx0].
  all: assert (E2 : (if bool_decide (2 ≤ j `mod` w ∧ j ≤ S k + 1)%nat then 1 else 0)%Z =
              ((if bool_decide (2 ≤ j `mod` w ∧ j ≤ k + 1)%nat then 1 else 0)
               + (if bool_decide (j = k + 2 ∧ x + 2 < w)%nat then 1 else 0))%Z)
    by (destruct (decide (j = k + 2)) as [->|?];
        [destruct (decide (x + 2 < w));
         [rewrite M5 by assumption | specialize (M6 ltac:(assumption)); revert M6]|];
        no_mod; intros; repeat case_bool_decide; lia).
  all: assert (E7 : (if bool_decide (1 ≤ j `mod` w ∧ j ≤ S k)%nat then 1 else 0)%Z =
              ((if bool_decide (1 ≤ j `mod` w ∧ j ≤ k)%nat then 1 else 0)
               + (if bool_decide (j = k + 1 ∧ x + 1 < w)%nat then 1 else 0))%Z)
    by (destruct (decide (j = k + 1)) as [->|?];
        [rewrite ?M1|]; no_mod; repeat case_bool_decide; lia).
  all: assert (E3 : (if bool_decide (w ≤ j ∧ j `mod` w + 1 < w ∧ j + 1 < S k + w)%nat
                then 1 else 0)%Z =
              ((if bool_decide (w ≤ j ∧ j `mod` w + 1 < w ∧ j + 1 < k + w)%nat
                then 1 else 0)
               + (if bool_decide (j = k + w - 1 ∧ y + 1 < h ∧ 0 < x)%nat then 1 else 0))%Z)
    by (destruct (decide (j = k + w - 1)) as [->|?];
        [rewrite ?M4|]; no_mod; repeat case_bool_decide; lia).
  all: assert (E5 : (if bool_decide (w ≤ j ∧ j < S k + w)%nat then 1 else 0)%Z =
              ((if bool_decide (w ≤ j ∧ j < k + w)%nat then 1 else 0)
               + (if bool_decide (j = k + w ∧ y + 1 < h)%nat then 1 else 0))%Z)
    by (no_mod; repeat case_bool_decide; lia).
  all: assert (E1 : (if bool_decide (w ≤ j ∧ 1 ≤ j `mod` w ∧ j ≤ S k + w)%nat
                then 1 else 0)%Z =
              ((if bool_decide (w ≤ j ∧ 1 ≤ j `mod` w ∧ j ≤ k + w)%nat then 1 else 0)
               + (if bool_decide (j = k + w + 1 ∧ y + 1 < h ∧ x + 1 < w)%nat
                  then 1 else 0))%Z)
    by (destruct (decide (j = k + w + 1)) as [->|?];
        [rewrite ?M3|]; no_mod; repeat case_bool_decide; lia).
  all: assert (E6 : (if bool_decide (2 * w ≤ j ∧ j < S k + 2 * w)%nat then 1 else 0)%Z =
              ((if bool_decide (2 * w ≤ j ∧ j < k + 2 * w)%nat then 1 else 0)
               + (if bool_decide (j = k + 2 * w ∧ y + 2 < h)%nat then 1 else 0))%Z)
    by (no_mod; repeat case_bool_decide; lia).
  all: rewrite E2, E7, E3, E5, E1, E6; ring.
Qed.

Lemma atkinson_steps (w h : nat) (gray mask : list Z) :
  atkinson w h gray mask = (atkinson_after w h gray mask (h * w)).2.
Proof.
  unfold atkinson, atkinson_after.
  rewrite (for_nested_flat w h (λ x y, atkinson_pixel w h x y)). reflexivity.
Qed.

Lemma atkinson_after_S (w h : nat) (gray mask : list Z) (k : nat) :
  atkinson_after w h gray mask (S k) =
  atkinson_pixel w h (k `mod` w) (k `div` w) (atkinson_after w h gray mask k).
Proof. unfold atkinson_after. rewrite for_S. reflexivity. Qed.

Lemma atkinson_weight_range (w h x y j : nat) :
  (atkinson_weight w h x y j = 0 ∨ atkinson_weight w h x y j = 1)%Z.
Proof. unfold atkinson_weight. repeat case_bool_decide; lia. Qed.

Lemma atkinson_weight_target (w h x y j : nat) :
  x < w → y < h → atkinson_weight w h x y j ≠ 0%Z → y * w + x < j < w * h.
Proof.
  intros Hx Hy. unfold atkinson_weight. cbv zeta.
  assert (Hrow : y + 1 < h → y * w + x + w + (w - x) ≤ w * h) by nia.
  assert (Hrow2 : y + 2 < h → y * w + x + 2 * w + (w - x) ≤ w * h) by nia.
  assert (Hw : y * w + x + (w - x) ≤ w * h) by nia.
  set (i := y * w + x) in *. clearbody i.
  repeat case_bool_decide; lia.
Qed.

Lemma atkinson_inv_init (w h : nat) (gray : list Z) :
  length gray = w * h → Forall (λ g, 0 ≤ g ≤ 255)%Z gray →
  atkinson_inv w h 0 (init_buf gray).
Proof.
  intros Hl Hb. split; [rewrite init_buf_length; exact Hl|].
  intros j _ Hj. rewrite atkinson_received_0.
  destruct (lookup_lt_is_Some_2 gray j ltac:(lia)) as [g Hg].
  rewrite Forall_lookup in Hb. specialize (Hb j g Hg).
  unfold get_f32. rewrite (init_buf_lookup gray j g Hg).
  destruct (fround_byte g Hb) as [-> Hf]. exact Hf.
Qed.

Lemma atkinson_inv_visit (w h k : nat) (buf : list number) :
  atkinson_inv w h k buf → k < w * h → f32_between (-128) 383 (get_f32 buf k).
Proof.
  intros [_ H] Hk. pose proof (atkinson_received_bound w k k).
  eapply f32_between_weaken; [| |apply (H k); lia]; lia.
Qed.

Lemma atkinson_inv_step (w h k : nat) (buf : list number) (mask : list Z) :
  atkinson_inv w h k buf → k < w * h →
  atkinson_inv w h (S k) (atkinson_pixel w h (k `mod` w) (k `div` w) (buf, mask)).1.
Proof.
  intros Hinv Hk. pose proof (atkinson_inv_visit w h k buf Hinv Hk) as Hold.
  destruct Hinv as [Hl Hb].
  assert (Hw : w ≠ 0) by (intros ->; lia).
  pose proof (Nat.mod_upper_bound k w Hw) as Hx.
  assert (Hy : k `div` w < h) by (apply Nat.Div0.div_lt_upper_bound; lia).
  pose proof (index_decompose w k) as Ek.
  set (x := k `mod` w) in *. set (y := k `div` w) in *.
  assert (Hlen : length (atkinson_pixel w h x y (buf, mask)).1 = w * h).
  { unfold atkinson_pixel. cbn [fst]. repeat case_match;
      rewrite ?add_f32_length; exact Hl. }
  split; [exact Hlen|].
  intros j Hj Hjh. unfold get_f32.
  rewrite (atkinson_pixel_buf w h x y buf mask j Hx Hy Hl). cbv zeta.
  rewrite Ek.
  destruct (quantize_error _ Hold) as (n & e & q & p & En & Ee & _ & He & Eq & Hq & Hp).
  rewrite Ee.
  assert (Hstep : atkinson_received w (S k) j = (atkinson_received w k j + atkinson_weight w h x y j)%Z)
    by (rewrite <- Ek; apply (atkinson_received_step w h x y j Hx Hy); lia).
  rewrite Hstep.
  pose proof (atkinson_received_bound w k j) as Hr.
  specialize (Hb j ltac:(lia) Hjh).
  destruct (atkinson_weight_range w h x y j) as [Hc|Hc]; rewrite Hc.
  - simpl (_ =? _)%Z. cbv iota. rewrite Z.add_0_r. exact Hb.
  - simpl (_ =? _)%Z. cbv iota.
    destruct (eighth_exact e q p He Eq Hq Hp) as (a & -> & _ & Ha).
    cbn [default].
    eapply f32_between_weaken;
      [| |apply (add_fround_between (- 16 * atkinson_received w k j)
                   (255 + 16 * atkinson_received w k j) 16);
          [lia | lia | lia | exact Hb | lia]]; lia.
Qed.

Lemma atkinson_after_inv (w h : nat) (gray mask : list Z) (k : nat) :
  length gray = w * h → Forall (λ g, 0 ≤ g ≤ 255)%Z gray → k ≤ w * h →
  atkinson_inv w h k (atkinson_after w h gray mask k).1.
Proof.
  intros Hl Hb. induction k as [|k IH]; intros Hk.
  - apply atkinson_inv_init; assumption.
  - rewrite atkinson_after_S.
    destruct (atkinson_after w h gray mask k) as [buf m] eqn:E.
    apply atkinson_inv_step; [apply IH; lia | lia].
Qed.

Lemma atkinson_after_mask_length (w h : nat) (gray mask : list Z) (k : nat) :
  length (atkinson_after w h gray mask k).2 = length mask.
Proof.
  induction k as [|k IH]; [reflexivity|].
  rewrite atkinson_after_S, atkinson_pixel_mask, length_insert. exact IH.
Qed.

Lemma atkinson_after_mask (w h : nat) (gray mask : list Z) (k i : nat) :
  i < k → i < length mask →
  (atkinson_after w h gray mask k).2 !! i =
  Some (bit (quantize (get_f32 (atkinson_after w h gray mask i).1 i) =? 255)%Z).
Proof.
  intros Hik Hi. induction k as [|k IH]; [lia|].
  rewrite atkinson_after_S, atkinson_pixel_mask, index_decompose.
  destruct (decide (i = k)) as [->|Hne].
  - apply list_lookup_insert_eq. rewrite atkinson_after_mask_length. exact Hi.
  - rewrite list_lookup_insert_ne by auto. apply IH. lia.
Qed.

(** C2. Atkinson.  With the same buffer as Floyd–Steinberg (a copy of the
    grayscale buffer, element by element, that each step of the scan takes
    from the step before) and the same threshold of 128, the step at pixel
    [(x, y)] adds [err = (old - new) / 8],
    undivided, to each neighbour in bounds among right, second right, below
    left (only if [x > 0]), below, below right and second below, and changes
    nothing else; the eighth is computed without rounding, so that with all six
    neighbours in bounds exactly 6/8 of the quantization error is passed on and
    2/8 is dropped. *)
Theorem atkinson_diffusion (w h : nat) (gray : list Z) (x y : nat) :
  length gray = w * h → Forall (λ g, 0 ≤ g ≤ 255)%Z gray → x < w → y < h →
  let i := y * w + x in
  let st := atkinson_after w h gray (replicate (w * h) 0%Z) i in
  let old := get_f32 st.1 i in
  let newVal := quantize old in
  let err := div (sub old (of_Z newVal)) (of_Z 8) in
  (* the buffer is filled from [gray], and the scan chains the steps *)
  (let buf0 := (atkinson_after w h gray (replicate (w * h) 0%Z) 0).1 in
   length buf0 = length gray
   ∧ ∀ j g, gray !! j = Some g → buf0 !! j = Some (of_Z g))
  ∧ atkinson_after w h gray (replicate (w * h) 0%Z) (i + 1) = atkinson_pixel w h x y st
  (* quantization and mask *)
  ∧ (∃ n, old = Fin n ∧ newVal = (if (n <? 128 * one)%Z then 0 else 255)%Z)
  ∧ newVal = (if ltb old (of_Z 128) then 0 else 255)%Z
  ∧ atkinson w h gray (replicate (w * h) 0%Z) !! i
    = Some (if (newVal =? 255)%Z then 1 else 0)%Z
  (* distribution of the error *)
  ∧ (∀ j, (atkinson_pixel w h x y st).1 !! j =
          if (atkinson_weight w h x y j =? 0)%Z then st.1 !! j
          else Some (fround (add (get_f32 st.1 j) err)))
  ∧ (∀ j, atkinson_weight w h x y j ≠ 0%Z → i < j < w * h)
  ∧ (x + 1 < w → atkinson_weight w h x y (i + 1) = 1%Z)
  ∧ (x + 2 < w → atkinson_weight w h x y (i + 2) = 1%Z)
  ∧ (0 < x → y + 1 < h → atkinson_weight w h x y (i + w - 1) = 1%Z)
  ∧ (y + 1 < h → atkinson_weight w h x y (i + w) = 1%Z)
  ∧ (x + 1 < w → y + 1 < h → atkinson_weight w h x y (i + w + 1) = 1%Z)
  ∧ (y + 2 < h → atkinson_weight w h x y (i + 2 * w) = 1%Z)
  (* the eighth is exact: six of them are 6/8 of the error, 2/8 is left *)
  ∧ ∃ e a,
      sub old (of_Z newVal) = Fin e ∧ err = Fin a
      ∧ (8 * a = e ∧ 8 * (6 * a) = 6 * e ∧ 8 * (e - 6 * a) = 2 * e)%Z.
Proof.
  intros Hl Hb Hx Hy i st old newVal err.
  assert (Hi : i < w * h) by (unfold i; nia).
  pose proof (atkinson_after_inv w h gray (replicate (w * h) 0%Z) i Hl Hb ltac:(lia))
    as Hinv.
  fold st in Hinv.
  pose proof (atkinson_inv_visit w h i st.1 Hinv Hi) as Hold. fold old in Hold.
  destruct (quantize_error old Hold) as (n & e & q & p & En & Ee & _ & He & Eq & Hq & Hp).
  fold newVal in Ee.
  split; [|split; [|split; [|split; [|split; [|split; [|split]]]]]].
  - cbv zeta. unfold atkinson_after. rewrite for_0. cbn [fst].
    split; [apply init_buf_length|].
    intros j g Hg. rewrite (init_buf_lookup gray j g Hg).
    rewrite Forall_lookup in Hb. specialize (Hb j g Hg).
    rewrite (proj1 (fround_byte g Hb)), (of_Z_byte g Hb). reflexivity.
  - rewrite Nat.add_1_r, atkinson_after_S. unfold i.
    rewrite index_mod, index_div by exact Hx. reflexivity.
  - exists n. split; [exact En|]. unfold newVal, quantize. rewrite En.
    rewrite (of_Z_byte 128) by lia. reflexivity.
  - reflexivity.
  - rewrite atkinson_steps.
    rewrite atkinson_after_mask by (rewrite ?length_replicate; lia).
    fold st. fold old. fold newVal. destruct (newVal =? 255)%Z; reflexivity.
  - intros j. destruct st as [buf m] eqn:Est.
    apply (atkinson_pixel_buf w h x y buf m j Hx Hy). apply Hinv.
  - intros j Hj. apply (atkinson_weight_target w h x y j Hx Hy Hj).
  - unfold atkinson_weight. cbv zeta. fold i. clearbody i.
    repeat split; intros; repeat case_bool_decide; try lia.
    destruct (eighth_exact e q p He Eq Hq Hp) as (a & Ea & Ha & _).
    exists e, a. unfold err. rewrite Ee.
    repeat split; auto; lia.
Qed.

Lemma atkinson_diffusion_witness :
  (atkinson_after 4 3 [10; 200; 100; 50; 180; 90; 30; 220; 128; 127; 255; 0]%Z
     (replicate (4 * 3) 0%Z) 0).1 !! 7 = Some (of_Z 220)
  ∧ atkinson_after 4 3 [10; 200; 100; 50; 180; 90; 30; 220; 128; 127; 255; 0]%Z
      (replicate (4 * 3) 0%Z) (1 * 4 + 1 + 1)
    = atkinson_pixel 4 3 1 1
        (atkinson_after 4 3 [10; 200; 100; 50; 180; 90; 30; 220; 128; 127; 255; 0]%Z
           (replicate (4 * 3) 0%Z) (1 * 4 + 1))
  ∧ atkinson 4 3 [10; 200; 100; 50; 180; 90; 30; 220; 128; 127; 255; 0]%Z
      (replicate (4 * 3) 0%Z) !! (1 * 4 + 1)
    = Some (if (quantize (get_f32
         (atkinson_after 4 3 [10; 200; 100; 50; 180; 90; 30; 220; 128; 127; 255; 0]%Z
            (replicate (4 * 3) 0%Z) (1 * 4 + 1)).1 (1 * 4 + 1)) =? 255)%Z
            then 1 else 0)%Z.
Proof.
  refine (match atkinson_diffusion 4 3 [10; 200; 100; 50; 180; 90; 30; 220; 128; 127; 255; 0]%Z 1 1 _ _ _ _
          with
          | conj (conj _ H0) (conj Hs (conj _ (conj _ (conj Hm _)))) =>
              conj (H0 7 220%Z eq_refl) (conj Hs Hm)
          end);
    [reflexivity | repeat constructor; lia | lia | lia].
Defined.

(** ** Luma extraction *)

Lemma round64_fin_eq (a b n : Z) : round64 a b = Fin n → n = round_to 53 0 a b.
Proof.
  unfold round64, finish. destruct (_ <=? _)%Z; [discriminate|]. congruence.
Qed.

Lemma Math_round_fin (n : Z) :
  Math_round (Fin n) = Fin ((2 * n + one) / (2 * one) * one).
Proof.
  unfold Math_round. rewrite Z.shiftr_div_pow2 by lia. reflexivity.
Qed.

Lemma of_Z_inj_small (a b : Z) :
  (Z.abs a < 2 ^ 53 → Z.abs b < 2 ^ 53 → of_Z a = of_Z b → a = b)%Z.
Proof.
  intros Ha Hb H. rewrite !of_Z_exact in H by assumption.
  injection H as H. pose proof one_pos.
  apply Z.mul_reg_r in H; [exact H | lia].
Qed.

(** The three coefficients of [toLuma], as the decimal literals round. *)
Lemma luma_coefficient (a : Z) :
  (0 ≤ a ≤ 10000)%Z →
  dec a 10000 = Fin (round_to 53 0 (a * one) 10000)
  ∧ (0 ≤ round_to 53 0 (a * one) 10000 ≤ one)%Z.
Proof.
  intros Ha. unfold dec. pose proof one_pos.
  assert (Hb : (0 * one * 10000 ≤ a * one ≤ 1 * one * 10000)%Z)
    by (set (o := one) in *; clearbody o; nia).
  destruct (between_fin _ _ _ (round64_between_int (a * one) 10000 0 1
              ltac:(lia) ltac:(apply small_abs; lia) ltac:(apply small_abs; lia)
              Hb)) as (c & Ec & Hc).
  rewrite <- (round64_fin_eq _ _ _ Ec). split; [exact Ec | lia].
Qed.

(** A coefficient times a channel byte. *)
Lemma luma_term (c v : Z) :
  (0 ≤ c ≤ one → 0 ≤ v ≤ 255 →
   mul (Fin c) (of_Z v) = Fin (round_to 53 0 (c * (v * one)) one)
   ∧ 0 ≤ round_to 53 0 (c * (v * one)) one ≤ 255 * one)%Z.
Proof.
  intros Hc Hv. rewrite of_Z_byte by exact Hv. unfold mul. pose proof one_pos as Ho.
  assert (Hb : (0 * one * one ≤ c * (v * one) ≤ 255 * one * one)%Z).
  { set (o := one) in *. clearbody o.
    assert (0 ≤ c * v ≤ o * 255)%Z.
    { split; [apply Z.mul_nonneg_nonneg; lia | apply Z.mul_le_mono_nonneg; lia]. }
    assert (0 ≤ c * v * o ≤ o * 255 * o)%Z.
    { split; [apply Z.mul_nonneg_nonneg; lia | apply Z.mul_le_mono_nonneg_r; lia]. }
    replace (c * (v * o))%Z with (c * v * o)%Z by ring. lia. }
  destruct (between_fin _ _ _ (round64_between_int (c * (v * one)) one 0 255
              Ho ltac:(apply small_abs; lia) ltac:(apply small_abs; lia) Hb))
    as (p & Ep & Hp).
  rewrite <- (round64_fin_eq _ _ _ Ep). split; [exact Ep | lia].
Qed.

(** A sum of two bounded terms. *)
Lemma luma_sum (a b hi1 hi2 : Z) :
  (0 ≤ a ≤ hi1 * one → 0 ≤ b ≤ hi2 * one → 0 ≤ hi1 → 0 ≤ hi2 → hi1 + hi2 ≤ 1000 →
   add (Fin a) (Fin b) = Fin (round_to 53 0 (a + b) 1)
   ∧ 0 ≤ round_to 53 0 (a + b) 1 ≤ (hi1 + hi2) * one)%Z.
Proof.
  intros Ha Hb H1 H2 H3. unfold add. pose proof one_pos as Ho.
  destruct (between_fin _ _ _ (round64_between_int (a + b) 1 0 (hi1 + hi2)
              ltac:(lia) ltac:(apply small_abs; lia) ltac:(apply small_abs; lia)
              ltac:(lia))) as (s & Es & Hs).
  rewrite <- (round64_fin_eq _ _ _ Es). split; [exact Es | lia].
Qed.

(** [toLuma] on three bytes, stage by stage. *)
Lemma toLuma_stages (r g b : Z) :
  (0 ≤ r ≤ 255 → 0 ≤ g ≤ 255 → 0 ≤ b ≤ 255 →
   let cr := round_to 53 0 (2126 * one) 10000 in
   let cg := round_to 53 0 (7152 * one) 10000 in
   let cb := round_to 53 0 (722 * one) 10000 in
   let pr := round_to 53 0 (cr * (r * one)) one in
   let pg := round_to 53 0 (cg * (g * one)) one in
   let pb := round_to 53 0 (cb * (b * one)) one in
   let s := round_to 53 0 (round_to 53 0 (pr + pg) 1 + pb) 1 in
   toLuma (of_Z r) (of_Z g) (of_Z b) = of_Z ((2 * s + one) / (2 * one))
   ∧ 0 ≤ (2 * s + one) / (2 * one) ≤ 765)%Z.
Proof.
  intros Hr Hg Hb.
  destruct (luma_coefficient 2126 ltac:(lia)) as (Er & Hcr).
  destruct (luma_coefficient 7152 ltac:(lia)) as (Eg & Hcg).
  destruct (luma_coefficient 722 ltac:(lia)) as (Eb & Hcb).
  intros cr cg cb pr pg pb s. unfold toLuma. rewrite Er, Eg, Eb.
  fold cr cg cb in Hcr, Hcg, Hcb |- *.
  destruct (luma_term cr r Hcr Hr) as (-> & Hpr).
  destruct (luma_term cg g Hcg Hg) as (-> & Hpg).
  destruct (luma_term cb b Hcb Hb) as (-> & Hpb).
  fold pr pg pb in Hpr, Hpg, Hpb |- *.
  destruct (luma_sum pr pg 255 255 Hpr Hpg ltac:(lia) ltac:(lia) ltac:(lia))
    as (-> & Hs1).
  destruct (luma_sum _ pb (255 + 255) 255 Hs1 Hpb ltac:(lia) ltac:(lia) ltac:(lia))
    as (-> & Hs2).
  fold s in Hs2 |- *. clearbody s.
  rewrite Math_round_fin. pose proof one_pos as Ho.
  assert (Hri : (0 ≤ (2 * s + one) / (2 * one) ≤ 765)%Z).
  { split; [apply Z.div_pos; lia|].
    apply Z.lt_succ_r, Z.div_lt_upper_bound; [lia|].
    set (o := one) in *. clearbody o. lia. }
  split; [|exact Hri].
  rewrite of_Z_exact by (apply small_abs; lia). reflexivity.
Qed.

(** The luma of three bytes grows with each of them. *)
Theorem toLuma_monotone (r g b r' g' b' : Z) :
  (0 ≤ r ≤ r' → r' ≤ 255 → 0 ≤ g ≤ g' → g' ≤ 255 → 0 ≤ b ≤ b' → b' ≤ 255 →
   ∃ l l', toLuma (of_Z r) (of_Z g) (of_Z b) = of_Z l
           ∧ toLuma (of_Z r') (of_Z g') (of_Z b') = of_Z l'
           ∧ l ≤ l')%Z.
Proof.
  intros Hr Hr' Hg Hg' Hb Hb'.
  destruct (toLuma_stages r g b ltac:(lia) ltac:(lia) ltac:(lia)) as (E1 & _).
  destruct (toLuma_stages r' g' b' ltac:(lia) ltac:(lia) ltac:(lia)) as (E2 & _).
  destruct (luma_coefficient 2126 ltac:(lia)) as (_ & Hcr).
  destruct (luma_coefficient 7152 ltac:(lia)) as (_ & Hcg).
  destruct (luma_coefficient 722 ltac:(lia)) as (_ & Hcb).
  eexists _, _. split; [exact E1|]. split; [exact E2|].
  set (cr := round_to 53 0 (2126 * one) 10000) in *.
  set (cg := round_to 53 0 (7152 * one) 10000) in *.
  set (cb := round_to 53 0 (722 * one) 10000) in *.
  clearbody cr cg cb. pose proof one_pos as Ho.
  assert (M : ∀ c v v', (0 ≤ c → 0 ≤ v ≤ v' →
            round_to 53 0 (c * (v * one)) one ≤ round_to 53 0 (c * (v' * one)) one)%Z).
  { intros c v v' Hc Hv. apply round_to_mono; try lia.
    apply Z.mul_le_mono_nonneg_r; [lia|].
    apply Z.mul_le_mono_nonneg_l; [lia|].
    apply Z.mul_le_mono_nonneg_r; lia. }
  pose proof (M cr r r' ltac:(lia) ltac:(lia)).
  pose proof (M cg g g' ltac:(lia) ltac:(lia)).
  pose proof (M cb b b' ltac:(lia) ltac:(lia)).
  apply Z.div_le_mono; [lia|].
  apply Z.add_le_mono_r, Z.mul_le_mono_nonneg_l; [lia|].
  apply round_to_mono; try lia.
  assert (round_to 53 0 (round_to 53 0 (cr * (r * one)) one
                          + round_to 53 0 (cg * (g * one)) one) 1
          ≤ round_to 53 0 (round_to 53 0 (cr * (r' * one)) one
                           + round_to 53 0 (cg * (g' * one)) one) 1)%Z
    by (apply round_to_mono; lia).
  lia.
Qed.

Lemma toLuma_monotone_witness :
  ∃ l l', toLuma (of_Z 10) (of_Z 20) (of_Z 30) = of_Z l
          ∧ toLuma (of_Z 10) (of_Z 21) (of_Z 30) = of_Z l' ∧ (l ≤ l')%Z.
Proof. apply toLuma_monotone; lia. Defined.

Lemma one_split : one = (2 ^ 40 * 2 ^ 1034)%Z.
Proof. reflexivity. Qed.

Lemma scaled_representable (m : Z) :
  (Z.abs m < 2 ^ 53 → representable 53 0 (m * 2 ^ 1034))%Z.
Proof. intros H. apply representable_intro; lia. Qed.

(** A decimal coefficient lies between two neighbours on the 2^-40 grid. *)
Lemma coefficient_bracket (a m : Z) :
  (0 ≤ m < 2 ^ 40 → m * 10000 ≤ a * 2 ^ 40 ≤ (m + 1) * 10000 →
   m * 2 ^ 1034 ≤ round_to 53 0 (a * one) 10000 ≤ (m + 1) * 2 ^ 1034)%Z.
Proof.
  intros Hm H. pose proof (pow2_pos 1034 ltac:(lia)) as HP.
  assert (H40 : (2 ^ 40 < 2 ^ 53)%Z) by reflexivity.
  split.
  - apply round_to_ge; [lia | lia | lia | apply scaled_representable; lia |].
    rewrite one_split. set (P := (2 ^ 1034)%Z) in *. clearbody P.
    set (Q := (2 ^ 40)%Z) in *. clearbody Q. nia.
  - apply round_to_le; [lia | lia | lia | apply scaled_representable; lia |].
    rewrite one_split. set (P := (2 ^ 1034)%Z) in *. clearbody P.
    set (Q := (2 ^ 40)%Z) in *. clearbody Q. nia.
Qed.

Lemma term_bracket (c m v : Z) :
  (0 ≤ m < 2 ^ 40 → m * 2 ^ 1034 ≤ c ≤ (m + 1) * 2 ^ 1034 → 0 ≤ v ≤ 255 →
   m * v * 2 ^ 1034 ≤ round_to 53 0 (c * (v * one)) one ≤ (m + 1) * v * 2 ^ 1034)%Z.
Proof.
  intros Hm Hc Hv. pose proof (pow2_pos 1034 ltac:(lia)) as HP. pose proof one_pos as Ho.
  assert (H40 : (2 ^ 40 * 2 ^ 9 < 2 ^ 53)%Z) by reflexivity.
  assert (Hmv : (0 ≤ m * v ∧ (m + 1) * v ≤ 2 ^ 40 * 2 ^ 9)%Z) by nia.
  split.
  - apply round_to_ge; [lia | lia | lia | apply scaled_representable; lia |].
    set (P := (2 ^ 1034)%Z) in *. clearbody P.
    replace (c * (v * one))%Z with (c * v * one)%Z by ring.
    apply Z.mul_le_mono_nonneg_r; [lia|].
    replace (m * v * P)%Z with (m * P * v)%Z by ring.
    apply Z.mul_le_mono_nonneg_r; lia.
  - apply round_to_le; [lia | lia | lia | apply scaled_representable; lia |].
    set (P := (2 ^ 1034)%Z) in *. clearbody P.
    replace (c * (v * one))%Z with (c * v * one)%Z by ring.
    apply Z.mul_le_mono_nonneg_r; [lia|].
    replace ((m + 1) * v * P)%Z with ((m + 1) * P * v)%Z by ring.
    apply Z.mul_le_mono_nonneg_r; lia.
Qed.

Lemma sum_bracket (x y lx hx ly hy : Z) :
  (lx * 2 ^ 1034 ≤ x ≤ hx * 2 ^ 1034 → ly * 2 ^ 1034 ≤ y ≤ hy * 2 ^ 1034 →
   Z.abs (lx + ly) < 2 ^ 53 → Z.abs (hx + hy) < 2 ^ 53 →
   (lx + ly) * 2 ^ 1034 ≤ round_to 53 0 (x + y) 1 ≤ (hx + hy) * 2 ^ 1034)%Z.
Proof.
  intros Hx Hy Hl Hh.
  split.
  - apply round_to_ge; [lia | lia | lia | apply scaled_representable; lia |].
    set (P := (2 ^ 1034)%Z) in *. clearbody P. lia.
  - apply round_to_le; [lia | lia | lia | apply scaled_representable; lia |].
    set (P := (2 ^ 1034)%Z) in *. clearbody P. lia.
Qed.

(** The luma of three bytes, between the bounds that the brackets of the
    three coefficients give. *)
Lemma luma_bracket (r g b : Z) :
  (0 ≤ r ≤ 255 → 0 ≤ g ≤ 255 → 0 ≤ b ≤ 255 →
   ∃ l, toLuma (of_Z r) (of_Z g) (of_Z b) = of_Z l
        ∧ 2 ^ 41 * l ≤ 2 * ((233756172065 + 1) * r + (786370716185 + 1) * g
                            + (79384739525 + 1) * b) + 2 ^ 40
        ∧ 2 * (233756172065 * r + 786370716185 * g + 79384739525 * b) + 2 ^ 40
          < 2 ^ 41 * (l + 1))%Z.
Proof.
  intros Hr Hg Hb.
  destruct (toLuma_stages r g b Hr Hg Hb) as (E & Hl). cbv zeta in E, Hl.
  eexists. split; [exact E|].
  pose proof (coefficient_bracket 2126 233756172065 ltac:(lia) ltac:(lia)) as Hcr.
  pose proof (coefficient_bracket 7152 786370716185 ltac:(lia) ltac:(lia)) as Hcg.
  pose proof (coefficient_bracket 722 79384739525 ltac:(lia) ltac:(lia)) as Hcb.
  pose proof (term_bracket _ 233756172065 r ltac:(lia) Hcr Hr) as Hpr.
  pose proof (term_bracket _ 786370716185 g ltac:(lia) Hcg Hg) as Hpg.
  pose proof (term_bracket _ 79384739525 b ltac:(lia) Hcb Hb) as Hpb.
  assert (H53 : (2 ^ 50 < 2 ^ 53)%Z) by reflexivity.
  assert (Hs1 := sum_bracket _ _ _ _ _ _ Hpr Hpg).
  specialize (Hs1 ltac:(lia) ltac:(lia)).
  assert (Hs2 := sum_bracket _ _ _ _ _ _ Hs1 Hpb).
  specialize (Hs2 ltac:(lia) ltac:(lia)).
  set (s := round_to 53 0 (_ + _) 1) in *. clearbody s.
  clear Hcr Hcg Hcb Hpr Hpg Hpb Hs1 E.
  pose proof (pow2_pos 1034 ltac:(lia)) as HP. pose proof one_pos as Ho.
  pose proof (Z.mul_div_le (2 * s + one) (2 * one) ltac:(lia)) as D1.
  pose proof (Z.mul_succ_div_gt (2 * s + one) (2 * one) ltac:(lia)) as D2.
  set (l := ((2 * s + one) / (2 * one))%Z) in *. clearbody l.
  rewrite one_split in D1, D2. clear Ho.
  set (P := (2 ^ 1034)%Z) in *. clearbody P.
  split; nia.
Qed.

(** [toLuma] returns an integer nearest to the weighted mean
    0.2126 r + 0.7152 g + 0.0722 b of three channel bytes, hence one of
    0 .. 255. *)
Theorem toLuma_nearest (r g b : Z) :
  (0 ≤ r ≤ 255 → 0 ≤ g ≤ 255 → 0 ≤ b ≤ 255 →
   ∃ l, toLuma (of_Z r) (of_Z g) (of_Z b) = of_Z l
        ∧ 10000 * l - 5000 ≤ 2126 * r + 7152 * g + 722 * b ≤ 10000 * l + 5000
        ∧ 0 ≤ l ≤ 255)%Z.
Proof.
  intros Hr Hg Hb. destruct (luma_bracket r g b Hr Hg Hb) as (l & E & H1 & H2).
  exists l. split; [exact E|]. lia.
Qed.

(** A pixel whose three channels are equal keeps that value as its luma. *)
Theorem toLuma_gray (v : Z) :
  (0 ≤ v ≤ 255)%Z → toLuma (of_Z v) (of_Z v) (of_Z v) = of_Z v.
Proof.
  intros Hv. destruct (luma_bracket v v v Hv Hv Hv) as (l & -> & H1 & H2).
  f_equal. lia.
Qed.

Lemma toLuma_gray_witness : toLuma (of_Z 77) (of_Z 77) (of_Z 77) = of_Z 77.
Proof. apply toLuma_gray. lia. Defined.

Lemma toLuma_nearest_witness :
  ∃ l, toLuma (of_Z 255) (of_Z 0) (of_Z 0) = of_Z l
       ∧ (10000 * l - 5000 ≤ 2126 * 255 + 7152 * 0 + 722 * 0 ≤ 10000 * l + 5000
       ∧ 0 ≤ l ≤ 255)%Z.
Proof. apply toLuma_nearest; lia. Defined.

(** ** Tonal adjustments on the sliders' values *)

Lemma within_fin lo hi x :
  within lo hi x → ∃ n, x = Fin n ∧ (lo * 2 ^ 1034 ≤ n ≤ hi * 2 ^ 1034)%Z.
Proof. destruct x; simpl; try tauto. eauto. Qed.

Lemma pow53_gap : (2 ^ 52 * 2 ^ 1034 < 2 ^ 2098 ∧ 2 ^ 52 < 2 ^ 53)%Z.
Proof. split; reflexivity. Qed.

(** Any rounding whose exact value lies between two grid points. *)
Lemma round64_within_grid (a b lo hi : Z) :
  (0 < b → Z.abs lo ≤ 2 ^ 52 → Z.abs hi ≤ 2 ^ 52 →
   lo * 2 ^ 1034 * b ≤ a ≤ hi * 2 ^ 1034 * b →
   within lo hi (round64 a b))%Z.
Proof.
  intros Hb Hlo Hhi H. destruct pow53_gap as [G1 G2].
  pose proof (pow2_pos 1034 ltac:(lia)) as HP.
  destruct (round64_between a b (lo * 2 ^ 1034) (hi * 2 ^ 1034)) as (n & -> & Hn);
    auto.
  - apply scaled_representable. lia.
  - apply scaled_representable. lia.
  - set (P := (2 ^ 1034)%Z) in *. set (T := (2 ^ 2098)%Z) in *.
    set (Q := (2 ^ 52)%Z) in *. clearbody P T Q.
    rewrite Z.abs_mul, (Z.abs_eq P) by lia.
    assert (Z.abs lo * P ≤ Q * P)%Z by (apply Z.mul_le_mono_nonneg_r; lia). lia.
  - set (P := (2 ^ 1034)%Z) in *. set (T := (2 ^ 2098)%Z) in *.
    set (Q := (2 ^ 52)%Z) in *. clearbody P T Q.
    rewrite Z.abs_mul, (Z.abs_eq P) by lia.
    assert (Z.abs hi * P ≤ Q * P)%Z by (apply Z.mul_le_mono_nonneg_r; lia). lia.
Qed.

Lemma within_of_Z (z : Z) :
  (Z.abs z ≤ 2 ^ 12)%Z → within (z * 2 ^ 40) (z * 2 ^ 40) (of_Z z).
Proof.
  intros Hz. assert (2 ^ 12 < 2 ^ 53)%Z by reflexivity.
  rewrite of_Z_exact by lia. simpl. rewrite one_split.
  set (P := (2 ^ 1034)%Z). clearbody P. lia.
Qed.

Lemma within_add (a b c d : Z) (x y : number) :
  (within a b x → within c d y → Z.abs (a + c) ≤ 2 ^ 52 → Z.abs (b + d) ≤ 2 ^ 52 →
   within (a + c) (b + d) (add x y))%Z.
Proof.
  intros Hx Hy H1 H2.
  destruct (within_fin _ _ _ Hx) as (n & -> & Hn).
  destruct (within_fin _ _ _ Hy) as (m & -> & Hm).
  unfold add. apply round64_within_grid; [lia | lia | lia |].
  set (P := (2 ^ 1034)%Z) in *. clearbody P. lia.
Qed.

Lemma within_sub (a b c d : Z) (x y : number) :
  (within a b x → within c d y → Z.abs (a - d) ≤ 2 ^ 52 → Z.abs (b - c) ≤ 2 ^ 52 →
   within (a - d) (b - c) (sub x y))%Z.
Proof.
  intros Hx Hy H1 H2.
  destruct (within_fin _ _ _ Hx) as (n & -> & Hn).
  destruct (within_fin _ _ _ Hy) as (m & -> & Hm).
  unfold sub, neg, add. apply round64_within_grid; [lia | lia | lia |].
  set (P := (2 ^ 1034)%Z) in *. clearbody P. lia.
Qed.

(** Division by a positive integer constant. *)
Lemma within_div (a b k : Z) (x : number) :
  (within a b x → 0 < k ≤ 2 ^ 12 → Z.abs a ≤ 2 ^ 52 → Z.abs b ≤ 2 ^ 52 →
   within (a / k) (- (- b / k)) (div x (of_Z k)))%Z.
Proof.
  intros Hx Hk Ha Hb.
  destruct (within_fin _ _ _ Hx) as (n & -> & Hn).
  assert (2 ^ 12 < 2 ^ 53)%Z by reflexivity.
  rewrite of_Z_exact by lia. pose proof one_pos as Ho. unfold div.
  assert (Hko : (0 < k * one)%Z) by (apply Z.mul_pos_pos; lia).
  destruct (Z.eqb_spec (k * one) 0); [lia|].
  rewrite Z.sgn_pos, Z.abs_eq, Z.mul_1_l by lia.
  pose proof (Z.mul_div_le a k ltac:(lia)) as D1.
  pose proof (Z.mul_div_le (- b) k ltac:(lia)) as D2.
  pose proof (Z.mul_succ_div_gt a k ltac:(lia)) as D3.
  pose proof (Z.mul_succ_div_gt (- b) k ltac:(lia)) as D4.
  set (qa := (a / k)%Z) in *. set (qb := (- b / k)%Z) in *. clearbody qa qb.
  assert (HT : (0 < 2 ^ 52)%Z) by reflexivity.
  assert (Hq : (- 2 ^ 52 ≤ qa ≤ 2 ^ 52 ∧ - 2 ^ 52 ≤ qb ≤ 2 ^ 52)%Z).
  { set (T := (2 ^ 52)%Z) in *. clearbody T. clear Hx Hn Hko n0 Ho. nia. }
  apply round64_within_grid; [lia | lia | lia |].
  pose proof (pow2_pos 1034 ltac:(lia)) as HP.
  set (P := (2 ^ 1034)%Z) in *. set (o := one) in *. clearbody P o.
  assert (qa * k * P ≤ a * P)%Z by (apply Z.mul_le_mono_nonneg_r; lia).
  assert (b * P ≤ - qb * k * P)%Z by (apply Z.mul_le_mono_nonneg_r; lia).
  split.
  - replace (qa * P * (k * o))%Z with (qa * k * P * o)%Z by ring.
    apply Z.mul_le_mono_nonneg_r; lia.
  - replace (- qb * P * (k * o))%Z with (- qb * k * P * o)%Z by ring.
    apply Z.mul_le_mono_nonneg_r; lia.
Qed.

(** Multiplication by a non-negative integer constant. *)
Lemma within_mul (a b k : Z) (x : number) :
  (within a b x → 0 ≤ k ≤ 2 ^ 12 → Z.abs (a * k) ≤ 2 ^ 52 → Z.abs (b * k) ≤ 2 ^ 52 →
   within (a * k) (b * k) (mul x (of_Z k)))%Z.
Proof.
  intros Hx Hk Ha Hb.
  destruct (within_fin _ _ _ Hx) as (n & -> & Hn).
  assert (2 ^ 12 < 2 ^ 53)%Z by reflexivity.
  rewrite of_Z_exact by lia. pose proof one_pos as Ho. unfold mul.
  apply round64_within_grid; [lia | lia | lia |].
  pose proof (pow2_pos 1034 ltac:(lia)) as HP.
  set (P := (2 ^ 1034)%Z) in *. set (o := one) in *. clearbody P o.
  assert (a * P * k ≤ n * k ≤ b * P * k)%Z
    by (split; apply Z.mul_le_mono_nonneg_r; lia).
  split.
  - replace (a * k * P * o)%Z with (a * P * k * o)%Z by ring.
    replace (n * (k * o))%Z with (n * k * o)%Z by ring.
    apply Z.mul_le_mono_nonneg_r; lia.
  - replace (b * k * P * o)%Z with (b * P * k * o)%Z by ring.
    replace (n * (k * o))%Z with (n * k * o)%Z by ring.
    apply Z.mul_le_mono_nonneg_r; lia.
Qed.

Lemma clamp_grid_lower (P Q a n : Z) :
  (0 < P → 0 < Q → a * P ≤ n →
   Z.max 0 (Z.min Q a) * P ≤ Z.max 0 (Z.min (Q * P) n))%Z.
Proof.
  intros HP HQ H.
  destruct (Z.le_gt_cases a 0) as [Ha|Ha].
  - rewrite (Z.max_l 0 (Z.min Q a)) by lia. lia.
  - destruct (Z.le_gt_cases Q a) as [Hq|Hq].
    + rewrite (Z.min_l Q a), (Z.max_r 0 Q) by lia.
      assert (Q * P ≤ a * P)%Z by (apply Z.mul_le_mono_nonneg_r; lia). lia.
    + rewrite (Z.min_r Q a), (Z.max_r 0 a) by lia.
      assert (a * P < Q * P)%Z by (apply Z.mul_lt_mono_pos_r; lia).
      assert (0 < a * P)%Z by (apply Z.mul_pos_pos; lia). lia.
Qed.

Lemma clamp_grid_upper (P Q b n : Z) :
  (0 < P → 0 < Q → n ≤ b * P →
   Z.max 0 (Z.min (Q * P) n) ≤ Z.max 0 (Z.min Q b) * P)%Z.
Proof.
  intros HP HQ H.
  assert (0 < Q * P)%Z by (apply Z.mul_pos_pos; lia).
  destruct (Z.le_gt_cases b 0) as [Hb|Hb].
  - rewrite (Z.max_l 0 (Z.min Q b)) by lia.
    assert (b * P ≤ 0)%Z by (apply Z.mul_nonpos_nonneg; lia). lia.
  - destruct (Z.le_gt_cases Q b) as [Hq|Hq].
    + rewrite (Z.min_l Q b), (Z.max_r 0 Q) by lia. lia.
    + rewrite (Z.min_r Q b), (Z.max_r 0 b) by lia.
      assert (0 < b * P)%Z by (apply Z.mul_pos_pos; lia). lia.
Qed.

Lemma clamp01_fin (n : Z) : clamp01 (Fin n) = Fin (Z.max 0 (Z.min one n)).
Proof.
  unfold clamp01. rewrite of_Z_0, of_Z_1. pose proof one_pos.
  unfold Math_min, Math_max, ltb. zcases.
Qed.

Lemma within_clamp01 (a b : Z) (x : number) :
  within a b x →
  within (Z.max 0 (Z.min (2 ^ 40) a)) (Z.max 0 (Z.min (2 ^ 40) b)) (clamp01 x).
Proof.
  intros Hx. destruct (within_fin _ _ _ Hx) as (n & -> & Hn).
  rewrite clamp01_fin, one_split. unfold within.
  pose proof (pow2_pos 1034 ltac:(lia)) as HP.
  assert (H40 : (0 < 2 ^ 40)%Z) by reflexivity.
  split; [apply clamp_grid_lower | apply clamp_grid_upper]; lia.
Qed.

(** [Math.round] of a number between two grid points. *)
Lemma within_round (a b : Z) (x : number) :
  (within a b x → Z.abs a ≤ 2 ^ 50 → Z.abs b ≤ 2 ^ 50 →
   ∃ l, Math_round x = of_Z l ∧ 2 ^ 41 * l ≤ 2 * b + 2 ^ 40
        ∧ 2 * a + 2 ^ 40 < 2 ^ 41 * (l + 1))%Z.
Proof.
  intros Hx Ha Hb. destruct (within_fin _ _ _ Hx) as (n & -> & Hn).
  rewrite Math_round_fin. exists ((2 * n + one) / (2 * one))%Z.
  pose proof one_pos as Ho. pose proof (pow2_pos 1034 ltac:(lia)) as HP.
  pose proof (Z.mul_div_le (2 * n + one) (2 * one) ltac:(lia)) as D1.
  pose proof (Z.mul_succ_div_gt (2 * n + one) (2 * one) ltac:(lia)) as D2.
  set (l := ((2 * n + one) / (2 * one))%Z) in *. clearbody l.
  assert (H50 : (2 ^ 50 = 2 ^ 10 * 2 ^ 40 ∧ 2 ^ 41 = 2 * 2 ^ 40 ∧ 0 < 2 ^ 40
                 ∧ 2 ^ 10 * 4 < 2 ^ 53)%Z) by (repeat split; reflexivity).
  destruct H50 as (E50 & E41 & H40 & H53).
  assert (Hl : (2 ^ 41 * l ≤ 2 * b + 2 ^ 40 ∧ 2 * a + 2 ^ 40 < 2 ^ 41 * (l + 1))%Z).
  { rewrite one_split in D1, D2. clear Ho.
    rewrite E41. rewrite E50 in Ha, Hb.
    set (P := (2 ^ 1034)%Z) in *. set (Q := (2 ^ 40)%Z) in *. clearbody P Q.
    split; nia. }
  split; [|exact Hl].
  rewrite of_Z_exact; [reflexivity|].
  rewrite E41, E50 in *. set (Q := (2 ^ 40)%Z) in *. clearbody Q. nia.
Qed.

Lemma within_weaken (a b a' b' : Z) (x : number) :
  (within a b x → a' ≤ a → b ≤ b' → within a' b' x)%Z.
Proof.
  destruct x; simpl; try tauto. intros H Ha Hb.
  pose proof (pow2_pos 1034 ltac:(lia)) as HP.
  set (P := (2 ^ 1034)%Z) in *. clearbody P.
  assert (a' * P ≤ a * P)%Z by (apply Z.mul_le_mono_nonneg_r; lia).
  assert (b * P ≤ b' * P)%Z by (apply Z.mul_le_mono_nonneg_r; lia). lia.
Qed.

(** Replaces the quotients by constants in the goal by variables, keeping the
    two inequalities that define each of them. *)
Ltac quotients :=
  repeat match goal with
  | |- context [Z.div ?a ?k] =>
      let q := fresh "q" in
      pose proof (Z.mul_div_le a k ltac:(lia));
      pose proof (Z.mul_succ_div_gt a k ltac:(lia));
      set (q := Z.div a k) in *; clearbody q
  | _ : context [Z.div ?a ?k] |- _ =>
      let q := fresh "q" in
      pose proof (Z.mul_div_le a k ltac:(lia));
      pose proof (Z.mul_succ_div_gt a k ltac:(lia));
      set (q := Z.div a k) in *; clearbody q
  end.

(** The value before the clamp when the contrast step is skipped: the
    normalised intensity plus the brightness offset. *)
Lemma brightened_within (b v : Z) :
  (0 ≤ v ≤ 255 → - 100 ≤ b ≤ 100 →
   within (v * 2 ^ 40 / 255 + b * 2 ^ 40 / 100)
          (- (- (v * 2 ^ 40) / 255) + - (- (b * 2 ^ 40) / 100))
          (add (div (of_Z v) (of_Z 255)) (div (of_Z b) (of_Z 100))))%Z.
Proof.
  intros Hv Hb.
  assert (H40 : (2 ^ 40 = 1099511627776 ∧ 2 ^ 52 = 4503599627370496
                 ∧ 2 ^ 12 = 4096)%Z) by (repeat split; reflexivity).
  destruct H40 as (E40 & E52 & E12).
  pose proof (within_of_Z v ltac:(lia)) as Wv.
  pose proof (within_of_Z b ltac:(lia)) as Wb.
  pose proof (within_div _ _ 255 _ Wv ltac:(lia) ltac:(lia) ltac:(lia)) as Wv'.
  pose proof (within_div _ _ 100 _ Wb ltac:(lia) ltac:(lia) ltac:(lia)) as Wb'.
  apply within_add; [exact Wv' | exact Wb' | |]; rewrite E40, E52;
    clear Wv Wb Wv' Wb'; quotients; lia.
Qed.

(** The last two steps, on a clamped value between two grid points. *)
Lemma inverted_scaled_round (invert : bool) (lo hi : Z) (x : number) :
  (within lo hi x → 0 ≤ lo ≤ 2 ^ 40 → 0 ≤ hi ≤ 2 ^ 40 →
   ∃ l, Math_round (mul (if invert then sub (of_Z 1) x else x) (of_Z 255)) = of_Z l
        ∧ if invert
          then 2 ^ 41 * l ≤ 2 * ((2 ^ 40 - lo) * 255) + 2 ^ 40
               ∧ 2 * ((2 ^ 40 - hi) * 255) + 2 ^ 40 < 2 ^ 41 * (l + 1)
          else 2 ^ 41 * l ≤ 2 * (hi * 255) + 2 ^ 40
               ∧ 2 * (lo * 255) + 2 ^ 40 < 2 ^ 41 * (l + 1))%Z.
Proof.
  intros W Hlo Hhi.
  assert (H40 : (2 ^ 40 = 1099511627776 ∧ 2 ^ 52 = 4503599627370496
                 ∧ 2 ^ 12 = 4096 ∧ 2 ^ 50 = 1125899906842624)%Z)
    by (repeat split; reflexivity).
  destruct H40 as (E40 & E52 & E12 & E50).
  destruct invert.
  - pose proof (within_sub _ _ _ _ _ _ (within_of_Z 1 ltac:(lia)) W) as W1.
    rewrite Z.mul_1_l in W1. specialize (W1 ltac:(lia) ltac:(lia)).
    pose proof (within_mul _ _ 255 _ W1 ltac:(lia) ltac:(lia) ltac:(lia)) as W2.
    destruct (within_round _ _ _ W2 ltac:(lia) ltac:(lia)) as (l & -> & H).
    exists l. split; [reflexivity | exact H].
  - pose proof (within_mul _ _ 255 _ W ltac:(lia) ltac:(lia) ltac:(lia)) as W2.
    destruct (within_round _ _ _ W2 ltac:(lia) ltac:(lia)) as (l & -> & H).
    exists l. split; [reflexivity | exact H].
Qed.

(** The result with the contrast and gamma steps skipped, between the bounds
    that the brackets give. *)
Lemma brightness_bracket (Math_pow : number → number → number)
    (b v : Z) (gamma : number) (invert : bool) :
  (0 ≤ v ≤ 255)%Z → (- 100 ≤ b ≤ 100)%Z → gamma_applies gamma = false →
  ∃ l, applyTonalAdjustments Math_pow (of_Z b) (of_Z 0) gamma invert (of_Z v) = of_Z l
       ∧ (let lo := Z.max 0 (Z.min 1099511627776
                      (v * 1099511627776 / 255 + b * 1099511627776 / 100)) in
          let hi := Z.max 0 (Z.min 1099511627776
                      (- (- (v * 1099511627776) / 255)
                       + - (- (b * 1099511627776) / 100))) in
          if invert
          then 2199023255552 * l ≤ 2 * ((1099511627776 - lo) * 255) + 1099511627776
               ∧ 2 * ((1099511627776 - hi) * 255) + 1099511627776
                 < 2199023255552 * (l + 1)
          else 2199023255552 * l ≤ 2 * (hi * 255) + 1099511627776
               ∧ 2 * (lo * 255) + 1099511627776 < 2199023255552 * (l + 1))%Z.
Proof.
  intros Hv Hb Hg. unfold applyTonalAdjustments.
  fold (gamma_applies gamma). rewrite Hg.
  replace (eqb (of_Z 0) (of_Z 0)) with true by (vm_compute; reflexivity).
  cbv zeta. cbn [negb].
  pose proof (within_clamp01 _ _ _ (brightened_within b v Hv Hb)) as W.
  set (x := clamp01 _) in *. clearbody x.
  assert (H40 : (0 < 2 ^ 40)%Z) by reflexivity.
  destruct (inverted_scaled_round invert _ _ x W ltac:(lia) ltac:(lia))
    as (l & -> & H).
  exists l. split; [reflexivity|]. exact H.
Qed.

(** With the contrast and gamma steps skipped, the adjusted intensity is an
    integer nearest to the input shifted by 2.55 per unit of brightness and
    clamped to 0..255, or to its complement when [invert] is set. *)
Theorem tonal_brightness_shift (Math_pow : number → number → number)
    (b v : Z) (gamma : number) (invert : bool) :
  (0 ≤ v ≤ 255)%Z → (- 100 ≤ b ≤ 100)%Z → gamma_applies gamma = false →
  ∃ l, applyTonalAdjustments Math_pow (of_Z b) (of_Z 0) gamma invert (of_Z v) = of_Z l
       ∧ (let e := Z.max 0 (Z.min 25500 (100 * v + 255 * b)) in
          let target := if invert then 25500 - e else e in
          100 * l - 50 ≤ target ≤ 100 * l + 50)%Z.
Proof.
  intros Hv Hb Hg.
  destruct (brightness_bracket Math_pow b v gamma invert Hv Hb Hg) as (l & E & H).
  exists l. split; [exact E|]. cbv zeta in H |- *. clear E.
  quotients. destruct invert; lia.
Qed.

Lemma tonal_brightness_shift_witness :
  ∃ l, applyTonalAdjustments (λ x _, x) (of_Z 10) (of_Z 0) (of_Z 1) true (of_Z 100)
       = of_Z l
       ∧ (let e := Z.max 0 (Z.min 25500 (100 * 100 + 255 * 10)) in
          let target := if true then 25500 - e else e in
          100 * l - 50 ≤ target ≤ 100 * l + 50)%Z.
Proof.
  apply tonal_brightness_shift; [lia | lia | vm_compute; reflexivity].
Defined.

(** With every control at its initial value the adjustment changes nothing,
    and [invert] alone gives the complement. *)
Theorem tonal_neutral (Math_pow : number → number → number) (v : Z) (invert : bool) :
  (0 ≤ v ≤ 255)%Z →
  applyTonalAdjustments Math_pow (of_Z 0) (of_Z 0) (of_Z 1) invert (of_Z v)
  = of_Z (if invert then 255 - v else v).
Proof.
  intros Hv.
  destruct (brightness_bracket Math_pow 0 v (of_Z 1) invert Hv ltac:(lia)
              ltac:(vm_compute; reflexivity)) as (l & -> & H).
  cbv zeta in H. f_equal. quotients. destruct invert; lia.
Qed.

Lemma tonal_neutral_witness :
  applyTonalAdjustments (λ x _, x) (of_Z 0) (of_Z 0) (of_Z 1) true (of_Z 200)
  = of_Z (if true then 255 - 200 else 200).
Proof. apply tonal_neutral. lia. Defined.

Lemma sub_half_fin (n : Z) :
  (- 2 ^ 2093 ≤ n ≤ 2 ^ 2093)%Z → ∃ m, sub (Fin n) (Fin (2 ^ 1073)) = Fin m.
Proof.
  intros Hn. unfold sub, neg, add.
  assert (H : (2 ^ 2094 = 2 ^ 2093 * 2 ∧ 0 < 2 ^ 1073 < 2 ^ 2093)%Z)
    by (repeat split; reflexivity).
  destruct H as (E & Hh).
  destruct (round64_within (n + - 2 ^ 1073) 1 2094) as (m & -> & _);
    [lia | lia | | eauto].
  rewrite E. set (T := (2 ^ 2093)%Z) in *. set (h := (2 ^ 1073)%Z) in *.
  clearbody T h. lia.
Qed.

Lemma no_contrast_factor :
  eqb (of_Z (-100)) (of_Z 0) = false
  ∧ div (add (of_Z 100) (of_Z (-100))) (of_Z 100) = Fin 0.
Proof. split; vm_compute; reflexivity. Qed.

Lemma flat_level (invert : bool) :
  Math_round (mul (spec_invert invert (spec_clamp (Fin (2 ^ 1073)))) (of_Z 255))
  = of_Z 128.
Proof. destruct invert; vm_compute; reflexivity. Qed.

(** At contrast -100 every input gives the middle level 128, whatever the
    brightness and the inversion. *)
Theorem tonal_contrast_flat (Math_pow : number → number → number)
    (brightness gamma : number) (invert : bool) (v : Z) :
  (0 ≤ v ≤ 255)%Z → finite brightness → gamma_applies gamma = false →
  applyTonalAdjustments Math_pow brightness (of_Z (-100)) gamma invert (of_Z v)
  = of_Z 128.
Proof.
  intros Hv Hb Hg. rewrite tonal_stages. unfold spec_tonal. cbv zeta.
  destruct (brightness_finite brightness v Hv Hb) as (n & -> & Hn).
  unfold spec_contrast. destruct no_contrast_factor as (-> & ->). cbv zeta.
  rewrite half_exact. destruct (sub_half_fin n Hn) as (m & ->).
  unfold mul at 2. rewrite Z.mul_0_r.
  replace (round64 0 one) with (Fin 0) by (vm_compute; reflexivity).
  replace (add (Fin 0) (Fin (2 ^ 1073))) with (Fin (2 ^ 1073))
    by (vm_compute; reflexivity).
  unfold spec_gamma. cbv zeta. fold (gtb gamma (of_Z 0)). fold (gamma_applies gamma).
  rewrite Hg. apply flat_level.
Qed.

Lemma tonal_contrast_flat_witness :
  applyTonalAdjustments (λ x _, x) (of_Z 40) (of_Z (-100)) (of_Z 1) false (of_Z 9)
  = of_Z 128.
Proof.
  apply tonal_contrast_flat; [lia | vm_compute; discriminate | vm_compute; reflexivity].
Defined.

(** ** Order of the adjusted intensities *)

Ltac hide_one := set (o := one) in *; clearbody o.

Lemma ascending_fin lo hi x y :
  ascending lo hi x y →
  ∃ n m, x = Fin n ∧ y = Fin m ∧ (lo * one ≤ n ∧ n ≤ m ∧ m ≤ hi * one)%Z.
Proof. destruct x, y; simpl; try tauto. eauto. Qed.

Lemma round64_mono (a b c d n m : Z) :
  (0 < b → 0 < d → a * d ≤ c * b →
   round64 a b = Fin n → round64 c d = Fin m → n ≤ m)%Z.
Proof.
  intros Hb Hd H En Em.
  rewrite (round64_fin_eq _ _ _ En), (round64_fin_eq _ _ _ Em).
  apply round_to_mono; lia.
Qed.

(** Two roundings of ascending exact values are ascending. *)
Lemma ascending_round64 (a b c d lo hi : Z) :
  (0 < b → 0 < d → Z.abs lo < 2 ^ 53 → Z.abs hi < 2 ^ 53 →
   lo * one * b ≤ a → a * d ≤ c * b → c ≤ hi * one * d →
   a ≤ hi * one * b → lo * one * d ≤ c →
   ascending lo hi (round64 a b) (round64 c d))%Z.
Proof.
  intros Hb Hd Hlo Hhi H1 H2 H3 H4 H5.
  destruct (between_fin _ _ _ (round64_between_int a b lo hi Hb Hlo Hhi
              (conj H1 H4))) as (n & En & Hn).
  destruct (between_fin _ _ _ (round64_between_int c d lo hi Hd Hlo Hhi
              (conj H5 H3))) as (m & Em & Hm).
  pose proof (round64_mono a b c d n m Hb Hd H2 En Em).
  rewrite En, Em. unfold ascending. lia.
Qed.

Lemma ascending_of_Z (v v' : Z) :
  (0 ≤ v ≤ v' → v' ≤ 255 → ascending 0 255 (of_Z v) (of_Z v'))%Z.
Proof.
  intros Hv Hv'. rewrite !of_Z_byte by lia. unfold ascending. pose proof one_pos.
  hide_one. nia.
Qed.

(** Division by a positive integer constant. *)
Lemma ascending_div (lo hi k : Z) (x y : number) :
  (ascending lo hi x y → 0 < k ≤ 1000 → - 1000 ≤ lo ≤ 0 → 0 ≤ hi ≤ 1000 →
   ascending lo hi (div x (of_Z k)) (div y (of_Z k)))%Z.
Proof.
  intros H Hk Hlo Hhi. destruct (ascending_fin _ _ _ _ H) as (n & m & -> & -> & Hn).
  rewrite of_Z_exact by (apply small_abs; lia). pose proof one_pos as Ho. unfold div.
  assert (Hko : (0 < k * one)%Z) by (apply Z.mul_pos_pos; lia).
  destruct (Z.eqb_spec (k * one) 0); [lia|].
  rewrite Z.sgn_pos, Z.abs_eq, !Z.mul_1_l by lia.
  assert (L : ∀ t, (lo * one ≤ t → lo * one * (k * one) ≤ t * one)%Z).
  { intros t Ht. hide_one.
    assert (lo * o * k ≤ lo * o * 1)%Z by (apply Z.mul_le_mono_nonpos_l; nia).
    replace (lo * o * (k * o))%Z with (lo * o * k * o)%Z by ring.
    apply Z.mul_le_mono_nonneg_r; lia. }
  assert (U : ∀ t, (t ≤ hi * one → t * one ≤ hi * one * (k * one))%Z).
  { intros t Ht. hide_one.
    assert (hi * o * 1 ≤ hi * o * k)%Z by (apply Z.mul_le_mono_nonneg_l; nia).
    replace (hi * o * (k * o))%Z with (hi * o * k * o)%Z by ring.
    apply Z.mul_le_mono_nonneg_r; lia. }
  apply ascending_round64;
    [lia | lia | apply small_abs; lia | apply small_abs; lia
     | apply L; lia | | apply U; lia | apply U; lia | apply L; lia].
  hide_one.
  replace (n * o * (k * o))%Z with (n * (k * o) * o)%Z by ring.
  replace (m * o * (k * o))%Z with (m * (k * o) * o)%Z by ring.
  apply Z.mul_le_mono_nonneg_r; [lia|].
  apply Z.mul_le_mono_nonneg_r; lia.
Qed.

(** Adding the same bounded number to both. *)
Lemma ascending_add (lo hi lo' hi' : Z) (x y z : number) :
  (ascending lo hi x y → between lo' hi' z →
   - 1000 ≤ lo + lo' → hi + hi' ≤ 1000 →
   ascending (lo + lo') (hi + hi') (add x z) (add y z))%Z.
Proof.
  intros H Hz Hlo Hhi. destruct (ascending_fin _ _ _ _ H) as (n & m & -> & -> & Hn).
  destruct (between_fin _ _ _ Hz) as (c & -> & Hc).
  unfold add. pose proof one_pos as Ho.
  assert (lo + lo' ≤ hi + hi')%Z by (hide_one; nia).
  apply ascending_round64;
    [lia | lia | apply small_abs; lia | apply small_abs; lia | ..];
    hide_one; lia.
Qed.

Lemma between_neg (lo hi : Z) (z : number) :
  between lo hi z → between (- hi) (- lo) (neg z).
Proof.
  intros Hz. destruct (between_fin _ _ _ Hz) as (c & -> & Hc).
  unfold neg, between. lia.
Qed.

Lemma ascending_sub (lo hi lo' hi' : Z) (x y z : number) :
  (ascending lo hi x y → between lo' hi' z →
   - 1000 ≤ lo - hi' → hi - lo' ≤ 1000 →
   ascending (lo - hi') (hi - lo') (sub x z) (sub y z))%Z.
Proof.
  intros H Hz Hlo Hhi. unfold sub.
  replace (lo - hi')%Z with (lo + - hi')%Z by lia.
  replace (hi - lo')%Z with (hi + - lo')%Z by lia.
  apply ascending_add; [exact H | apply between_neg, Hz | lia | lia].
Qed.

(** Multiplication of both by the same non-negative number. *)
Lemma ascending_mul (lo hi k : Z) (x y z : number) :
  (ascending lo hi x y → between 0 k z → 0 ≤ k → - 1000 ≤ lo * k → lo ≤ 0 →
   0 ≤ hi → hi * k ≤ 1000 →
   ascending (lo * k) (hi * k) (mul x z) (mul y z))%Z.
Proof.
  intros H Hz Hk Hlo Hlo0 Hhi0 Hhi.
  destruct (ascending_fin _ _ _ _ H) as (n & m & -> & -> & Hn).
  destruct (between_fin _ _ _ Hz) as (c & -> & Hc).
  unfold mul. pose proof one_pos as Ho.
  assert (Hc' : (0 ≤ c ≤ k * one)%Z) by lia.
  assert (A : ∀ t, (lo * one ≤ t → lo * k * one * one ≤ t * c)%Z).
  { intros t Ht. hide_one.
    assert (lo * o * c ≤ t * c)%Z by (apply Z.mul_le_mono_nonneg_r; lia).
    assert (lo * o * (k * o) ≤ lo * o * c)%Z
      by (apply Z.mul_le_mono_nonpos_l; nia).
    replace (lo * k * o * o)%Z with (lo * o * (k * o))%Z by ring. lia. }
  assert (B : ∀ t, (t ≤ hi * one → t * c ≤ hi * k * one * one)%Z).
  { intros t Ht. hide_one.
    assert (t * c ≤ hi * o * c)%Z by (apply Z.mul_le_mono_nonneg_r; lia).
    assert (hi * o * c ≤ hi * o * (k * o))%Z
      by (apply Z.mul_le_mono_nonneg_l; nia).
    replace (hi * k * o * o)%Z with (hi * o * (k * o))%Z by ring. lia. }
  apply ascending_round64;
    [lia | lia | apply small_abs; lia | apply small_abs; lia
     | apply A; lia | | apply B; lia | apply B; lia | apply A; lia].
  apply Z.mul_le_mono_nonneg_r; [lia|]. apply Z.mul_le_mono_nonneg_r; lia.
Qed.

Lemma ascending_clamp01 (lo hi : Z) (x y : number) :
  ascending lo hi x y → ascending 0 1 (clamp01 x) (clamp01 y).
Proof.
  intros H. destruct (ascending_fin _ _ _ _ H) as (n & m & -> & -> & Hn).
  rewrite !clamp01_fin. unfold ascending. pose proof one_pos. lia.
Qed.

Lemma ascending_invert (x y : number) :
  ascending 0 1 x y → ascending 0 1 (sub (of_Z 1) y) (sub (of_Z 1) x).
Proof.
  intros H. destruct (ascending_fin _ _ _ _ H) as (n & m & -> & -> & Hn).
  rewrite of_Z_1. unfold sub, neg, add. pose proof one_pos.
  apply ascending_round64;
    [lia | lia | apply small_abs; lia | apply small_abs; lia | ..];
    hide_one; lia.
Qed.

Lemma ascending_round (lo hi : Z) (x y : number) :
  (ascending lo hi x y → - 1000 < lo → hi < 1000 →
   ∃ l l', Math_round x = of_Z l ∧ Math_round y = of_Z l' ∧ l ≤ l')%Z.
Proof.
  intros H Hlo Hhi. destruct (ascending_fin _ _ _ _ H) as (n & m & -> & -> & Hn).
  rewrite !Math_round_fin. pose proof one_pos as Ho.
  assert (B : ∀ t, (lo * one ≤ t ≤ hi * one →
            - 1000 ≤ (2 * t + one) / (2 * one) ≤ 1000)%Z).
  { intros t Ht. split.
    - apply Z.div_le_lower_bound; [lia|].
      set (o := one) in *. clearbody o. nia.
    - apply Z.lt_succ_r, Z.div_lt_upper_bound; [lia|].
      set (o := one) in *. clearbody o. nia. }
  exists ((2 * n + one) / (2 * one))%Z, ((2 * m + one) / (2 * one))%Z.
  rewrite !of_Z_exact by (apply small_abs, B; lia).
  split; [reflexivity|]. split; [reflexivity|].
  apply Z.div_le_mono; lia.
Qed.

Lemma slider_offset (b : Z) :
  (- 100 ≤ b ≤ 100)%Z → between (-1) 1 (div (of_Z b) (of_Z 100)).
Proof.
  intros Hb. rewrite !of_Z_exact by (apply small_abs; lia).
  pose proof one_pos as Ho. unfold div.
  assert (Hko : (0 < 100 * one)%Z) by lia.
  destruct (Z.eqb_spec (100 * one) 0); [lia|].
  rewrite Z.sgn_pos, Z.abs_eq, !Z.mul_1_l by lia.
  apply round64_between_int; try (apply small_abs; lia); try lia.
  set (o := one) in *. clearbody o. nia.
Qed.

Lemma slider_factor (c : Z) :
  (- 100 ≤ c ≤ 100)%Z →
  between 0 2 (div (add (of_Z 100) (of_Z c)) (of_Z 100)).
Proof.
  intros Hc. rewrite !of_Z_exact by (apply small_abs; lia).
  pose proof one_pos as Ho. unfold add.
  replace (100 * one + c * one)%Z with ((100 + c) * one * 1)%Z by ring.
  rewrite round64_exact;
    [| lia | apply int_representable; [lia | lia | apply small_abs; lia] |].
  2: { assert (one * 1000 < 2 ^ 2098)%Z by reflexivity.
       set (o := one) in *. clearbody o. nia. }
  unfold div.
  destruct (Z.eqb_spec (100 * one) 0); [lia|].
  rewrite Z.sgn_pos, Z.abs_eq, !Z.mul_1_l by lia.
  apply round64_between_int; try (apply small_abs; lia); try lia.
  set (o := one) in *. clearbody o. nia.
Qed.

Lemma half_between : between 0 1 (dec 5 10).
Proof. rewrite half_exact. simpl. split; [lia | vm_compute; discriminate]. Qed.

Lemma full_scale_between : between 0 255 (of_Z 255).
Proof. rewrite of_Z_byte by lia. unfold between. pose proof one_pos. lia. Qed.

(** With the gamma step skipped and the sliders in their ranges, a brighter
    input never gives a darker output; with [invert] set the order is
    reversed. *)
Theorem tonal_monotone (Math_pow : number → number → number)
    (b c v v' : Z) (gamma : number) (invert : bool) :
  (0 ≤ v ≤ v')%Z → (v' ≤ 255)%Z → (- 100 ≤ b ≤ 100)%Z → (- 100 ≤ c ≤ 100)%Z →
  gamma_applies gamma = false →
  ∃ l l',
    applyTonalAdjustments Math_pow (of_Z b) (of_Z c) gamma invert (of_Z v) = of_Z l
    ∧ applyTonalAdjustments Math_pow (of_Z b) (of_Z c) gamma invert (of_Z v') = of_Z l'
    ∧ (if invert then l' ≤ l else l ≤ l')%Z.
Proof.
  intros Hv Hv' Hb Hc Hg. unfold applyTonalAdjustments.
  fold (gamma_applies gamma). rewrite Hg. cbv zeta.
  pose proof (ascending_of_Z v v' Hv Hv') as O.
  pose proof (ascending_div 0 255 255 _ _ O ltac:(lia) ltac:(lia) ltac:(lia)) as O1.
  pose proof (ascending_add _ _ _ _ _ _ _ O1 (slider_offset b Hb)
                ltac:(lia) ltac:(lia)) as O2.
  assert (O3 : ∃ lo hi, (- 1000 < lo ∧ hi < 1000)%Z ∧
    ascending lo hi
      (if negb (eqb (of_Z c) (of_Z 0))
       then add (mul (sub (add (div (of_Z v) (of_Z 255)) (div (of_Z b) (of_Z 100)))
                          (dec 5 10))
                     (div (add (of_Z 100) (of_Z c)) (of_Z 100))) (dec 5 10)
       else add (div (of_Z v) (of_Z 255)) (div (of_Z b) (of_Z 100)))
      (if negb (eqb (of_Z c) (of_Z 0))
       then add (mul (sub (add (div (of_Z v') (of_Z 255)) (div (of_Z b) (of_Z 100)))
                          (dec 5 10))
                     (div (add (of_Z 100) (of_Z c)) (of_Z 100))) (dec 5 10)
       else add (div (of_Z v') (of_Z 255)) (div (of_Z b) (of_Z 100)))).
  { destruct (negb _).
    - pose proof (ascending_sub _ _ _ _ _ _ _ O2 half_between ltac:(lia) ltac:(lia))
        as O3.
      pose proof (ascending_mul _ _ 2 _ _ _ O3 (slider_factor c Hc) ltac:(lia)
                    ltac:(lia) ltac:(lia) ltac:(lia) ltac:(lia)) as O4.
      pose proof (ascending_add _ _ _ _ _ _ _ O4 half_between ltac:(lia) ltac:(lia))
        as O5.
      eexists _, _. split; [|exact O5]. lia.
    - eexists _, _. split; [|exact O2]. lia. }
  destruct O3 as (lo & hi & Hlh & O3).
  pose proof (ascending_clamp01 _ _ _ _ O3) as O4'.
  destruct invert.
  - pose proof (ascending_invert _ _ O4') as O5'.
    pose proof (ascending_mul _ _ 255 _ _ (of_Z 255) O5') as O4.
    destruct (ascending_round _ _ _ _ (O4 full_scale_between
                ltac:(lia) ltac:(lia) ltac:(lia) ltac:(lia) ltac:(lia))
                ltac:(lia) ltac:(lia)) as (l & l' & E1 & E2 & H).
    exists l', l. split; [exact E2 | split; [exact E1 | exact H]].
  - pose proof (ascending_mul _ _ 255 _ _ (of_Z 255) O4') as O4.
    destruct (ascending_round _ _ _ _ (O4 full_scale_between
                ltac:(lia) ltac:(lia) ltac:(lia) ltac:(lia) ltac:(lia))
                ltac:(lia) ltac:(lia)) as (l & l' & E1 & E2 & H).
    exists l, l'. split; [exact E1 | split; [exact E2 | exact H]].
Qed.

Lemma tonal_monotone_witness :
  ∃ l l',
    applyTonalAdjustments (λ x _, x) (of_Z 20) (of_Z (-30)) (of_Z 1) true (of_Z 40)
      = of_Z l
    ∧ applyTonalAdjustments (λ x _, x) (of_Z 20) (of_Z (-30)) (of_Z 1) true (of_Z 90)
      = of_Z l'
    ∧ (if true then l' ≤ l else l ≤ l')%Z.
Proof.
  apply tonal_monotone; [lia | lia | lia | lia | vm_compute; reflexivity].
Defined.

(** ** Error diffusion: bounds and black-and-white images *)

(** Floyd–Steinberg is stable: the value read at every pixel is a finite
    number of [-128, 383] and the error passed on is at most 128 in
    magnitude, so the buffer never holds [NaN] or an infinity. *)
Theorem floyd_steinberg_bounded (w h : nat) (gray : list Z) (x y : nat) :
  length gray = w * h → Forall (λ g, 0 ≤ g ≤ 255)%Z gray → x < w → y < h →
  let i := y * w + x in
  let old := get_f32 (fs_after w h gray (replicate (w * h) 0%Z) i).1 i in
  ∃ n e, old = Fin n ∧ (- 128 * one ≤ n ≤ 383 * one)%Z
         ∧ sub old (of_Z (quantize old)) = Fin e
         ∧ (- 128 * one ≤ e ≤ 128 * one)%Z.
Proof.
  intros Hl Hb Hx Hy i old.
  assert (Hi : i < w * h) by (unfold i; nia).
  pose proof (fs_after_inv w h gray (replicate (w * h) 0%Z) i Hl Hb ltac:(lia)) as Hinv.
  pose proof (fs_inv_visit w h i _ Hinv Hi) as Hold. fold old in Hold.
  destruct (f32_between_fin _ _ _ Hold) as (n & En & _ & Hn).
  destruct (quantize_error old Hold) as (n' & e & _ & _ & _ & Ee & _ & He & _).
  exists n, e. auto.
Qed.

Lemma floyd_steinberg_bounded_witness :
  let old := get_f32 (fs_after 2 1 [100; 200]%Z (replicate (2 * 1) 0%Z) 1).1 1 in
  ∃ n e, old = Fin n ∧ (- 128 * one ≤ n ≤ 383 * one)%Z
         ∧ sub old (of_Z (quantize old)) = Fin e
         ∧ (- 128 * one ≤ e ≤ 128 * one)%Z.
Proof.
  apply (floyd_steinberg_bounded 2 1 [100; 200]%Z 1 0);
    [reflexivity | repeat constructor; lia | lia | lia].
Defined.

(** Atkinson is stable in the same way; the share passed to each neighbour is
    an eighth of the error, at most 16 in magnitude. *)
Theorem atkinson_bounded (w h : nat) (gray : list Z) (x y : nat) :
  length gray = w * h → Forall (λ g, 0 ≤ g ≤ 255)%Z gray → x < w → y < h →
  let i := y * w + x in
  let old := get_f32 (atkinson_after w h gray (replicate (w * h) 0%Z) i).1 i in
  ∃ n a, old = Fin n ∧ (- 128 * one ≤ n ≤ 383 * one)%Z
         ∧ div (sub old (of_Z (quantize old))) (of_Z 8) = Fin a
         ∧ (- 16 * one ≤ a ≤ 16 * one)%Z.
Proof.
  intros Hl Hb Hx Hy i old.
  assert (Hi : i < w * h) by (unfold i; nia).
  pose proof (atkinson_after_inv w h gray (replicate (w * h) 0%Z) i Hl Hb ltac:(lia))
    as Hinv.
  pose proof (atkinson_inv_visit w h i _ Hinv Hi) as Hold. fold old in Hold.
  destruct (f32_between_fin _ _ _ Hold) as (n & En & _ & Hn).
  destruct (quantize_error old Hold) as (n' & e & q & j & _ & Ee & _ & He & Eq & Hq & Hj).
  destruct (eighth_exact e q j He Eq Hq Hj) as (a & Ea & _ & Ha).
  exists n, a. rewrite Ee. auto.
Qed.

Lemma atkinson_bounded_witness :
  let old := get_f32 (atkinson_after 2 1 [100; 200]%Z (replicate (2 * 1) 0%Z) 1).1 1 in
  ∃ n a, old = Fin n ∧ (- 128 * one ≤ n ≤ 383 * one)%Z
         ∧ div (sub old (of_Z (quantize old))) (of_Z 8) = Fin a
         ∧ (- 16 * one ≤ a ≤ 16 * one)%Z.
Proof.
  apply (atkinson_bounded 2 1 [100; 200]%Z 1 0);
    [reflexivity | repeat constructor; lia | lia | lia].
Defined.

(** On a black or white element the quantization leaves no error. *)
Lemma binary_no_error (g : Z) :
  g = 0%Z ∨ g = 255%Z →
  fround (of_Z g) = Fin (g * one)
  ∧ quantize (Fin (g * one)) = g
  ∧ sub (Fin (g * one)) (of_Z (quantize (Fin (g * one)))) = Fin 0
  ∧ fround (add (Fin (g * one)) (Fin 0)) = Fin (g * one).
Proof. intros [-> | ->]; vm_compute; repeat split; reflexivity. Qed.

Lemma no_error_shares :
  (∀ k, (1 ≤ k ≤ 7)%Z → div (mul (Fin 0) (of_Z k)) (of_Z 16) = Fin 0)
  ∧ div (Fin 0) (of_Z 8) = Fin 0.
Proof.
  split; [|vm_compute; reflexivity].
  intros k Hk.
  assert (k = 1 ∨ k = 2 ∨ k = 3 ∨ k = 4 ∨ k = 5 ∨ k = 6 ∨ k = 7)%Z as Hc by lia.
  destruct Hc as [-> | [-> | [-> | [-> | [-> | [-> | ->]]]]]]; vm_compute; reflexivity.
Qed.

Lemma binary_buf_lookup (gray : list Z) (j : nat) :
  Forall (λ g, g = 0 ∨ g = 255)%Z gray → j < length gray →
  ∃ g, gray !! j = Some g ∧ (g = 0 ∨ g = 255)%Z
       ∧ init_buf gray !! j = Some (Fin (g * one))
       ∧ get_f32 (init_buf gray) j = Fin (g * one).
Proof.
  intros Hb Hj. destruct (lookup_lt_is_Some_2 gray j Hj) as (g & Hg).
  rewrite Forall_lookup in Hb. pose proof (Hb j g Hg) as Hg'.
  exists g. split; [exact Hg|]. split; [exact Hg'|].
  destruct (binary_no_error g Hg') as (E & _).
  unfold get_f32. rewrite (init_buf_lookup gray j g Hg), E. auto.
Qed.

(** On a black-and-white image no step of Floyd–Steinberg changes the
    buffer. *)
Lemma fs_binary_buf (w h : nat) (gray mask : list Z) (k : nat) :
  length gray = w * h → Forall (λ g, g = 0 ∨ g = 255)%Z gray → k ≤ w * h →
  (fs_after w h gray mask k).1 = init_buf gray.
Proof.
  intros Hl Hb. induction k as [|k IH]; intros Hk; [reflexivity|].
  rewrite fs_after_S. specialize (IH ltac:(lia)).
  destruct (fs_after w h gray mask k) as [buf m]. simpl in IH. subst buf.
  assert (Hw : 0 < w) by (destruct w; [simpl in Hk; lia | lia]).
  pose proof (Nat.mod_upper_bound k w ltac:(lia)) as Hx.
  assert (Hy : k `div` w < h).
  { apply Nat.Div0.div_lt_upper_bound. lia. }
  pose proof (index_decompose w k) as Ek.
  destruct (binary_buf_lookup gray k Hb ltac:(lia)) as (g & _ & Hg & _ & Eg).
  destruct (binary_no_error g Hg) as (_ & _ & Ee & _).
  apply list_eq. intros j.
  rewrite (fs_pixel_buf w h _ _ (init_buf gray) m j Hx Hy)
    by (rewrite init_buf_length; exact Hl).
  cbv zeta. rewrite Ek, Eg, Ee.
  destruct (Z.eqb_spec (fs_weight w h (k `mod` w) (k `div` w) j) 0) as [|Hne];
    [reflexivity|].
  pose proof (fs_weight_target w h _ _ j Hx Hy Hne) as Hj.
  destruct (fs_weight_range w h (k `mod` w) (k `div` w) j) as [|Hr]; [contradiction|].
  rewrite (proj1 no_error_shares _ Hr).
  destruct (binary_buf_lookup gray j Hb ltac:(lia)) as (g' & _ & Hg' & El & Eg').
  destruct (binary_no_error g' Hg') as (_ & _ & _ & Ea).
  rewrite Eg', Ea, El. reflexivity.
Qed.

Lemma atkinson_binary_buf (w h : nat) (gray mask : list Z) (k : nat) :
  length gray = w * h → Forall (λ g, g = 0 ∨ g = 255)%Z gray → k ≤ w * h →
  (atkinson_after w h gray mask k).1 = init_buf gray.
Proof.
  intros Hl Hb. induction k as [|k IH]; intros Hk; [reflexivity|].
  rewrite atkinson_after_S. specialize (IH ltac:(lia)).
  destruct (atkinson_after w h gray mask k) as [buf m]. simpl in IH. subst buf.
  assert (Hw : 0 < w) by (destruct w; [simpl in Hk; lia | lia]).
  pose proof (Nat.mod_upper_bound k w ltac:(lia)) as Hx.
  assert (Hy : k `div` w < h).
  { apply Nat.Div0.div_lt_upper_bound. lia. }
  pose proof (index_decompose w k) as Ek.
  destruct (binary_buf_lookup gray k Hb ltac:(lia)) as (g & _ & Hg & _ & Eg).
  destruct (binary_no_error g Hg) as (_ & _ & Ee & _).
  apply list_eq. intros j.
  rewrite (atkinson_pixel_buf w h _ _ (init_buf gray) m j Hx Hy)
    by (rewrite init_buf_length; exact Hl).
  cbv zeta. rewrite Ek, Eg, Ee.
  destruct (Z.eqb_spec (atkinson_weight w h (k `mod` w) (k `div` w) j) 0) as [|Hne];
    [reflexivity|].
  pose proof (atkinson_weight_target w h _ _ j Hx Hy Hne) as Hj.
  rewrite (proj2 no_error_shares).
  destruct (binary_buf_lookup gray j Hb ltac:(lia)) as (g' & _ & Hg' & El & Eg').
  destruct (binary_no_error g' Hg') as (_ & _ & _ & Ea).
  rewrite Eg', Ea, El. reflexivity.
Qed.

(** An image that is already black and white passes through both error
    diffusions unchanged: the mask has a 1 exactly at the white pixels. *)
Theorem diffusion_keeps_binary (w h : nat) (gray : list Z) :
  length gray = w * h → Forall (λ g, g = 0 ∨ g = 255)%Z gray →
  floyd_steinberg w h gray (replicate (w * h) 0%Z) = (λ g, bit (g =? 255)%Z) <$> gray
  ∧ atkinson w h gray (replicate (w * h) 0%Z) = (λ g, bit (g =? 255)%Z) <$> gray.
Proof.
  intros Hl Hb. split.
  - rewrite floyd_steinberg_after. apply list_eq. intros i.
    rewrite list_lookup_fmap.
    destruct (decide (i < w * h)) as [Hi|Hi].
    + rewrite fs_after_mask by (rewrite ?length_replicate; lia).
      rewrite (fs_binary_buf w h gray _ i Hl Hb ltac:(lia)).
      destruct (binary_buf_lookup gray i Hb ltac:(lia)) as (g & -> & Hg & _ & ->).
      destruct (binary_no_error g Hg) as (_ & -> & _). reflexivity.
    + rewrite !lookup_ge_None_2;
        [reflexivity | lia | rewrite fs_after_mask_length, length_replicate; lia].
  - rewrite atkinson_steps. apply list_eq. intros i.
    rewrite list_lookup_fmap.
    destruct (decide (i < w * h)) as [Hi|Hi].
    + rewrite atkinson_after_mask by (rewrite ?length_replicate; lia).
      rewrite (atkinson_binary_buf w h gray _ i Hl Hb ltac:(lia)).
      destruct (binary_buf_lookup gray i Hb ltac:(lia)) as (g & -> & Hg & _ & ->).
      destruct (binary_no_error g Hg) as (_ & -> & _). reflexivity.
    + rewrite !lookup_ge_None_2;
        [reflexivity | lia | rewrite atkinson_after_mask_length, length_replicate; lia].
Qed.

Lemma diffusion_keeps_binary_witness :
  floyd_steinberg 2 2 [0; 255; 255; 0]%Z (replicate (2 * 2) 0%Z)
    = (λ g, bit (g =? 255)%Z) <$> [0; 255; 255; 0]%Z
  ∧ atkinson 2 2 [0; 255; 255; 0]%Z (replicate (2 * 2) 0%Z)
    = (λ g, bit (g =? 255)%Z) <$> [0; 255; 255; 0]%Z.
Proof.
  apply diffusion_keeps_binary; [reflexivity | repeat constructor; lia].
Defined.

(** ** The pointwise variants *)

Lemma threshold_dither_lookup (threshold : number) (gray : list Z) (p : nat) (g : Z) :
  gray !! p = Some g →
  threshold_dither threshold gray (replicate (length gray) 0%Z) !! p
  = Some (bit (geb (of_Z g) (Math_max (of_Z 0) (Math_min (of_Z 255) threshold)))).
Proof.
  intros Hg. unfold threshold_dither. cbv zeta.
  pose proof (lookup_lt_Some _ _ _ Hg) as Hp.
  rewrite fill_lookup by (rewrite length_replicate; exact Hp).
  destruct (decide (p < length gray)); [|lia].
  unfold get_byte. rewrite Hg. reflexivity.
Qed.

Lemma clamped_threshold_special :
  Math_max (of_Z 0) (Math_min (of_Z 255) NaN) = NaN
  ∧ Math_max (of_Z 0) (Math_min (of_Z 255) (Inf false)) = Fin (255 * one)
  ∧ Math_max (of_Z 0) (Math_min (of_Z 255) (Inf true)) = Fin 0.
Proof. repeat split; vm_compute; reflexivity. Qed.

(** A threshold that is not a finite number: [NaN] leaves every pixel
    background, [+Infinity] acts as 255 (only pure white passes) and
    [-Infinity] as 0 (every pixel passes). *)
Theorem threshold_not_finite (gray : list Z) (p : nat) (g : Z) :
  Forall (λ g, 0 ≤ g ≤ 255)%Z gray → gray !! p = Some g →
  threshold_dither NaN gray (replicate (length gray) 0%Z) !! p = Some 0%Z
  ∧ threshold_dither (Inf false) gray (replicate (length gray) 0%Z) !! p
    = Some (bit (g =? 255)%Z)
  ∧ threshold_dither (Inf true) gray (replicate (length gray) 0%Z) !! p = Some 1%Z.
Proof.
  intros Hb Hg.
  rewrite (threshold_dither_lookup NaN gray p g Hg),
    (threshold_dither_lookup (Inf false) gray p g Hg),
    (threshold_dither_lookup (Inf true) gray p g Hg).
  destruct clamped_threshold_special as (-> & -> & ->).
  rewrite Forall_lookup in Hb. specialize (Hb p g Hg).
  rewrite of_Z_byte by exact Hb. pose proof one_pos as Ho.
  split; [reflexivity|]. unfold geb. rewrite !leb_fin.
  split.
  - destruct (Z.leb_spec (255 * one) (g * one)), (Z.eqb_spec g 255);
      try reflexivity; exfalso; hide_one; nia.
  - destruct (Z.leb_spec 0 (g * one)); [reflexivity|]. exfalso. hide_one. nia.
Qed.

Lemma threshold_not_finite_witness :
  threshold_dither NaN [10; 255]%Z (replicate (length [10; 255]%Z) 0%Z) !! 1
    = Some 0%Z
  ∧ threshold_dither (Inf false) [10; 255]%Z (replicate (length [10; 255]%Z) 0%Z) !! 1
    = Some (bit (255 =? 255)%Z)
  ∧ threshold_dither (Inf true) [10; 255]%Z (replicate (length [10; 255]%Z) 0%Z) !! 1
    = Some 1%Z.
Proof.
  apply threshold_not_finite; [repeat constructor; lia | reflexivity].
Defined.

(** Raising the threshold or darkening a pixel never turns a background pixel
    into a foreground one. *)
Theorem threshold_monotone (t t' : Z) (gray gray' : list Z) (p : nat) (g g' : Z) :
  Forall (λ g, 0 ≤ g ≤ 255)%Z gray → Forall (λ g, 0 ≤ g ≤ 255)%Z gray' →
  (t ≤ t')%Z → gray !! p = Some g → gray' !! p = Some g' → (g' ≤ g)%Z →
  threshold_dither (Fin t') gray' (replicate (length gray') 0%Z) !! p = Some 1%Z →
  threshold_dither (Fin t) gray (replicate (length gray) 0%Z) !! p = Some 1%Z.
Proof.
  intros Hb Hb' Ht Hg Hg' Hgg.
  rewrite (threshold_dither_lookup _ gray p g Hg),
    (threshold_dither_lookup _ gray' p g' Hg'), !threshold_clamp_fin.
  rewrite Forall_lookup in Hb, Hb'. specialize (Hb p g Hg). specialize (Hb' p g' Hg').
  rewrite !of_Z_byte by assumption. unfold geb. rewrite !leb_fin.
  pose proof one_pos as Ho.
  destruct (Z.leb_spec (Z.max 0 (Z.min (255 * one) t')) (g' * one)) as [H1|H1];
    [|discriminate].
  intros _.
  destruct (Z.leb_spec (Z.max 0 (Z.min (255 * one) t)) (g * one)) as [H2|H2];
    [reflexivity|].
  exfalso. assert (g' * one ≤ g * one)%Z by (apply Z.mul_le_mono_nonneg_r; lia).
  lia.
Qed.

Lemma threshold_monotone_witness :
  threshold_dither (Fin (100 * one)) [200]%Z (replicate (length [200]%Z) 0%Z) !! 0
  = Some 1%Z.
Proof.
  apply (threshold_monotone (100 * one) (128 * one) [200]%Z [150]%Z 0 200 150);
    [repeat constructor; lia | repeat constructor; lia | vm_compute; discriminate
     | reflexivity | reflexivity | lia | vm_compute; reflexivity].
Defined.

(** Every cell of a Bayer matrix of size N is one of 0 .. N² - 1. *)
Lemma bayer_cell_range (m : list (list Z)) (x y : nat) :
  m = BAYER_2 ∨ m = BAYER_4 ∨ m = BAYER_8 →
  (0 ≤ bayer_cell m x y < Z.of_nat (length m) * Z.of_nat (length m))%Z.
Proof.
  intros Hm.
  assert (H : Forall (λ row, length row = length m
                      ∧ Forall (λ c, 0 ≤ c < Z.of_nat (length m) * Z.of_nat (length m))%Z
                          row) m).
  { destruct Hm as [-> | [-> | ->]]; apply (bool_decide_unpack _); vm_compute;
      exact I. }
  assert (Hn : 0 < length m) by (destruct Hm as [-> | [-> | ->]]; simpl; lia).
  unfold bayer_cell.
  pose proof (Nat.mod_upper_bound y (length m) ltac:(lia)) as Hy.
  pose proof (Nat.mod_upper_bound x (length m) ltac:(lia)) as Hx.
  destruct (lookup_lt_is_Some_2 m _ Hy) as (row & Hrow).
  rewrite Forall_lookup in H. destruct (H _ _ Hrow) as (Hlen & Hcells).
  rewrite (list_lookup_total_correct _ _ _ Hrow).
  rewrite <- Hlen in Hx. destruct (lookup_lt_is_Some_2 row _ Hx) as (c & Hc).
  rewrite Hlen in Hc. rewrite (list_lookup_total_correct _ _ _ Hc).
  rewrite Forall_lookup in Hcells. exact (Hcells _ _ Hc).
Qed.

(** The ordered comparison on integers. *)
Lemma ordered_mask_lookup (m : list (list Z)) (w h : nat) (gray : list Z)
    (x y : nat) (g : Z) :
  m = BAYER_2 ∨ m = BAYER_4 ∨ m = BAYER_8 → (0 ≤ g ≤ 255)%Z →
  x < w → y < h → gray !! (y * w + x) = Some g →
  let N := Z.of_nat (length m) in
  ordered_dither m w h gray (replicate (w * h) 0%Z) !! (y * w + x)
  = Some (bit ((2 * bayer_cell m x y + 1) * 255 <? g * (2 * N * N))%Z).
Proof.
  intros Hm Hb Hx Hy Hg N.
  rewrite ordered_dither_lookup by (auto; apply length_replicate).
  unfold get_byte. rewrite Hg.
  rewrite (bayer_thresholds_exact m x y Hm). unfold exact_threshold. fold N.
  rewrite of_Z_byte by exact Hb.
  destruct (bayer_scale m Hm) as [Hu Ho]. fold N in Hu, Ho.
  set (u := (one / (2 * N * N))%Z) in *. clearbody u.
  unfold gtb, ltb. f_equal. f_equal.
  replace (g * one)%Z with (g * (2 * N * N) * u)%Z by (rewrite Ho; ring).
  destruct (Z.ltb_spec ((2 * bayer_cell m x y + 1) * 255) (g * (2 * N * N))) as [H|H];
    [apply Z.ltb_lt, Z.mul_lt_mono_pos_r | apply Z.ltb_ge, Z.mul_le_mono_nonneg_r];
    lia.
Qed.

(** Ordered dithering keeps pure black and pure white: a pixel of value 0 is
    background and a pixel of value 255 is foreground at every position, for
    each of the three matrices. *)
Theorem ordered_black_white (m : list (list Z)) (w h : nat) (gray : list Z)
    (x y : nat) :
  m = BAYER_2 ∨ m = BAYER_4 ∨ m = BAYER_8 → x < w → y < h →
  (gray !! (y * w + x) = Some 0%Z →
   ordered_dither m w h gray (replicate (w * h) 0%Z) !! (y * w + x) = Some 0%Z)
  ∧ (gray !! (y * w + x) = Some 255%Z →
     ordered_dither m w h gray (replicate (w * h) 0%Z) !! (y * w + x) = Some 1%Z).
Proof.
  intros Hm Hx Hy. pose proof (bayer_cell_range m x y Hm) as Hc.
  split; intros Hg;
    [rewrite (ordered_mask_lookup m w h gray x y 0 Hm ltac:(lia) Hx Hy Hg)
    |rewrite (ordered_mask_lookup m w h gray x y 255 Hm ltac:(lia) Hx Hy Hg)];
    cbv zeta; f_equal.
  - destruct (Z.ltb_spec ((2 * bayer_cell m x y + 1) * 255)
                (0 * (2 * Z.of_nat (length m) * Z.of_nat (length m)))); [lia|].
    reflexivity.
  - destruct (Z.ltb_spec ((2 * bayer_cell m x y + 1) * 255)
                (255 * (2 * Z.of_nat (length m) * Z.of_nat (length m)))); [reflexivity|].
    lia.
Qed.

Lemma ordered_black_white_witness :
  (([0; 255]%Z : list Z) !! (0 * 2 + 1) = Some 0%Z →
   ordered_dither BAYER_4 2 1 [0; 255]%Z (replicate (2 * 1) 0%Z) !! (0 * 2 + 1)
   = Some 0%Z)
  ∧ (([0; 255]%Z : list Z) !! (0 * 2 + 1) = Some 255%Z →
     ordered_dither BAYER_4 2 1 [0; 255]%Z (replicate (2 * 1) 0%Z) !! (0 * 2 + 1)
     = Some 1%Z).
Proof. apply ordered_black_white; [auto | lia | lia]. Defined.

(** A brighter pixel at the same position is foreground whenever the darker
    one is. *)
Theorem ordered_monotone (m : list (list Z)) (w h : nat) (gray gray' : list Z)
    (x y : nat) (g g' : Z) :
  m = BAYER_2 ∨ m = BAYER_4 ∨ m = BAYER_8 → x < w → y < h →
  gray !! (y * w + x) = Some g → gray' !! (y * w + x) = Some g' →
  (0 ≤ g ≤ g')%Z → (g' ≤ 255)%Z →
  ordered_dither m w h gray (replicate (w * h) 0%Z) !! (y * w + x) = Some 1%Z →
  ordered_dither m w h gray' (replicate (w * h) 0%Z) !! (y * w + x) = Some 1%Z.
Proof.
  intros Hm Hx Hy Hg Hg' Hgg Hb.
  rewrite (ordered_mask_lookup m w h gray x y g Hm ltac:(lia) Hx Hy Hg),
    (ordered_mask_lookup m w h gray' x y g' Hm ltac:(lia) Hx Hy Hg').
  cbv zeta. pose proof (bayer_cell_range m x y Hm) as Hc.
  set (N := Z.of_nat (length m)) in *.
  destruct (Z.ltb_spec ((2 * bayer_cell m x y + 1) * 255) (g * (2 * N * N))) as [H1|H1];
    [|discriminate].
  intros _.
  destruct (Z.ltb_spec ((2 * bayer_cell m x y + 1) * 255) (g' * (2 * N * N))) as [H2|H2];
    [reflexivity|].
  exfalso. assert (g * (2 * N * N) ≤ g' * (2 * N * N))%Z
    by (apply Z.mul_le_mono_nonneg_r; nia).
  lia.
Qed.

Lemma ordered_monotone_witness :
  ordered_dither BAYER_2 1 1 [200]%Z (replicate (1 * 1) 0%Z) !! (0 * 1 + 0) = Some 1%Z.
Proof.
  apply (ordered_monotone BAYER_2 1 1 [128]%Z [200]%Z 0 0 128 200);
    [auto | lia | lia | reflexivity | reflexivity | lia | lia | vm_compute; reflexivity].
Defined.

(** ** The random variant *)

Lemma random_dither_steps (Math_random : nat → number) (gray mask : list Z)
    (calls n : nat) :
  n ≤ length gray → length mask = length gray →
  let out := for_ n
    (λ p '(mask, calls),
       (<[p := bit (geb (get_byte gray p) (mul (Math_random calls) (of_Z 255)))]> mask,
        S calls)) (mask, calls) in
  out.2 = calls + n ∧ length out.1 = length gray
  ∧ ∀ p, out.1 !! p =
         if decide (p < n)
         then Some (bit (geb (get_byte gray p)
                             (mul (Math_random (calls + p)) (of_Z 255))))
         else mask !! p.
Proof.
  intros Hn Hl. induction n as [|n IH]; cbv zeta.
  - rewrite for_0. simpl. split; [lia|]. split; [exact Hl|]. intros p.
    destruct (decide (p < 0)); [lia | reflexivity].
  - rewrite for_S. specialize (IH ltac:(lia)). cbv zeta in IH.
    destruct (for_ n _ (mask, calls)) as [m c]. simpl in IH.
    destruct IH as (-> & Hlen & Hlook). simpl.
    split; [lia|]. split; [rewrite length_insert; exact Hlen|].
    intros p. destruct (decide (p = n)) as [->|Hne].
    + rewrite list_lookup_insert_eq by lia.
      destruct (decide (n < S n)); [reflexivity | lia].
    + rewrite list_lookup_insert_ne by auto. rewrite Hlook.
      destruct (decide (p < n)), (decide (p < S n)); try lia; reflexivity.
Qed.

(** The random variant draws one number per pixel, in scan order: the pixel
    [p] is compared with the draw number [calls + p] scaled by 255, and the
    count of draws advances by the number of pixels. *)
Theorem random_dither_draws (Math_random : nat → number) (gray : list Z)
    (calls p : nat) (g : Z) :
  gray !! p = Some g →
  let out := random_dither Math_random gray (replicate (length gray) 0%Z, calls) in
  out.2 = calls + length gray
  ∧ length out.1 = length gray
  ∧ out.1 !! p = Some (bit (geb (of_Z g) (mul (Math_random (calls + p)) (of_Z 255)))).
Proof.
  intros Hg out.
  destruct (random_dither_steps Math_random gray (replicate (length gray) 0%Z) calls
              (length gray) ltac:(lia) ltac:(apply length_replicate))
    as (H1 & H2 & H3).
  split; [exact H1|]. split; [exact H2|].
  pose proof (lookup_lt_Some _ _ _ Hg) as Hp.
  unfold out, random_dither. rewrite H3.
  destruct (decide (p < length gray)); [|lia].
  unfold get_byte. rewrite Hg. reflexivity.
Qed.

Lemma random_dither_draws_witness :
  let out := random_dither alternating [10; 200]%Z
               (replicate (length [10; 200]%Z) 0%Z, 5) in
  out.2 = 5 + length [10; 200]%Z
  ∧ length out.1 = length [10; 200]%Z
  ∧ out.1 !! 1 = Some (bit (geb (of_Z 200) (mul (alternating (5 + 1)) (of_Z 255)))).
Proof. apply (random_dither_draws alternating [10; 200]%Z 5 1 200). reflexivity. Defined.

(** With draws in [0, 1], as [Math.random] gives them, a pure white pixel is
    always foreground. *)
Theorem random_white_foreground (Math_random : nat → number) (gray : list Z)
    (calls p : nat) :
  (∀ k, between 0 1 (Math_random k)) → gray !! p = Some 255%Z →
  (random_dither Math_random gray (replicate (length gray) 0%Z, calls)).1 !! p
  = Some 1%Z.
Proof.
  intros Hr Hg.
  destruct (random_dither_steps Math_random gray (replicate (length gray) 0%Z) calls
              (length gray) ltac:(lia) ltac:(apply length_replicate))
    as (_ & _ & H3).
  pose proof (lookup_lt_Some _ _ _ Hg) as Hp.
  unfold random_dither. rewrite H3.
  destruct (decide (p < length gray)); [|lia].
  unfold get_byte. rewrite Hg.
  destruct (between_fin _ _ _ (Hr (calls + p))) as (r & -> & Hr').
  rewrite (of_Z_byte 255) by lia. unfold mul. pose proof one_pos as Ho.
  assert (Hb : (0 * one * one ≤ r * (255 * one) ≤ 255 * one * one)%Z).
  { hide_one. split; [apply Z.mul_nonneg_nonneg; lia|].
    replace (255 * o * o)%Z with (o * (255 * o))%Z by ring.
    apply Z.mul_le_mono_nonneg_r; lia. }
  destruct (between_fin _ _ _ (round64_between_int (r * (255 * one)) one 0 255
              Ho ltac:(apply small_abs; lia) ltac:(apply small_abs; lia) Hb))
    as (t & -> & Ht).
  unfold geb. rewrite leb_fin.
  destruct (Z.leb_spec t (255 * one)); [reflexivity | lia].
Qed.

Lemma random_white_foreground_witness :
  (random_dither alternating [255]%Z (replicate (length [255]%Z) 0%Z, 0)).1 !! 0
  = Some 1%Z.
Proof.
  apply random_white_foreground; [|reflexivity].
  intros k. unfold alternating. destruct (Nat.even k); vm_compute;
    split; discriminate.
Defined.

(** ** From the source canvas to the painted blocks *)

Lemma to_uint8_clamp_exact (l : Z) :
  (0 ≤ l ≤ 255)%Z → to_uint8_clamp (of_Z l) = l.
Proof.
  intros Hl. rewrite of_Z_byte by exact Hl. unfold to_uint8_clamp.
  destruct (reduce (l * one) one) as [a c] eqn:E.
  destruct (reduce_spec _ _ _ _ E) as (k & Hk & Ea & Ec).
  pose proof one_pos as Ho. pose proof (pow2_pos k Hk) as Hp.
  assert (Hc : (0 < c)%Z).
  { destruct (Z.lt_trichotomy c 0) as [H|[H|H]]; [|subst c; lia|exact H].
    assert (c * 2 ^ k < 0)%Z by (apply Z.mul_neg_pos; lia). lia. }
  assert (Ha : (a = l * c)%Z).
  { apply (Z.mul_reg_r _ _ (2 ^ k)%Z); [lia|]. rewrite <- Ea, Ec. ring. }
  rewrite Ha, rne_exact by exact Hc. lia.
Qed.

Lemma getImageData_length (c : Canvas) :
  length (getImageData c) = 4 * length (bitmap c).
Proof.
  unfold getImageData. induction (bitmap c) as [|px l IH]; [reflexivity|].
  rewrite bind_cons, length_app, IH. simpl. lia.
Qed.

Lemma getImageData_lookup (c : Canvas) (p : nat) (px : Pixel) :
  bitmap c !! p = Some px →
  getImageData c !! (4 * p) = Some (red px)
  ∧ getImageData c !! (4 * p + 1) = Some (green px)
  ∧ getImageData c !! (4 * p + 2) = Some (blue px).
Proof.
  unfold getImageData. revert p. induction (bitmap c) as [|q l IH]; intros p Hp;
    [discriminate|].
  rewrite bind_cons. destruct p as [|p].
  - injection Hp as ->. repeat split; reflexivity.
  - simpl in Hp. destruct (IH p Hp) as (H1 & H2 & H3).
    replace (4 * S p) with (4 + 4 * p) by lia.
    replace (4 + 4 * p + 1) with (4 + (4 * p + 1)) by lia.
    replace (4 + 4 * p + 2) with (4 + (4 * p + 2)) by lia.
    repeat split; assumption.
Qed.

(** The element [p] of the gray array, read off the image data. *)
Lemma compute_gray_lookup (Math_pow : number → number → number) (st : State)
    (w h : nat) (data : list Z) (p : nat) :
  length data = 4 * (w * h) → p < w * h →
  compute_gray Math_pow st w h data !! p
  = Some (to_uint8_clamp
            (applyTonalAdjustments Math_pow (brightness st) (contrast st) (gamma st)
               (invert st)
               (toLuma (get_byte data (4 * p)) (get_byte data (4 * p + 1))
                       (get_byte data (4 * p + 2))))).
Proof.
  intros Hl Hp. unfold compute_gray, set_byte. rewrite Hl.
  replace ((4 * (w * h) + 3) `div` 4) with (w * h).
  2: { apply Nat.div_unique with 3; lia. }
  rewrite (fill_lookup (λ p, to_uint8_clamp _)) by (rewrite length_replicate; lia).
  destruct (decide (p < w * h)); [reflexivity | lia].
Qed.

(** The gray value of a pixel depends only on the red, green and blue bytes of
    that pixel: neither its alpha nor any other pixel enters. *)
Theorem compute_gray_pixel (Math_pow : number → number → number) (st : State)
    (oc : Canvas) (p : nat) (px : Pixel) :
  length (bitmap oc) = width oc * height oc → bitmap oc !! p = Some px →
  compute_gray Math_pow st (width oc) (height oc) (getImageData oc) !! p
  = Some (to_uint8_clamp
            (applyTonalAdjustments Math_pow (brightness st) (contrast st) (gamma st)
               (invert st)
               (toLuma (of_Z (red px)) (of_Z (green px)) (of_Z (blue px))))).
Proof.
  intros Hl Hp. pose proof (lookup_lt_Some _ _ _ Hp) as Hlt.
  rewrite compute_gray_lookup by (rewrite ?getImageData_length; lia).
  destruct (getImageData_lookup oc p px Hp) as (H1 & H2 & H3).
  unfold get_byte. rewrite H1, H2, H3. reflexivity.
Qed.

Lemma compute_gray_pixel_witness :
  compute_gray (λ x _, x) unknown_algorithm_state 2 1
    (getImageData {| width := 2; height := 1;
                     bitmap := [ {| red := 1; green := 2; blue := 3; alpha := 0 |};
                                 {| red := 4; green := 5; blue := 6; alpha := 9 |} ];
                     draw := initial_draw_state; saved := [] |}) !! 1
  = Some (to_uint8_clamp
            (applyTonalAdjustments (λ x _, x) (of_Z 0) (of_Z 0) (of_Z 1) false
               (toLuma (of_Z 4) (of_Z 5) (of_Z 6)))).
Proof.
  apply (compute_gray_pixel (λ x _, x) unknown_algorithm_state
           {| width := 2; height := 1;
              bitmap := [ {| red := 1; green := 2; blue := 3; alpha := 0 |};
                          {| red := 4; green := 5; blue := 6; alpha := 9 |} ];
              draw := initial_draw_state; saved := [] |} 1
           {| red := 4; green := 5; blue := 6; alpha := 9 |});
    reflexivity.
Defined.

(** The whole of [processImage] for the ["Threshold"] algorithm with the tonal
    sliders at their initial values: it returns, the output canvas is the
    source scaled by the pixel size, and the block of the source pixel
    [(x, y)] has the foreground colour exactly when the luma of the pixel (an
    integer nearest to the weighted mean of its channels), complemented if
    [invert] is set, reaches the threshold. *)
Theorem processImage_threshold (Math_pow : number → number → number)
    (Math_random : nat → number) (st : State) (oc dc : Canvas) (pal : Palette)
    (T : Z) :
  originalCanvas st = Some oc → ditherCanvas st = Some dc →
  width oc ≠ 0 → height oc ≠ 0 → length (bitmap oc) = width oc * height oc →
  Forall byte_channels (bitmap oc) →
  algorithm st = "Threshold"%string → PALETTES !! paletteKey st = Some pal →
  brightness st = of_Z 0 → contrast st = of_Z 0 → gamma st = of_Z 1 →
  threshold st = of_Z T → (0 ≤ T ≤ 255)%Z →
  ∃ out cf cb,
    processImage Math_pow Math_random st
      = Returned (with_output st (Some out) (randomCalls st))
    ∧ parse_colour (fg pal) = Some cf ∧ parse_colour (bg pal) = Some cb
    ∧ width out = width oc * ditherSize st
    ∧ height out = height oc * ditherSize st
    ∧ ∀ x y dx dy px,
        x < width oc → y < height oc → dx < ditherSize st → dy < ditherSize st →
        bitmap oc !! (y * width oc + x) = Some px →
        ∃ l, (10000 * l - 5000 ≤ 2126 * red px + 7152 * green px + 722 * blue px
              ≤ 10000 * l + 5000)%Z
             ∧ bitmap out !! block_index (width oc) (ditherSize st) x y dx dy
               = Some (if (T <=? (if invert st then 255 - l else l))%Z
                       then cf else cb).
Proof.
  intros Hoc Hdc Hw Hh Hlen Hbytes Halg Hpal Hbr Hco Hga Hth HT.
  destruct (palettes_parse _ _ Hpal) as (cf & cb & Hcf & Hcb).
  set (gray := compute_gray Math_pow st (width oc) (height oc) (getImageData oc)).
  set (mask := threshold_dither (threshold st) gray
                 (replicate (width oc * height oc) 0%Z)).
  exists (composite dc pal (width oc) (height oc) (ditherSize st) mask), cf, cb.
  destruct (composite_spec dc pal (width oc) (height oc) (ditherSize st) mask cf cb
              Hcf Hcb) as (Hwo & Hho & _ & Hblocks).
  split.
  { unfold processImage. rewrite Hoc, Hdc.
    destruct (Nat.eqb_spec (width oc) 0); [contradiction|].
    destruct (Nat.eqb_spec (height oc) 0); [contradiction|].
    cbn [orb]. unfold dither. rewrite Halg. cbn [String.eqb Ascii.eqb Bool.eqb].
    rewrite Hpal. reflexivity. }
  split; [exact Hcf|]. split; [exact Hcb|]. split; [exact Hwo|]. split; [exact Hho|].
  intros x y dx dy px Hx Hy Hdx Hdy Hpx.
  rewrite Forall_lookup in Hbytes. destruct (Hbytes _ _ Hpx) as (Hr & Hg & Hb).
  destruct (luma_bracket _ _ _ Hr Hg Hb) as (l & El & Hl1 & Hl2).
  assert (Hl255 : (0 ≤ l ≤ 255)%Z) by lia.
  exists l. split; [lia|].
  rewrite (Hblocks x y dx dy Hx Hy Hdx Hdy).
  assert (Egray : gray !! (y * width oc + x)
                  = Some (if invert st then 255 - l else l)%Z).
  { unfold gray. pose proof (lookup_lt_Some _ _ _ Hpx) as Hlt.
    rewrite compute_gray_lookup by (rewrite ?getImageData_length; lia).
    destruct (getImageData_lookup oc _ px Hpx) as (H1 & H2 & H3).
    unfold get_byte. rewrite H1, H2, H3, El, Hbr, Hco, Hga.
    destruct (brightness_bracket Math_pow 0 l (of_Z 1) (invert st) Hl255 ltac:(lia)
                ltac:(vm_compute; reflexivity)) as (k & -> & Hk).
    cbv zeta in Hk.
    assert (k = if invert st then 255 - l else l)%Z as ->
      by (clear - Hk Hl255; quotients; destruct (invert st); lia).
    rewrite to_uint8_clamp_exact by (destruct (invert st); lia). reflexivity. }
  assert (Emask : mask !! (y * width oc + x)
                  = Some (bit (T <=? (if invert st then 255 - l else l))%Z)).
  { unfold mask. rewrite <- (compute_gray_length Math_pow st (width oc) (height oc)
                               (getImageData oc)). fold gray.
    rewrite (threshold_dither_lookup _ gray _ _ Egray), Hth.
    rewrite (of_Z_byte T) by exact HT. rewrite threshold_clamp_fin.
    rewrite of_Z_byte by (destruct (invert st); lia).
    unfold geb. rewrite leb_fin. f_equal. f_equal. pose proof one_pos as Ho.
    set (v := if invert st then (255 - l)%Z else l).
    assert (Hv : (0 ≤ v ≤ 255)%Z) by (unfold v; destruct (invert st); lia).
    clearbody v.
    assert (Hc : Z.max 0 (Z.min (255 * one) (T * one)) = (T * one)%Z).
    { hide_one. nia. }
    rewrite Hc.
    destruct (Z.leb_spec (T * one) (v * one)), (Z.leb_spec T v);
      try reflexivity; exfalso; hide_one; nia. }
  unfold truthy. rewrite Emask.
  destruct (T <=? _)%Z; reflexivity.
Qed.

Lemma processImage_threshold_witness :
  ∃ out cf cb,
    processImage (λ x _, x) (λ _, Fin 0)
      (with_output
         {| originalCanvas := originalCanvas unknown_algorithm_state;
            ditherCanvas := Some (blank 0 0);
            algorithm := "Threshold"; paletteKey := "Sepia"; ditherSize := 2;
            brightness := of_Z 0; contrast := of_Z 0; gamma := of_Z 1;
            invert := true; threshold := of_Z 128; randomCalls := 0 |}
         (Some (blank 0 0)) 0)
      = Returned (with_output
         {| originalCanvas := originalCanvas unknown_algorithm_state;
            ditherCanvas := Some (blank 0 0);
            algorithm := "Threshold"; paletteKey := "Sepia"; ditherSize := 2;
            brightness := of_Z 0; contrast := of_Z 0; gamma := of_Z 1;
            invert := true; threshold := of_Z 128; randomCalls := 0 |}
         (Some out) 0)
    ∧ parse_colour "#3e2f1c" = Some cf ∧ parse_colour "#f3e8d0" = Some cb
    ∧ width out = 2 * 2 ∧ height out = 1 * 2.
Proof.
  destruct (processImage_threshold (λ x _, x) (λ _, Fin 0)
    (with_output
         {| originalCanvas := originalCanvas unknown_algorithm_state;
            ditherCanvas := Some (blank 0 0);
            algorithm := "Threshold"; paletteKey := "Sepia"; ditherSize := 2;
            brightness := of_Z 0; contrast := of_Z 0; gamma := of_Z 1;
            invert := true; threshold := of_Z 128; randomCalls := 0 |}
         (Some (blank 0 0)) 0)
    {| width := 2; height := 1;
       bitmap := [ {| red := 10; green := 10; blue := 10; alpha := 255 |};
                   {| red := 200; green := 200; blue := 200; alpha := 255 |} ];
       draw := initial_draw_state; saved := [] |}
    (blank 0 0) {| fg := "#3e2f1c"; bg := "#f3e8d0" |} 128)
    as (out & cf & cb & H1 & H2 & H3 & H4 & H5 & _);
    [reflexivity | reflexivity | simpl; lia | simpl; lia | reflexivity
     | repeat constructor; simpl; lia | reflexivity | vm_compute; reflexivity
     | reflexivity | reflexivity | reflexivity | reflexivity | lia |].
  exists out, cf, cb. repeat split; assumption.
Defined.

(** ** The painted canvas *)

Lemma block_index_cover (w s k : nat) :
  0 < s → 0 < w →
  let X := k `mod` (w * s) in
  let Y := k `div` (w * s) in
  block_index w s (X `div` s) (Y `div` s) (X `mod` s) (Y `mod` s) = k
  ∧ X `div` s < w ∧ X `mod` s < s ∧ Y `mod` s < s.
Proof.
  intros Hs Hw X Y. unfold block_index.
  pose proof (Nat.div_mod_eq k (w * s)) as E1.
  pose proof (Nat.div_mod_eq X s) as E2.
  pose proof (Nat.div_mod_eq Y s) as E3.
  pose proof (Nat.mod_upper_bound k (w * s) ltac:(nia)) as B1.
  pose proof (Nat.mod_upper_bound X s ltac:(lia)) as B2.
  pose proof (Nat.mod_upper_bound Y s ltac:(lia)) as B3.
  fold X Y in E1, B1.
  assert (X `div` s < w).
  { apply Nat.Div0.div_lt_upper_bound. rewrite Nat.mul_comm. exact B1. }
  split; [|auto].
  rewrite (Nat.mul_comm (Y `div` s) s), (Nat.mul_comm (X `div` s) s).
  rewrite <- E2, <- E3. lia.
Qed.

(** The painted canvas holds the two colours of the palette and nothing else:
    whatever the dither canvas showed before is gone. *)
Theorem compositor_two_colours (dc : Canvas) (key : string) (pal : Palette)
    (w h s : nat) (mask : list Z) (k : nat) (px : Pixel) :
  PALETTES !! key = Some pal →
  bitmap (composite dc pal w h s mask) !! k = Some px →
  parse_colour (fg pal) = Some px ∨ parse_colour (bg pal) = Some px.
Proof.
  intros Hpal Hk. destruct (palettes_parse _ _ Hpal) as (cf & cb & Hcf & Hcb).
  destruct (composite_spec dc pal w h s mask cf cb Hcf Hcb) as (_ & _ & Hlen & Hblocks).
  pose proof (lookup_lt_Some _ _ _ Hk) as Hlt. rewrite Hlen in Hlt.
  assert (Hs : 0 < s) by (destruct s; [rewrite Nat.mul_0_r in Hlt; lia | lia]).
  assert (Hw : 0 < w) by (destruct w; [simpl in Hlt; lia | lia]).
  destruct (block_index_cover w s k Hs Hw) as (E & Hx & Hdx & Hdy).
  assert (Hy : (k `div` (w * s)) `div` s < h).
  { apply Nat.Div0.div_lt_upper_bound, Nat.Div0.div_lt_upper_bound. lia. }
  specialize (Hblocks _ _ _ _ Hx Hy Hdx Hdy). rewrite E, Hk in Hblocks.
  injection Hblocks as ->.
  destruct (truthy mask _); [left | right]; assumption.
Qed.

Lemma compositor_two_colours_witness :
  parse_colour "#0f766e" = Some {| red := 15; green := 118; blue := 110; alpha := 255 |}
  ∨ parse_colour "#fbf1c7" = Some {| red := 15; green := 118; blue := 110; alpha := 255 |}.
Proof.
  apply (compositor_two_colours (blank 3 3) "Teal & Sand"
           {| fg := "#0f766e"; bg := "#fbf1c7" |} 2 1 2 [0; 1]%Z 6);
    vm_compute; reflexivity.
Defined.

Lemma paint_blocks_context (w h s : nat) (mask : list Z) (dc : Canvas) :
  draw (paint_blocks w h s mask dc) = draw dc
  ∧ saved (paint_blocks w h s mask dc) = saved dc.
Proof.
  unfold paint_blocks.
  apply (for_ind (λ _ c, draw c = draw dc ∧ saved c = saved dc)); [auto|].
  intros y c _ Hc.
  apply (for_ind (λ _ c, draw c = draw dc ∧ saved c = saved dc)); [exact Hc|].
  intros x c' _ Hc'. destruct (truthy mask _); [|exact Hc'].
  destruct (fillRect_fields c' (x * s) (y * s) s s) as (_ & _ & -> & -> & _).
  exact Hc'.
Qed.

(** After [processImage] has painted, the context of the dither canvas is in
    a fixed state whatever it was before: the fill style is back to the
    default black, image smoothing is off and no saved state is left on the
    stack. *)
Theorem compositor_context (dc : Canvas) (pal : Palette) (w h s : nat)
    (mask : list Z) :
  draw (composite dc pal w h s mask)
  = {| fillStyle := opaque_black; imageSmoothingEnabled := false |}
  ∧ saved (composite dc pal w h s mask) = [].
Proof.
  unfold composite. cbv zeta.
  set (c0 := save (set_imageSmoothingEnabled
                     (set_height (set_width dc (w * s)) (h * s)) false)).
  assert (H0 : saved c0 = [ {| fillStyle := opaque_black;
                               imageSmoothingEnabled := false |} ])
    by reflexivity.
  assert (Hs : ∀ c col, saved (set_fillStyle c col) = saved c).
  { intros c col. unfold set_fillStyle. destruct (parse_colour col); reflexivity. }
  set (c1 := set_fillStyle c0 (bg pal)).
  set (c2 := fillRect c1 0 0 (w * s) (h * s)).
  set (c3 := set_fillStyle c2 (fg pal)).
  destruct (paint_blocks_context w h s mask c3) as (_ & S4).
  destruct (fillRect_fields c1 0 0 (w * s) (h * s)) as (_ & _ & _ & S2 & _).
  fold c2 in S2.
  assert (S3 : saved (paint_blocks w h s mask c3) = saved c0).
  { rewrite S4. unfold c3. rewrite Hs, S2. unfold c1. rewrite Hs. reflexivity. }
  unfold restore. rewrite S3, H0. split; reflexivity.
Qed.

(** ** How [processImage] ends *)

(** [processImage] ends in an exception exactly when both canvases are there,
    the source is not empty and the palette key names no palette: the
    destructuring of [undefined] throws.  The dither canvas is then left as
    it was: the exception comes before anything is painted. *)
Theorem processImage_throws (Math_pow : number → number → number)
    (Math_random : nat → number) (st : State) :
  paletteKey st ∉ Object_prototype_names →
  ((∃ st', processImage Math_pow Math_random st = Threw st')
   ↔ ∃ oc dc, originalCanvas st = Some oc ∧ ditherCanvas st = Some dc
              ∧ width oc ≠ 0 ∧ height oc ≠ 0 ∧ PALETTES !! paletteKey st = None)
  ∧ ∀ st', processImage Math_pow Math_random st = Threw st' →
           ditherCanvas st' = ditherCanvas st
           ∧ originalCanvas st' = originalCanvas st.
Proof.
  intros _. unfold processImage.
  destruct (originalCanvas st) as [oc|] eqn:Eoc;
    [|split; [split; [intros (? & ?); discriminate
                     | intros (? & ? & ? & _); discriminate]
             | intros ? ?; discriminate]].
  destruct (ditherCanvas st) as [dc|] eqn:Edc;
    [|split; [split; [intros (? & ?); discriminate
                     | intros (? & ? & _ & ? & _); discriminate]
             | intros ? ?; discriminate]].
  destruct (Nat.eqb_spec (width oc) 0) as [Hw|Hw].
  { cbn [orb]. split; [split|]; [intros (? & ?); discriminate | | intros ? ?; discriminate].
    intros (oc' & dc' & E1 & _ & H & _). injection E1 as <-. contradiction. }
  destruct (Nat.eqb_spec (height oc) 0) as [Hh|Hh].
  { cbn [orb]. split; [split|]; [intros (? & ?); discriminate | | intros ? ?; discriminate].
    intros (oc' & dc' & E1 & _ & _ & H & _). injection E1 as <-. contradiction. }
  cbn [orb].
  destruct (dither Math_random st (width oc) (height oc) _) as [mask calls].
  destruct (PALETTES !! paletteKey st) as [pal|] eqn:Epal.
  - split; [split|]; [intros (? & ?); discriminate | | intros ? ?; discriminate].
    intros (_ & _ & _ & _ & _ & _ & ?). discriminate.
  - split; [split|].
    + intros _. exists oc, dc. auto.
    + intros _. eexists. reflexivity.
    + intros st' E. injection E as <-. simpl. auto.
Qed.

Lemma processImage_throws_witness :
  ∃ st', processImage (λ x _, x) (λ _, Fin 0)
           {| originalCanvas := originalCanvas random_state;
              ditherCanvas := Some (blank 3 3);
              algorithm := "Threshold"; paletteKey := "Neon"; ditherSize := 2;
              brightness := of_Z 0; contrast := of_Z 0; gamma := of_Z 1;
              invert := false; threshold := of_Z 128; randomCalls := 0 |}
         = Threw st'.
Proof.
  refine (proj2 (proj1 (processImage_throws (λ x _, x) (λ _, Fin 0) _ _)) _).
  - simpl. unfold Object_prototype_names.
    rewrite !elem_of_cons, elem_of_nil. intros H.
    repeat (destruct H as [H|H]; [discriminate H|]). exact H.
  - eexists _, _. repeat split; try reflexivity; simpl; lia.
Defined.

(** After [clearImage] both canvases, where there are any, are 0 by 0 with
    an empty bitmap, a run of [processImage] returns at once and changes
    nothing, and an export would be named after no file: [dithered_...]. *)
Theorem clearImage_then_processImage (Math_pow : number → number → number)
    (Math_random : nat → number) (e : Editor) :
  let e' := clearImage e in
  imageURL e' = None
  ∧ (∀ c, originalCanvas (processing e') = Some c ∨ ditherCanvas (processing e') = Some c →
          width c = 0 ∧ height c = 0 ∧ bitmap c = [])
  ∧ processImage Math_pow Math_random (processing e') = Returned (processing e')
  ∧ downloadPNG_name (fileName e') (algorithm (processing e'))
    = ("dithered_" +:+ replace_spaces (algorithm (processing e)) 0 false +:+ ".png")%string.
Proof.
  intros e'. split; [reflexivity|]. split; [|split].
  - intros c [H|H]; simpl in H;
      [destruct (originalCanvas (processing e)) | destruct (ditherCanvas (processing e))];
      try discriminate; injection H as <-; repeat split.
  - unfold processImage. simpl.
    destruct (originalCanvas (processing e)); [|reflexivity].
    destruct (ditherCanvas (processing e)); reflexivity.
  - reflexivity.
Qed.

(** ** The working size *)

Lemma mul_one_exact (n : Z) :
  (0 ≤ n < 2 ^ 32)%Z → mul (of_Z n) (of_Z 1) = of_Z n.
Proof.
  intros Hn. assert (2 ^ 32 < 2 ^ 53)%Z by reflexivity.
  rewrite of_Z_1, of_Z_exact by lia. unfold mul. pose proof one_pos.
  apply round64_exact; [lia | apply int_representable; lia |].
  assert (2 ^ 32 * one < 2 ^ 2098)%Z by reflexivity.
  assert (n * one < 2 ^ 32 * one)%Z by (apply Z.mul_lt_mono_pos_r; lia).
  rewrite Z.abs_eq; [lia|]. apply Z.mul_nonneg_nonneg; lia.
Qed.

Lemma Math_round_int (n : Z) :
  (Z.abs n < 2 ^ 53)%Z → Math_round (of_Z n) = of_Z n.
Proof.
  intros Hn. rewrite of_Z_exact by exact Hn. rewrite Math_round_fin.
  f_equal. f_equal. pose proof one_pos.
  replace (2 * (n * one) + one)%Z with (one + n * (2 * one))%Z by ring.
  rewrite Z.div_add by lia. rewrite Z.div_small by lia. reflexivity.
Qed.

Lemma Math_max_int (a b : Z) :
  (Z.abs a < 2 ^ 53 → Z.abs b < 2 ^ 53 →
   Math_max (of_Z a) (of_Z b) = of_Z (Z.max a b))%Z.
Proof.
  intros Ha Hb. rewrite !of_Z_exact by lia. pose proof one_pos as Ho.
  unfold Math_max, ltb.
  destruct (Z.ltb_spec (a * one) (b * one)) as [H|H]; f_equal.
  - rewrite Z.max_r; [reflexivity|]. hide_one. nia.
  - rewrite Z.max_l; [reflexivity|]. hide_one. nia.
Qed.

Lemma one_split52 : one = (2 ^ 52 * 2 ^ 1022)%Z.
Proof. reflexivity. Qed.

(** The scale factor of an image wider than 900, between two neighbours on
    the 2^-52 grid. *)
Lemma scale_bracket (nw : Z) :
  (900 < nw < 2 ^ 32)%Z →
  ∃ s, div (of_Z 900) (of_Z nw) = Fin s
       ∧ (900 * 2 ^ 52 / nw * 2 ^ 1022 ≤ s ≤ (900 * 2 ^ 52 / nw + 1) * 2 ^ 1022)%Z
       ∧ (0 ≤ s ≤ one)%Z.
Proof.
  intros Hn. assert (H32 : (2 ^ 32 < 2 ^ 53)%Z) by reflexivity.
  rewrite !of_Z_exact by lia. pose proof one_pos as Ho. unfold div.
  assert (Hno : (0 < nw * one)%Z) by (apply Z.mul_pos_pos; lia).
  destruct (Z.eqb_spec (nw * one) 0); [lia|].
  rewrite Z.sgn_pos, Z.abs_eq, Z.mul_1_l by lia.
  pose proof (Z.mul_div_le (900 * 2 ^ 52) nw ltac:(lia)) as D1.
  pose proof (Z.mul_succ_div_gt (900 * 2 ^ 52) nw ltac:(lia)) as D2.
  set (m := (900 * 2 ^ 52 / nw)%Z) in *. clearbody m.
  assert (H52 : (0 < 2 ^ 52 ∧ 2 ^ 52 + 1 < 2 ^ 53)%Z) by (split; reflexivity).
  assert (Hm : (0 ≤ m ∧ m + 1 ≤ 2 ^ 52)%Z).
  { set (Q := (2 ^ 52)%Z) in *. clearbody Q. nia. }
  pose proof (pow2_pos 1022 ltac:(lia)) as HP.
  destruct (round64_between (900 * one * one) (nw * one)
              (m * 2 ^ 1022) ((m + 1) * 2 ^ 1022)) as (s & Es & Hs).
  - lia.
  - apply representable_intro; lia.
  - apply representable_intro; lia.
  - assert (2 ^ 53 * 2 ^ 1022 < 2 ^ 2098)%Z by reflexivity.
    set (P := (2 ^ 1022)%Z) in *. set (Q := (2 ^ 52)%Z) in *. clearbody P Q.
    rewrite Z.abs_eq by nia. nia.
  - assert (2 ^ 53 * 2 ^ 1022 < 2 ^ 2098)%Z by reflexivity.
    set (P := (2 ^ 1022)%Z) in *. set (Q := (2 ^ 52)%Z) in *. clearbody P Q.
    rewrite Z.abs_eq by nia. nia.
  - rewrite one_split52. clear Ho Hno n.
    set (P := (2 ^ 1022)%Z) in *. set (Q := (2 ^ 52)%Z) in *. clearbody P Q.
    assert (0 < Q * P)%Z by nia.
    split.
    + replace (m * P * (nw * (Q * P)))%Z with (nw * m * P * (Q * P))%Z by ring.
      replace (900 * (Q * P) * (Q * P))%Z with (900 * Q * P * (Q * P))%Z by ring.
      apply Z.mul_le_mono_nonneg_r; [lia|].
      apply Z.mul_le_mono_nonneg_r; lia.
    + replace ((m + 1) * P * (nw * (Q * P)))%Z
        with (nw * (m + 1) * P * (Q * P))%Z by ring.
      replace (900 * (Q * P) * (Q * P))%Z with (900 * Q * P * (Q * P))%Z by ring.
      apply Z.mul_le_mono_nonneg_r; [lia|].
      apply Z.mul_le_mono_nonneg_r; [lia|]. unfold Z.succ in D2. lia.
  - exists s. split; [exact Es|]. split; [exact Hs|].
    rewrite one_split52.
    set (P := (2 ^ 1022)%Z) in *. set (Q := (2 ^ 52)%Z) in *. clearbody P Q.
    nia.
Qed.

(** A side of the image times the scale factor, rounded to an integer. *)
Lemma scaled_side (n s : Z) :
  (0 ≤ n < 2 ^ 32 → 0 ≤ s ≤ one →
   ∃ k, Math_round (mul (of_Z n) (Fin s)) = of_Z k ∧ 0 ≤ k ≤ n)%Z.
Proof.
  intros Hn Hs. assert (H32 : (2 ^ 32 < 2 ^ 53)%Z) by reflexivity.
  rewrite of_Z_exact by lia. unfold mul. pose proof one_pos as Ho.
  destruct (round64_between (n * one * s) one 0 (n * one)) as (p & -> & Hp).
  - lia.
  - apply representable_0.
  - apply int_representable; lia.
  - simpl. lia.
  - assert (2 ^ 32 * one < 2 ^ 2098)%Z by reflexivity.
    rewrite Z.abs_eq by (apply Z.mul_nonneg_nonneg; lia).
    assert (n * one < 2 ^ 32 * one)%Z by (apply Z.mul_lt_mono_pos_r; lia). lia.
  - hide_one. split; [nia|]. apply Z.mul_le_mono_nonneg_l; nia.
  - rewrite Math_round_fin. exists ((2 * p + one) / (2 * one))%Z.
    assert (Hk : (0 ≤ (2 * p + one) / (2 * one) ≤ n)%Z).
    { split; [apply Z.div_pos; lia|].
      apply Z.lt_succ_r, Z.div_lt_upper_bound; [lia|]. hide_one. nia. }
    split; [|exact Hk]. rewrite of_Z_exact by lia. reflexivity.
Qed.

(** The width of an image wider than 900 comes out as 900 exactly. *)
Lemma scaled_width (nw s : Z) :
  (900 < nw < 2 ^ 32 →
   900 * 2 ^ 52 / nw * 2 ^ 1022 ≤ s ≤ (900 * 2 ^ 52 / nw + 1) * 2 ^ 1022 →
   Math_round (mul (of_Z nw) (Fin s)) = of_Z 900)%Z.
Proof.
  intros Hn Hs. assert (H32 : (2 ^ 32 < 2 ^ 53)%Z) by reflexivity.
  rewrite of_Z_exact by lia. unfold mul. pose proof one_pos as Ho.
  pose proof (Z.mul_div_le (900 * 2 ^ 52) nw ltac:(lia)) as D1.
  pose proof (Z.mul_succ_div_gt (900 * 2 ^ 52) nw ltac:(lia)) as D2.
  set (m := (900 * 2 ^ 52 / nw)%Z) in *. clearbody m. unfold Z.succ in D2.
  assert (E52 : (2 ^ 52 = 2 ^ 20 * 2 ^ 32 ∧ 0 < 2 ^ 20 ∧ 900 * 2 ^ 20 + 1 < 2 ^ 53
                 ∧ 0 < 2 ^ 32 ∧ 2 ^ 1054 = 2 ^ 32 * 2 ^ 1022
                 ∧ one = 2 ^ 20 * 2 ^ 1054)%Z)
    by (repeat split; reflexivity).
  destruct E52 as (E52 & H20 & H53 & H32' & E1054 & Eone).
  pose proof (pow2_pos 1022 ltac:(lia)) as HP.
  destruct (round64_between (nw * one * s) one
              ((900 * 2 ^ 20 - 1) * 2 ^ 1054) ((900 * 2 ^ 20 + 1) * 2 ^ 1054))
    as (p & -> & Hp).
  - lia.
  - apply representable_intro; lia.
  - apply representable_intro; lia.
  - vm_compute. reflexivity.
  - vm_compute. reflexivity.
  - rewrite E1054. rewrite E52 in D1, D2.
    set (P := (2 ^ 1022)%Z) in *. set (A := (2 ^ 20)%Z) in *.
    set (B := (2 ^ 32)%Z) in *. set (o := one) in *. clearbody P A B o.
    assert (H1 : (nw * m * P ≤ nw * s ≤ nw * (m + 1) * P)%Z).
    { split.
      - replace (nw * m * P)%Z with (nw * (m * P))%Z by ring.
        apply Z.mul_le_mono_nonneg_l; lia.
      - replace (nw * (m + 1) * P)%Z with (nw * ((m + 1) * P))%Z by ring.
        apply Z.mul_le_mono_nonneg_l; lia. }
    assert (H2 : ((900 * A - 1) * B * P ≤ nw * m * P)%Z).
    { apply Z.mul_le_mono_nonneg_r; [lia|]. nia. }
    assert (H3 : (nw * (m + 1) * P ≤ (900 * A + 1) * B * P)%Z).
    { apply Z.mul_le_mono_nonneg_r; [lia|]. nia. }
    split.
    + replace ((900 * A - 1) * (B * P) * o)%Z with ((900 * A - 1) * B * P * o)%Z by ring.
      replace (nw * o * s)%Z with (nw * s * o)%Z by ring.
      apply Z.mul_le_mono_nonneg_r; lia.
    + replace ((900 * A + 1) * (B * P) * o)%Z with ((900 * A + 1) * B * P * o)%Z by ring.
      replace (nw * o * s)%Z with (nw * s * o)%Z by ring.
      apply Z.mul_le_mono_nonneg_r; lia.
  - rewrite Math_round_fin. rewrite of_Z_exact by (apply small_abs; lia).
    f_equal. f_equal. rewrite Eone in *. clear Ho.
    pose proof (pow2_pos 1054 ltac:(lia)) as HR.
    set (R := (2 ^ 1054)%Z) in *. clearbody R.
    symmetry. apply Z.div_unique with (2 * p + 2 ^ 20 * R - 900 * (2 * (2 ^ 20 * R)))%Z;
      [left; lia | ring].
Qed.

(** The working size never has a zero side and is never larger than the
    image; an image at most 900 wide keeps its size, and a wider one is
    scaled to a width of exactly 900. *)
Theorem handleLoad_size_spec (nw nh : Z) :
  (0 ≤ nw < 2 ^ 32)%Z → (0 ≤ nh < 2 ^ 32)%Z →
  ∃ w h, handleLoad_size nw nh = (of_Z w, of_Z h)
         ∧ (1 ≤ w ≤ Z.max 1 nw ∧ 1 ≤ h ≤ Z.max 1 nh
            ∧ (nw ≤ 900 → w = Z.max 1 nw ∧ h = Z.max 1 nh)
            ∧ (900 < nw → w = 900))%Z.
Proof.
  intros Hw Hh. unfold handleLoad_size. cbv zeta.
  assert (H32 : (2 ^ 32 < 2 ^ 53)%Z) by reflexivity.
  assert (E : gtb (of_Z nw) (of_Z 900) = (900 <? nw)%Z).
  { rewrite !of_Z_exact by lia. unfold gtb, ltb. pose proof one_pos.
    destruct (Z.ltb_spec (900 * one) (nw * one)), (Z.ltb_spec 900 nw);
      try reflexivity; exfalso; hide_one; nia. }
  rewrite E. destruct (Z.ltb_spec 900 nw) as [Hbig|Hsmall].
  - destruct (scale_bracket nw ltac:(lia)) as (s & -> & Hs & Hs1).
    rewrite (scaled_width nw s ltac:(lia) Hs).
    destruct (scaled_side nh s Hh Hs1) as (k & -> & Hk).
    rewrite !Math_max_int by lia.
    exists (Z.max 1 900), (Z.max 1 k). split; [reflexivity|]. lia.
  - rewrite !mul_one_exact, !Math_round_int, !Math_max_int by lia.
    exists (Z.max 1 nw), (Z.max 1 nh). split; [reflexivity|]. lia.
Qed.

Lemma handleLoad_size_spec_witness :
  ∃ w h, handleLoad_size 1800 1200 = (of_Z w, of_Z h)
         ∧ (1 ≤ w ≤ Z.max 1 1800 ∧ 1 ≤ h ≤ Z.max 1 1200
            ∧ (1800 ≤ 900 → w = Z.max 1 1800 ∧ h = Z.max 1 1200)
            ∧ (900 < 1800 → w = 900))%Z.
Proof. apply handleLoad_size_spec; lia. Defined.

(** ** The name of the exported file *)

Lemma remove_extension_no_dot (s : string) :
  has_dot s = false → remove_extension s = s.
Proof.
  induction s as [|c s IH]; [reflexivity|]. simpl. intros H.
  apply orb_false_iff in H as [Hc Hs]. rewrite Hc. simpl. rewrite IH by exact Hs.
  reflexivity.
Qed.

Lemma has_dot_app (a b : string) :
  has_dot (a +:+ b) = has_dot a || has_dot b.
Proof.
  induction a as [|c a IH]; [reflexivity|]. simpl. rewrite IH.
  destruct (Ascii.eqb c "."%char); reflexivity.
Qed.

Lemma remove_extension_app (base ext : string) :
  ext ≠ EmptyString → has_dot ext = false →
  remove_extension (base +:+ "." +:+ ext) = base.
Proof.
  intros Hne Hd. induction base as [|c base IH].
  - change (remove_extension (String "."%char ext) = EmptyString).
    cbn [remove_extension]. rewrite Hd.
    destruct ext; [contradiction | reflexivity].
  - change (remove_extension (String c (base +:+ "." +:+ ext)) = String c base).
    cbn [remove_extension]. rewrite IH, has_dot_app.
    change (has_dot ("." +:+ ext)) with true.
    rewrite orb_true_r, andb_false_r. reflexivity.
Qed.

(** The exported file takes the name of the loaded file without its
    extension: for a name [base.ext], with a non-empty extension that has no
    dot, the download name starts with [base] followed by an underscore, and
    it ends in [.png]. *)
Theorem downloadPNG_name_extension (base ext algorithm : string) :
  ext ≠ EmptyString → has_dot ext = false →
  downloadPNG_name (base +:+ "." +:+ ext) algorithm
  = (base +:+ "_" +:+ replace_spaces algorithm 0 false +:+ ".png")%string.
Proof.
  intros Hne Hd. unfold downloadPNG_name.
  rewrite remove_extension_app by assumption.
  destruct base; reflexivity.
Qed.

Lemma downloadPNG_name_extension_witness :
  downloadPNG_name ("holiday.2024" +:+ "." +:+ "jpeg") "Ordered Bayer 4x4"
  = ("holiday.2024" +:+ "_" +:+ replace_spaces "Ordered Bayer 4x4" 0 false +:+ ".png")%string.
Proof. apply downloadPNG_name_extension; [discriminate | reflexivity]. Defined.

Lemma space_width_dash (rest : string) : space_width (String "-"%char rest) = 0.
Proof. destruct rest as [|c1 [|c2 r]]; reflexivity. Qed.

(** A byte that starts no white space character starts none either once the
    white space behind it has been replaced. *)
Lemma space_width_kept (c : ascii) (rest : string) :
  space_width (String c rest) = 0 →
  space_width (String c (replace_spaces rest 0 false)) = 0.
Proof.
  intros H. destruct rest as [|c1 r1]; [exact H|].
  cbn [replace_spaces].
  destruct (space_width (String c1 r1)) eqn:E1.
  - destruct r1 as [|c2 r2]; [exact H|].
    cbn [replace_spaces].
    destruct (space_width (String c2 r2)) eqn:E2; [exact H|].
    revert H. unfold space_width. cbv zeta.
    destruct ((9 <=? nat_of_ascii c) && (nat_of_ascii c <=? 13)
              || (nat_of_ascii c =? 32)); [discriminate|].
    destruct ((nat_of_ascii c =? 194) && (nat_of_ascii c1 =? 160)); [discriminate|].
    intros _. change (nat_of_ascii "-") with 45. cbn [Nat.eqb Nat.leb].
    rewrite ?andb_false_r, ?orb_false_r, ?andb_false_r. reflexivity.
  - revert H. unfold space_width. cbv zeta.
    destruct ((9 <=? nat_of_ascii c) && (nat_of_ascii c <=? 13)
              || (nat_of_ascii c =? 32)); [discriminate|].
    intros _. change (nat_of_ascii "-") with 45. cbn [Nat.eqb Nat.leb].
    rewrite ?andb_false_r.
    destruct (replace_spaces r1 n true); reflexivity.
Qed.

Lemma replace_spaces_no_space (s : string) (skip : nat) (in_run : bool) :
  no_space (replace_spaces s skip in_run) = true.
Proof.
  revert skip in_run. induction s as [|c rest IH]; intros skip in_run; [reflexivity|].
  cbn [replace_spaces]. destruct skip as [|k]; [|apply IH].
  destruct (space_width (String c rest)) eqn:E.
  - cbn [no_space]. rewrite (space_width_kept c rest E), IH. reflexivity.
  - destruct in_run; [apply IH|].
    cbn [no_space]. rewrite space_width_dash, IH. reflexivity.
Qed.

Lemma replace_spaces_id (s : string) :
  no_space s = true → replace_spaces s 0 false = s.
Proof.
  induction s as [|c rest IH]; [reflexivity|].
  cbn [no_space replace_spaces]. intros H. apply andb_true_iff in H as [H1 H2].
  apply Nat.eqb_eq in H1. rewrite H1, IH by exact H2. reflexivity.
Qed.

(** In the exported name every run of white space of the algorithm name has
    become one dash: the part that comes from the algorithm holds no white
    space, a name without white space is taken as it is, and so the
    replacement applied twice gives the same as applied once. *)
Theorem downloadPNG_name_spaces (algorithm : string) :
  no_space (replace_spaces algorithm 0 false) = true
  ∧ (no_space algorithm = true → replace_spaces algorithm 0 false = algorithm)
  ∧ replace_spaces (replace_spaces algorithm 0 false) 0 false
    = replace_spaces algorithm 0 false.
Proof.
  split; [apply replace_spaces_no_space|]. split; [apply replace_spaces_id|].
  apply replace_spaces_id, replace_spaces_no_space.
Qed.

(** ** Ordered dithering of a flat tone *)

Lemma concat_rows_lookup {A : Type} (m : list (list A)) (n x y : nat) :
  Forall (λ row, length row = n) m → x < n →
  concat m !! (y * n + x) = m !! y ≫= (λ row, row !! x).
Proof.
  intros H Hx. revert y. induction H as [|row rest Hrow _ IH]; intros y.
  - rewrite !lookup_nil. reflexivity.
  - simpl concat. destruct y as [|y].
    + simpl. rewrite lookup_app_l by lia. reflexivity.
    + rewrite lookup_app_r by (simpl; lia).
      replace (S y * n + x - length row) with (y * n + x) by (simpl; lia).
      rewrite IH. reflexivity.
Qed.

(** A Bayer matrix of size N holds each of the levels 0 .. N² - 1 once, and
    read row by row it is the list of the cells of an N by N image. *)
Lemma bayer_levels (m : list (list Z)) :
  m = BAYER_2 ∨ m = BAYER_4 ∨ m = BAYER_8 →
  concat m ≡ₚ seqZ 0 (Z.of_nat (length m * length m))
  ∧ ∀ x y, x < length m → y < length m →
           concat m !! (y * length m + x) = Some (bayer_cell m x y).
Proof.
  intros Hm. split.
  - apply NoDup_Permutation.
    + destruct Hm as [-> | [-> | ->]]; apply (bool_decide_unpack _); vm_compute;
        exact I.
    + apply NoDup_seqZ.
    + intros k. rewrite elem_of_seqZ. split.
      * intros Hk.
        assert (H : Forall (λ c, 0 ≤ c < 0 + Z.of_nat (length m * length m))%Z
                      (concat m)).
        { destruct Hm as [-> | [-> | ->]]; apply (bool_decide_unpack _); vm_compute;
            exact I. }
        rewrite Forall_forall in H. exact (H k Hk).
      * intros Hk.
        assert (H : Forall (λ c, c ∈ concat m) (seqZ 0 (Z.of_nat (length m * length m)))).
        { destruct Hm as [-> | [-> | ->]]; apply (bool_decide_unpack _); vm_compute;
            exact I. }
        rewrite Forall_forall in H. apply H, elem_of_seqZ. exact Hk.
  - intros x y Hx Hy. unfold bayer_cell.
    rewrite !Nat.mod_small by assumption.
    assert (H : Forall (λ row, length row = length m) m).
    { destruct Hm as [-> | [-> | ->]]; repeat constructor. }
    rewrite (concat_rows_lookup m (length m) x y H Hx).
    destruct (lookup_lt_is_Some_2 m y Hy) as (row & Hrow).
    rewrite Hrow. simpl. rewrite (list_lookup_total_correct _ _ _ Hrow).
    rewrite Forall_lookup in H. specialize (H _ _ Hrow).
    destruct (lookup_lt_is_Some_2 row x ltac:(lia)) as (c & Hc).
    rewrite Hc. rewrite (list_lookup_total_correct _ _ _ Hc). reflexivity.
Qed.

Lemma foreground_count_bits (f : Z → bool) (l : list Z) :
  foreground_count ((λ c, bit (f c)) <$> l) = length (filter (λ c, f c = true) l).
Proof.
  unfold foreground_count. induction l as [|c l IH]; [reflexivity|].
  rewrite fmap_cons, !filter_cons. destruct (f c) eqn:E; simpl.
  - destruct (decide (1 = 1)%Z); [|lia]. destruct (decide (true = true)); [|congruence].
    simpl. rewrite IH. reflexivity.
  - destruct (decide (0 = 1)%Z); [lia|]. destruct (decide (false = true)); [congruence|].
    exact IH.
Qed.

(** Tone reproduction: on an N by N tile of one gray value [g] the ordered
    variant turns on as many pixels as there are levels [k] of 0 .. N² - 1
    whose threshold [(k + 0.5) * 255 / N²] is below [g], since the matrix holds
    each level once. *)
Theorem ordered_flat_tone (m : list (list Z)) (g : Z) :
  m = BAYER_2 ∨ m = BAYER_4 ∨ m = BAYER_8 → (0 ≤ g ≤ 255)%Z →
  let n := length m in
  foreground_count
    (ordered_dither m n n (replicate (n * n) g) (replicate (n * n) 0%Z))
  = levels_below n g.
Proof.
  intros Hm Hg n. destruct (bayer_levels m Hm) as (Hperm & Hcells). fold n in Hperm, Hcells.
  assert (Hn : 0 < n) by (destruct Hm as [-> | [-> | ->]]; unfold n; simpl; lia).
  assert (Hlen : length (concat m) = n * n).
  { rewrite Hperm, length_seqZ. lia. }
  set (f := λ c : Z, ((2 * c + 1) * 255 <? g * (2 * Z.of_nat n * Z.of_nat n))%Z).
  assert (E : ordered_dither m n n (replicate (n * n) g) (replicate (n * n) 0%Z)
              = (λ c, bit (f c)) <$> concat m).
  { apply list_eq. intros i. rewrite list_lookup_fmap.
    destruct (decide (i < n * n)) as [Hi|Hi].
    - pose proof (index_decompose n i) as Ei.
      pose proof (Nat.mod_upper_bound i n ltac:(lia)) as Hx.
      assert (Hy : i `div` n < n) by (apply Nat.Div0.div_lt_upper_bound; lia).
      rewrite <- Ei.
      rewrite (ordered_mask_lookup m n n _ _ _ g Hm Hg Hx Hy)
        by (apply lookup_replicate_2; lia).
      rewrite (Hcells _ _ Hx Hy). reflexivity.
    - destruct (ordered_dither_is_mask (n * n) m n n (replicate (n * n) g)
                  (replicate (n * n) 0%Z) (is_mask_zeros (n * n))) as [Hl _].
      rewrite !lookup_ge_None_2; [reflexivity | lia | lia]. }
  rewrite E, foreground_count_bits. unfold levels_below. fold n.
  rewrite Hperm. f_equal. apply list_filter_iff. intros c. unfold f.
  rewrite Z.ltb_lt. reflexivity.
Qed.

Lemma ordered_flat_tone_witness :
  foreground_count
    (ordered_dither BAYER_4 (length BAYER_4) (length BAYER_4)
       (replicate (length BAYER_4 * length BAYER_4) 100%Z)
       (replicate (length BAYER_4 * length BAYER_4) 0%Z))
  = levels_below (length BAYER_4) 100.
Proof. apply (ordered_flat_tone BAYER_4 100); [auto | lia]. Defined.
